(** * bedup/tracking.py: the scanner, the windowed query and the
      deduplication pipeline, as a shallow embedding.

    The Catalog (the SQLAlchemy session of the source) is modelled at the
    level of its tables: the Inode table is a list of rows, an ORM object
    is the row with the same (vol, ino) key, [sess.delete] removes the row
    and an attribute assignment followed by a commit rewrites it.  Calls
    into the kernel, the file system and the hashing helpers are oracles
    collected in the record [Env]; calls that only drive the progress
    display are recorded in the trace, and so is every call of
    clear_updates, with its arguments.  [assert] statements are modelled as
    executed (the interpreter is not run with -O). *)

From Stdlib Require Import ZArith List Bool Lia.
From stdpp Require Import base numbers list gmap strings sorting.

Open Scope Z_scope.

(** ** Data model *)

Abbreviation path := string.

Record Volume := mkVolume {
  vol_id : Z;
  vol_fs : Z;
  st_dev : Z;
  size_cutoff : Z;
  last_tracked_generation : Z;
  last_tracked_size_cutoff : option Z;
}.

(** A row of the Inode table; [i_vol] is the foreign key [vol_id]. *)
Record Inode := mkInode {
  i_vol : Z;
  ino : Z;
  size : Z;
  has_updates : bool;
}.

#[global] Instance Inode_eq_dec : EqDecision Inode.
Proof. solve_decision. Defined.

(** The identity of a row: (vol, ino) is unique in the Catalog. *)
Definition ikey (i : Inode) : Z * Z := (i_vol i, ino i).

Definition same_row (i j : Inode) : bool :=
  bool_decide (ikey i = ikey j).

(** DedupEvent with its DedupEventInode rows, each an (ino, vol) pair.
    The [created] timestamp of the source is left out. *)
Record DedupEvent := mkDedupEvent {
  ev_fs : Z;
  item_size : Z;
  ev_inodes : list (Z * Z);
}.

Inductive sync_mode := NORMAL | FULL.

(** An open file object: its descriptor and the row it was opened for.
    The pipeline itself only ever uses [fileno]; the row tells the oracles
    which file is meant. *)
Record file := mkFile {
  fileno : Z;
  f_row : Inode;
}.

(** ** Exceptions and the trace of outward calls *)

Inductive exn :=
| AssertionError (msg : option (path * path))
| IOError (errno : Z)
| TypeError
| IndexError
| KeyError
| FuelExhausted.

Definition ENOENT : Z := 2.
Definition EACCES : Z := 13.
Definition ETXTBSY : Z := 26.

Inductive message :=
| Skipping_scan (top_generation : Z)
| Scanning_volume (min_generation top_generation cutoff : Z)
| Error_at_path_lookup (ino errno : Z)
| Too_many_duplicates (inode_count : nat) (size ofile_soft ofile_hard : Z)
| File_is_busy (p : path)
| Access_denied (p : path)
| File_may_have_moved (p : path)
| File_is_in_use (p : path)
| Files_differ (sname dname : path)
| Deduplicated (sname dname : path)
| Did_not_deduplicate (sname dname : path)
| Potential_space_gain (g1 g2 g3 : Z).

Inductive pragma :=
| synchronous_NORMAL
| synchronous_FULL
| wal_autocheckpoint_0.

Inductive action :=
| Notify (m : message)
| TtUpdatePath (p : string)
| TtUpdateDesc (ino transid inode_gen size : Z)
| Execute (p : pragma)
| Commit (mode : sync_mode)
| Setrlimit (soft hard : Z)
| OpenRW (i : Inode)
| CloneData (dest src : Z) (cloned : bool)
| ClearUpdates (window_start : option Z) (window_end : Z)
| SkipAppend (i : Inode)            (* query.skipped.append(inode) *)
| PleaseCheckpoint
| CheckpointerStart
| CheckpointerClose.

(** ** The state threaded through the program *)

Record state := mkState {
  inodes : list Inode;             (* the Inode table *)
  events : list DedupEvent;        (* the DedupEvent table *)
  synchronous : sync_mode;         (* PRAGMA synchronous of the connection *)
  skipped : list Inode;            (* WindowedQuery.skipped *)
  cp_alive : bool;                 (* Checkpointer.is_alive() *)
  cp_done : bool;                  (* Checkpointer.done *)
  ofile_soft : Z;                  (* local of dedup_tracked1 *)
  space_gain1 : Z;
  space_gain2 : Z;
  space_gain3 : Z;
  trace : list action;
}.

Definition set_inodes (f : list Inode → list Inode) (s : state) : state :=
  mkState (f (inodes s)) (events s) (synchronous s) (skipped s) (cp_alive s)
    (cp_done s) (ofile_soft s) (space_gain1 s) (space_gain2 s)
    (space_gain3 s) (trace s).
Definition set_events (f : list DedupEvent → list DedupEvent) (s : state) : state :=
  mkState (inodes s) (f (events s)) (synchronous s) (skipped s) (cp_alive s)
    (cp_done s) (ofile_soft s) (space_gain1 s) (space_gain2 s)
    (space_gain3 s) (trace s).
Definition set_synchronous (m : sync_mode) (s : state) : state :=
  mkState (inodes s) (events s) m (skipped s) (cp_alive s)
    (cp_done s) (ofile_soft s) (space_gain1 s) (space_gain2 s)
    (space_gain3 s) (trace s).
Definition set_skipped (f : list Inode → list Inode) (s : state) : state :=
  mkState (inodes s) (events s) (synchronous s) (f (skipped s)) (cp_alive s)
    (cp_done s) (ofile_soft s) (space_gain1 s) (space_gain2 s)
    (space_gain3 s) (trace s).
Definition set_cp (alive done : bool) (s : state) : state :=
  mkState (inodes s) (events s) (synchronous s) (skipped s) alive
    done (ofile_soft s) (space_gain1 s) (space_gain2 s)
    (space_gain3 s) (trace s).
Definition set_ofile_soft (v : Z) (s : state) : state :=
  mkState (inodes s) (events s) (synchronous s) (skipped s) (cp_alive s)
    (cp_done s) v (space_gain1 s) (space_gain2 s)
    (space_gain3 s) (trace s).
Definition set_gains (g1 g2 g3 : Z) (s : state) : state :=
  mkState (inodes s) (events s) (synchronous s) (skipped s) (cp_alive s)
    (cp_done s) (ofile_soft s) g1 g2 g3 (trace s).
Definition emit (a : action) (s : state) : state :=
  mkState (inodes s) (events s) (synchronous s) (skipped s) (cp_alive s)
    (cp_done s) (ofile_soft s) (space_gain1 s) (space_gain2 s)
    (space_gain3 s) (trace s ++ [a]).

(** ** A state and exception monad *)

Inductive result (A : Type) :=
| Ok (a : A)
| Raise (e : exn).
Arguments Ok {A} a.
Arguments Raise {A} e.

Definition M (A : Type) : Type := state → result A * state.

Definition ret {A} (a : A) : M A := λ s, (Ok a, s).
Definition raise {A} (e : exn) : M A := λ s, (Raise e, s).
Definition bind {A B} (m : M A) (k : A → M B) : M B :=
  λ s, match m s with
       | (Ok a, s') => k a s'
       | (Raise e, s') => (Raise e, s')
       end.
Definition get : M state := λ s, (Ok s, s).
Definition modify (f : state → state) : M unit := λ s, (Ok tt, f s).

Notation "'let!' x ':=' m 'in' k" := (bind m (λ x, k))
  (at level 10, x pattern, m at level 100, k at level 200).
Notation "m '>>' k" := (bind m (λ _, k))
  (at level 110, right associativity).

(** A Python [for] loop whose body has effects; [continue] is the body
    returning early. *)
Fixpoint for_ {A} (l : list A) (body : A → M unit) : M unit :=
  match l with
  | [] => ret tt
  | x :: l' => body x >> for_ l' body
  end.

Definition tell_ (a : action) : M unit := modify (emit a).
Definition notify (m : message) : M unit := tell_ (Notify m).

(** [sess.commit()]: the commit runs under the synchronous mode in force. *)
Definition commit : M unit :=
  λ s, (Ok tt, emit (Commit (synchronous s)) s).

(** [sess.delete(inode)] (and [sess.expunge] of a pending row). *)
Definition sess_delete (i : Inode) : M unit :=
  modify (set_inodes (filter (λ r, ikey r ≠ ikey i))).

(** [sess.execute('PRAGMA ...')]. *)
Definition execute (p : pragma) : M unit :=
  modify (λ s,
    emit (Execute p)
      match p with
      | synchronous_NORMAL => set_synchronous NORMAL s
      | synchronous_FULL => set_synchronous FULL s
      | wal_autocheckpoint_0 => s
      end).

(** ** SQL expressions and the queries of WindowedQuery *)

Inductive clause :=
| vol_id_in (ids : list Z)         (* inode.c.vol_id.in_(ids) *)
| size_le (v : option Z)           (* size <= v; NULL when v is None *)
| size_ge (v : Z)                  (* size >= v *)
| and_ (a b : clause).

Fixpoint holds (c : clause) (i : Inode) : bool :=
  match c with
  | vol_id_in ids => bool_decide (i_vol i ∈ ids)
  | size_le (Some v) => bool_decide (size i ≤ v)
  | size_le None => false
  | size_ge v => bool_decide (v ≤ size i)
  | and_ a b => holds a i && holds b i
  end.

Record WindowedQuery := mkWindowedQuery {
  filt_crit : clause;
  window_size : nat;
}.

Definition WINDOW_SIZE : nat := 200.

(** A row of [selectable]: size, count() and max(has_updates). *)
Record size_row := mkSizeRow {
  sr_size : Z;
  inode_count : nat;
  sr_has_updates : bool;
}.

Record Commonality1 := mkCommonality1 {
  comm_size : Z;
  comm_inode_count : nat;
  comm_inodes : list Inode;
}.

Definition filtered_s (q : WindowedQuery) (tbl : list Inode) : list Inode :=
  filter (λ i, holds (filt_crit q) i = true) tbl.

Definition group_by_size (rows : list Inode) : list size_row :=
  (λ s, let g := filter (λ i, size i = s) rows in
        mkSizeRow s (length g) (existsb has_updates g))
    <$> remove_dups (size <$> rows).

Definition having (rows : list size_row) : list size_row :=
  filter (λ r, (1 < inode_count r)%nat ∧ sr_has_updates r = true) rows.

Definition selectable (q : WindowedQuery) (tbl : list Inode) : list size_row :=
  having (group_by_size (filtered_s q tbl)).

Definition WindowedQuery_len (q : WindowedQuery) : M nat :=
  let! s := get in ret (length (selectable q (inodes s))).

Definition Zdesc : relation Z := λ a b, b ≤ a.
Definition by_size_desc : relation size_row := λ a b, sr_size b ≤ sr_size a.
Definition by_size_desc_ino : relation Inode :=
  λ a b, size b < size a ∨ (size a = size b ∧ ino a ≤ ino b).

#[global] Instance Zdesc_dec : RelDecision Zdesc.
Proof. intros a b; unfold Zdesc; apply _. Defined.
#[global] Instance by_size_desc_dec : RelDecision by_size_desc.
Proof. intros a b; unfold by_size_desc; apply _. Defined.
#[global] Instance by_size_desc_ino_dec : RelDecision by_size_desc_ino.
Proof. intros a b; unfold by_size_desc_ino; apply _. Defined.

(** [selectable.order_by(-size).where(size <= window_start).limit(W)] *)
Definition window_select (q : WindowedQuery) (tbl : list Inode)
    (window_start : option Z) : list size_row :=
  take (window_size q)
    (merge_sort by_size_desc
       (having (group_by_size
          (filter (λ i, holds (size_le window_start) i = true)
             (filtered_s q tbl))))).

(** [query(Inode).select_from(filtered_s).join(window_select,
    window_select.c.size == Inode.size).order_by(-Inode.size, Inode.ino)]:
    the entity is read from the Inode table itself, which [select_from]
    leaves alone, so the rows are those of the whole table whose size is
    one of the window, in the order (-size, ino).  The filtered set in the
    FROM list repeats each of them, and the Query gives each object
    once. *)
Definition window_inodes (q : WindowedQuery) (tbl : list Inode)
    (li : list size_row) : list Inode :=
  merge_sort by_size_desc_ino
    (filter (λ i, size i ∈ (sr_size <$> li)) tbl).

(** [query(unfiltered.c.size).order_by(-size).limit(1).scalar()] *)
Definition max_size_scalar (tbl : list Inode) : option Z :=
  head (merge_sort Zdesc (size <$> tbl)).

(** itertools.groupby: runs of consecutive elements with equal key. *)
Fixpoint groupby {A} (key : A → Z) (l : list A) : list (Z * list A) :=
  match l with
  | [] => []
  | x :: l' =>
      match groupby key l' with
      | (k, g) :: rest =>
          if bool_decide (key x = k) then (k, x :: g) :: rest
          else (key x, [x]) :: (k, g) :: rest
      | [] => [(key x, [x])]
      end
  end.

(** ** Oracles: everything the code asks of its collaborators *)

Inductive stage := Stage2 | Stage3 | Stage4.

Inductive lookup_result :=
| LookupOk (p : path)
| LookupErr (errno : Z).

Inductive open_result :=
| Opened (fd : Z)
| OpenErr (errno : Z).

Record stat_result := mkStat { st_ino : Z; stat_st_dev : Z }.

Record Env := mkEnv {
  (* truth value SQLAlchemy gives a clause object; None: it raises *)
  clause_bool : clause → option bool;
  (* inode.vol *)
  volume : Z → Volume;
  getrlimit_OFILE : Z * Z;
  (* the three call sites of lookup_ino_path_one in dedup_tracked1 *)
  lookup_ino_path_one : stage → Inode → lookup_result;
  (* fopenat of stages 2 and 3: None when it succeeds *)
  fopenat : stage → Inode → path → option Z;
  mini_hash_from_file : Inode → Z;
  fiemap_hash_from_file : Inode → Z;
  fopenat_rw : Inode → path → open_result;
  (* ImmutableFDs(fds).fds_in_write_use *)
  fds_in_write_use : list file → list Z;
  sha1_digest : file → Z;
  fstat : file → stat_result;
  tell : file → Z;
  cmp_files : file → file → bool;
  clone_data : file → file → bool;       (* dest, src *)
}.

(** ** Checkpointer

    The worker thread itself is not modelled; what the foreground task
    sees of it is whether it is alive and whether it was told to stop. *)

Definition please_checkpoint : M unit :=
  tell_ PleaseCheckpoint >>
  let! s := get in
  if cp_alive s then ret tt
  else modify (set_cp true (cp_done s)) >> tell_ CheckpointerStart.

Definition checkpointer_close : M unit :=
  let! s := get in
  if negb (cp_alive s) then ret tt
  else tell_ CheckpointerClose >> modify (set_cp false true).

(** ** WindowedQuery.clear_updates *)

(** Python's [x and y] on two clause objects: the truth value of [x] is
    asked of SQLAlchemy, and one of the two operands is the result. *)
Definition py_and (E : Env) (x y : clause) : M clause :=
  match clause_bool E x with
  | Some true => ret y
  | Some false => ret x
  | None => raise TypeError
  end.

(** [window_start >= self.unfiltered.c.size >= window_end]: a chained
    comparison, that is [(window_start >= size) and (size >= window_end)].
    The left comparison is answered by the column's reflected operator and
    builds the clause [size <= window_start]. *)
Definition chained_comparison (E : Env) (window_start : option Z)
    (window_end : Z) : M clause :=
  py_and E (size_le window_start) (size_ge window_end).

Definition clear_flag (i : Inode) : Inode :=
  mkInode (i_vol i) (ino i) (size i) false.
Definition set_flag (i : Inode) : Inode :=
  mkInode (i_vol i) (ino i) (size i) true.

(** [unfiltered.update().where(c).values(has_updates=False)] *)
Definition update_clear (c : clause) : M unit :=
  modify (set_inodes (map (λ i, if holds c i then clear_flag i else i))).

(** The row of [inode] gets has_updates = true: the UPDATE the unit of
    work emits for [inode.has_updates = True] when it finds the attribute
    changed.  In fake_updates the object has just been loaded by the
    query, so that when no UPDATE is emitted the row holds true already. *)
Definition reflag (inode : Inode) : M unit :=
  modify (set_inodes (map (λ r, if same_row r inode then set_flag r else r))).

(** Whether a commit has expired the object of [inode] since it was put
    on the skip list: going back in time through the trace, a Commit is
    met before the append.  The program reads no attribute of an object
    after it has put it on the skip list, so that nothing loads it
    again. *)
Fixpoint expired_back (rtr : list action) (inode : Inode) : bool :=
  match rtr with
  | [] => false
  | Commit _ :: _ => true
  | SkipAppend i :: rest =>
      if same_row i inode then false else expired_back rest inode
  | _ :: rest => expired_back rest inode
  end.

Definition expired (tr : list action) (inode : Inode) : bool :=
  expired_back (reverse tr) inode.

(** Whether [inode.has_updates = True] reaches the table.  The skip list
    holds each object as it was loaded.  The unit of work compares the
    value assigned with the value loaded and emits no UPDATE when they are
    equal; the UPDATE of clear_updates goes around the session and leaves
    the loaded value as it is.  Of an expired object no value is loaded,
    and the assignment is written. *)
Definition assignment_writes (tr : list action) (inode : Inode) : bool :=
  negb (has_updates inode) || expired tr inode.

Definition clear_updates (E : Env) (q : WindowedQuery)
    (window_start : option Z) (window_end : Z) : M unit :=
  tell_ (ClearUpdates window_start window_end) >>
  let! range := chained_comparison E window_start window_end in
  update_clear (and_ (filt_crit q) range) >>
  (let! s := get in
   for_ (skipped s)
     (λ inode,
        if assignment_writes (trace s) inode then reflag inode else ret tt)) >>
  commit >>
  please_checkpoint >>
  modify (set_skipped (λ _, [])).

(** ** WindowedQuery.__iter__

    The generator is driven by its consumer: [body] is what the [for]
    loop of the consumer does with each yielded value.  The yielded values
    are returned next to the outcome, out of reach of [body]. *)

Definition G (A : Type) : Type :=
  state → list Commonality1 * (result A * state).

Fixpoint yield_each (body : Commonality1 → M unit)
    (groups : list Commonality1) : G unit :=
  λ s,
  match groups with
  | [] => ([], (Ok tt, s))
  | g :: rest =>
      match body g s with
      | (Ok _, s') =>
          let '(ys, r) := yield_each body rest s' in (g :: ys, r)
      | (Raise e, s') => ([g], (Raise e, s'))
      end
  end.

(** How the [while True] loop is left. *)
Inductive loop_exit := Break | Return.

Definition window_groups (q : WindowedQuery) (tbl : list Inode)
    (li : list size_row) : list Commonality1 :=
  (λ '(size, inodes), mkCommonality1 size (length inodes) inodes)
    <$> groupby size (window_inodes q tbl li).

Fixpoint iter_windows (E : Env) (q : WindowedQuery) (fuel : nat)
    (body : Commonality1 → M unit) (window_start : option Z)
    : G loop_exit :=
  λ s,
  match fuel with
  | O => ([], (Raise FuelExhausted, s))
  | S fuel' =>
      let li := window_select q (inodes s) window_start in
      match li with
      | [] =>
          match clear_updates E q window_start 0 s with
          | (Ok _, s') => ([], (Ok Return, s'))
          | (Raise e, s') => ([], (Raise e, s'))
          end
      | li0 :: _ =>
          let window_start := sr_size li0 in
          let window_end := sr_size (List.last li li0) in
          match yield_each body (window_groups q (inodes s) li) s with
          | (ys, (Ok _, s1)) =>
              match clear_updates E q (Some window_start) window_end s1 with
              | (Ok _, s2) =>
                  let '(ys', r) :=
                    iter_windows E q fuel' body (Some (window_end - 1)) s2 in
                  (ys ++ ys', r)
              | (Raise e, s2) => (ys, (Raise e, s2))
              end
          | (ys, (Raise e, s1)) => (ys, (Raise e, s1))
          end
      end
  end.

Definition WindowedQuery_iter (E : Env) (q : WindowedQuery) (fuel : nat)
    (body : Commonality1 → M unit) : G unit :=
  λ s,
  match (execute synchronous_NORMAL >>
         execute wal_autocheckpoint_0 >>
         (* self.checkpointer = Checkpointer(self.sess.bind) *)
         modify (set_cp false false) >>
         let! s := get in ret (max_size_scalar (inodes s))) s with
  | (Ok window_start, s) =>
      match iter_windows E q fuel body window_start s with
      | (ys, (Ok Return, s')) => (ys, (Ok tt, s'))
      | (ys, (Ok Break, s')) =>
          (* the statements after the loop: lines 302-305 *)
          (ys, (checkpointer_close >> execute synchronous_FULL) s')
      | (ys, (Raise e, s')) => (ys, (Raise e, s'))
      end
  | (Raise e, s) => ([], (Raise e, s))
  end.

(** ** dedup_tracked1: the pipeline run on each yielded size group *)

Fixpoint foldM {A B} (f : B → A → M B) (acc : B) (l : list A) : M B :=
  match l with
  | [] => ret acc
  | x :: l' => let! acc' := f acc x in foldM f acc' l'
  end.

(** [d[k].append(v)] on a defaultdict(list); the groups are kept in the
    order in which their keys first appear. *)
Fixpoint dd_append {V} (k : Z) (v : V) (d : list (Z * list V))
    : list (Z * list V) :=
  match d with
  | [] => [(k, [v])]
  | (k', vs) :: d' =>
      if bool_decide (k = k') then (k', vs ++ [v]) :: d'
      else (k', vs) :: dd_append k v d'
  end.

(** The files opened read-write for one group, as stage 4 builds them. *)
Record opened := mkOpened {
  files : list file;
  fds : list Z;
  fd_names : gmap Z path;
  fd_inodes : gmap Z Inode;
}.

(** [query.skipped.append(inode)].  The append is traced: what the
    assignment of clear_updates does to the object later depends on
    whether a commit has come in between. *)
Definition skip (inode : Inode) : M unit :=
  modify (set_skipped (λ l, l ++ [inode])) >> tell_ (SkipAppend inode).

Definition gain1 (d : Z) (s : state) : state :=
  set_gains (space_gain1 s + d) (space_gain2 s) (space_gain3 s) s.
Definition gain2 (d : Z) (s : state) : state :=
  set_gains (space_gain1 s) (space_gain2 s + d) (space_gain3 s) s.
Definition gain3 (d : Z) (s : state) : state :=
  set_gains (space_gain1 s) (space_gain2 s) (space_gain3 s + d) s.
Definition add_gain1 (d : Z) : M unit := modify (gain1 d).
Definition add_gain2 (d : Z) : M unit := modify (gain2 d).
Definition add_gain3 (d : Z) : M unit := modify (gain3 d).

(** A dict subscript: KeyError when the key is absent. *)
Definition subscript {V} (d : gmap Z V) (k : Z) : M V :=
  match d !! k with
  | Some v => ret v
  | None => raise KeyError
  end.

Section Pipeline.
Context (E : Env).

(** Stage 2, one inode: lines 360-387. *)
Definition stage2_step (by_mh : list (Z * list Inode)) (inode : Inode)
    : M (list (Z * list Inode)) :=
  match lookup_ino_path_one E Stage2 inode with
  | LookupErr errno =>
      if bool_decide (errno ≠ ENOENT) then raise (IOError errno)
      else sess_delete inode >> ret by_mh
  | LookupOk path =>
      match fopenat E Stage2 inode path with
      | Some errno => raise (IOError errno)
      | None => ret (dd_append (mini_hash_from_file E inode) inode by_mh)
      end
  end.

(** Stage 3, one inode: lines 395-404. *)
Definition stage3_step (fies : gset Z) (inode : Inode) : M (gset Z) :=
  match lookup_ino_path_one E Stage3 inode with
  | LookupErr errno =>
      if bool_decide (errno ≠ ENOENT) then raise (IOError errno)
      else sess_delete inode >> ret fies
  | LookupOk path =>
      match fopenat E Stage3 inode path with
      | Some errno => raise (IOError errno)
      | None => ret ({[fiemap_hash_from_file E inode]} ∪ fies)
      end
  end.

(** The open-files budget: lines 417-431.  The result tells whether the
    group goes on ([false] is the [continue] of line 431). *)
Definition ofile_budget (size : Z) (inode_count : nat)
    (ofile_reserved ofile_hard : Z) (inodes : list Inode) : M bool :=
  let ofile_req := 2 * Z.of_nat inode_count + ofile_reserved in
  let! s := get in
  if bool_decide (ofile_req > ofile_soft s) then
    if bool_decide (ofile_req ≤ ofile_hard) then
      tell_ (Setrlimit ofile_req ofile_hard) >>
      modify (set_ofile_soft ofile_req) >>
      ret true
    else
      notify (Too_many_duplicates inode_count size (ofile_soft s) ofile_hard) >>
      for_ inodes (λ inode, if has_updates inode then skip inode else ret tt) >>
      ret false
  else ret true.

(** Stage 4, one inode: lines 433-472. *)
Definition stage4_step (o : opened) (inode : Inode) : M opened :=
  match lookup_ino_path_one E Stage4 inode with
  | LookupErr errno =>
      if bool_decide (errno = ENOENT) then sess_delete inode >> ret o
      else raise (IOError errno)
  | LookupOk path =>
      tell_ (OpenRW inode) >>
      match fopenat_rw E inode path with
      | OpenErr errno =>
          if bool_decide (errno = ETXTBSY) then
            notify (File_is_busy path) >> skip inode >> ret o
          else if bool_decide (errno = EACCES) then
            notify (Access_denied path) >> skip inode >> ret o
          else if bool_decide (errno = ENOENT) then
            notify (File_may_have_moved path) >> skip inode >> ret o
          else raise (IOError errno)
      | Opened fd =>
          ret (mkOpened (files o ++ [mkFile fd inode]) (fds o ++ [fd])
                 (<[fd := path]> (fd_names o))
                 (<[fd := inode]> (fd_inodes o)))
      end
  end.

(** Stage 5, one file: lines 480-510. *)
Definition stage5_step (size : Z) (o : opened) (in_write_use : list Z)
    (by_hash : list (Z * list file)) (afile : file)
    : M (list (Z * list file)) :=
  let fd := fileno afile in
  let! inode := subscript (fd_inodes o) fd in
  if bool_decide (fd ∈ in_write_use) then
    let! name := subscript (fd_names o) fd in
    notify (File_is_in_use name) >> skip inode >> ret by_hash
  else
    let digest := sha1_digest E afile in
    let st := fstat E afile in
    if bool_decide (st_ino st ≠ ino inode) then
      skip inode >> ret by_hash
    else if bool_decide (stat_st_dev st ≠ st_dev (volume E (i_vol inode))) then
      skip inode >> ret by_hash
    else
      let size1 := tell E afile in
      if bool_decide (size1 ≠ size) then
        if bool_decide (size1 < size_cutoff (volume E (i_vol inode))) then
          sess_delete inode >> ret by_hash
        else skip inode >> ret by_hash
      else ret (dd_append digest afile by_hash).

(** Stage 6, one destination: lines 523-538. *)
Definition stage6_step (o : opened) (sfile : file)
    (dfiles_successful : list file) (dfile : file) : M (list file) :=
  let sfd := fileno sfile in
  let dfd := fileno dfile in
  let! sname := subscript (fd_names o) sfd in
  let! dname := subscript (fd_names o) dfd in
  if negb (cmp_files E sfile dfile) then
    notify (Files_differ sname dname) >>
    raise (AssertionError (Some (sname, dname)))
  else if clone_data E dfile sfile then
    tell_ (CloneData dfd sfd true) >>
    notify (Deduplicated sname dname) >>
    ret (dfiles_successful ++ [dfile])
  else
    tell_ (CloneData dfd sfd false) >>
    notify (Did_not_deduplicate sname dname) >>
    ret dfiles_successful.

Definition event_inode (o : opened) (afile : file) : M (Z * Z) :=
  let! inode := subscript (fd_inodes o) (fileno afile) in
  ret (ino inode, i_vol inode).

Fixpoint mapM {A B} (f : A → M B) (l : list A) : M (list B) :=
  match l with
  | [] => ret []
  | x :: l' => let! y := f x in let! ys := mapM f l' in ret (y :: ys)
  end.

(** Stage 6, one digest partition: lines 512-548. *)
Definition stage6_fileset (fs size : Z) (o : opened) (fileset : list file)
    : M unit :=
  match fileset with
  | sfile :: ((_ :: _) as dfiles) =>
      let! dfiles_successful := foldM (stage6_step o sfile) [] dfiles in
      match dfiles_successful with
      | [] => ret tt
      | _ :: _ =>
          let! evtis := mapM (event_inode o) (sfile :: dfiles_successful) in
          modify (set_events (λ l, l ++ [mkDedupEvent fs size evtis])) >>
          commit
      end
  | _ => ret tt                       (* len(fileset) < 2 *)
  end.

(** Stages 4 to 6 for a group that passed the budget: lines 433-548.
    Closing the files when the block is left is not traced. *)
Definition hash_and_share (fs size : Z) (o : opened) : M unit :=
  let in_write_use := fds_in_write_use E (files o) in
  let! by_hash := foldM (stage5_step size o in_write_use) [] (files o) in
  for_ (snd <$> by_hash) (stage6_fileset fs size o).

Definition open_and_share (fs size : Z) (inodes : list Inode) : M unit :=
  let! o := foldM stage4_step (mkOpened [] [] ∅ ∅) inodes in
  hash_and_share fs size o.

(** One partition by cheap fingerprint: lines 389-548. *)
Definition dedup_partition (fs size ofile_reserved ofile_hard : Z)
    (inodes : list Inode) : M unit :=
  let inode_count := length inodes in
  if bool_decide (inode_count < 2)%nat then ret tt
  else
    add_gain2 (size * (Z.of_nat inode_count - 1)) >>
    let! fies := foldM stage3_step ∅ inodes in
    if bool_decide (base.size fies < 2)%nat then ret tt
    else
      add_gain3 (size * (Z.of_nat inode_count - 1)) >>
      let! go := ofile_budget size inode_count ofile_reserved ofile_hard
                   inodes in
      if go then open_and_share fs size inodes else ret tt.

(** The body of the loop over the query: lines 353-548.  The flush of
    line 354 has no effect at the level of tables. *)
Definition dedup_group (fs ofile_reserved ofile_hard : Z)
    (comm1 : Commonality1) : M unit :=
  let size := comm_size comm1 in
  add_gain1 (size * (Z.of_nat (comm_inode_count comm1) - 1)) >>
  let! by_mh := foldM stage2_step [] (comm_inodes comm1) in
  for_ (snd <$> by_mh) (dedup_partition fs size ofile_reserved ofile_hard).

Definition dedup_tracked1 (fuel : nat) (ofile_reserved : Z)
    (query : WindowedQuery) (fs : Z) : G unit :=
  λ s,
  let '(soft, ofile_hard) := getrlimit_OFILE E in
  let s := set_gains 0 0 0 (set_ofile_soft soft s) in
  match WindowedQuery_iter E query fuel
          (dedup_group fs ofile_reserved ofile_hard) s with
  | (ys, (Ok _, s')) =>
      (ys, notify (Potential_space_gain (space_gain1 s') (space_gain2 s')
                     (space_gain3 s')) s')
  | (ys, (Raise e, s')) => (ys, (Raise e, s'))
  end.

(** dedup_tracked from line 329 on, once the assertion has passed. *)
Definition dedup_tracked_checked (fuel : nat) (fs : Z)
    (volset : list Volume) : G unit :=
  λ s,
  let vol_ids := vol_id <$> volset in
  let ofile_reserved := 7 + Z.of_nat (length volset) in
  let query := mkWindowedQuery (vol_id_in vol_ids) WINDOW_SIZE in
  (* WindowedQuery.__init__: self.skipped = [] *)
  let s := set_skipped (λ _, []) s in
  match WindowedQuery_len query s with
  | (Ok O, s) => ([], commit s)
  | (Ok (S _), s) =>
      match dedup_tracked1 fuel ofile_reserved query fs s with
      | (ys, (Ok _, s')) => (ys, commit s')
      | (ys, (Raise e, s')) => (ys, (Raise e, s'))
      end
  | (Raise e, s) => ([], (Raise e, s))
  end.

Definition dedup_tracked (fuel : nat) (volset : list Volume) : G unit :=
  λ s,
  match volset with
  | [] => ([], (Raise IndexError, s))              (* volset[0] *)
  | vol0 :: _ =>
      let fs := vol_fs vol0 in
      if forallb (λ vol, bool_decide (vol_fs vol = fs)) volset
      then dedup_tracked_checked fuel fs volset s
      else ([], (Raise (AssertionError None), s))
  end.
End Pipeline.

(** ** track_updated_files: the scanner *)

(** [inode.size = size; inode.has_updates = flag] *)
Definition assign (inode : Inode) (size : Z) (flag : bool) : Inode :=
  mkInode (i_vol inode) (ino inode) size flag.

Module Scanner.

Record btrfs_inode_item := mkItem {
  generation : Z;
  size : Z;
  mode : Z;
}.

(** A search header together with the payload that follows it; the
    payload is only read when the type is BTRFS_INODE_ITEM_KEY. *)
Record btrfs_ioctl_search_header := mkHeader {
  transid : Z;
  objectid : Z;
  offset : Z;
  type : Z;
  item : btrfs_inode_item;
}.

Record btrfs_ioctl_search_key := mkKey {
  tree_id : Z;
  min_objectid : Z;
  max_objectid : Z;
  min_offset : Z;
  max_offset : Z;
  min_transid : Z;
  max_transid : Z;
  min_type : Z;
  max_type : Z;
  nr_items : Z;
}.

Definition u64_max : Z := 2 ^ 64 - 1.
Definition BTRFS_INODE_ITEM_KEY : Z := 1.

(** stat.S_ISREG *)
Definition S_ISREG (mode : Z) : bool :=
  bool_decide (Z.land mode 61440 = 32768).

Inductive ioctl_result :=
| SearchErr (errno : Z)
| SearchOk (items : list btrfs_ioctl_search_header).

Record ScanEnv := mkScanEnv {
  get_root_generation : Z;
  BTRFS_IOC_TREE_SEARCH : btrfs_ioctl_search_key → ioctl_result;
  lookup_ino_path_one : Z → lookup_result;
  (* path.decode(FS_ENCODING): None is the ValueError *)
  decode : path → option string;
}.

(** Modelled from the spec: get_or_create of bedup/model.py, which is not
    under src/.  The spec's scanner upserts (vol, ino) into the Catalog;
    the caller expunges the row it got when [inode_created] is set, so
    a created row is already part of the session when it is returned. *)
Definition get_or_create (vol : Volume) (ino : Z) : M (Inode * bool) :=
  let! s := get in
  match List.find (λ r, bool_decide (ikey r = (vol_id vol, ino))) (inodes s) with
  | Some r => ret (r, false)
  | None =>
      let r := mkInode (vol_id vol) ino 0 false in
      modify (set_inodes (λ l, l ++ [r])) >> ret (r, true)
  end.

(** Assignments to the attributes of an ORM object: the row with its key
    is rewritten. *)
Definition write_row (r : Inode) : M unit :=
  modify (set_inodes (map (λ r', if same_row r' r then r else r'))).

Definition min_generation (vol : Volume) : Z :=
  match last_tracked_size_cutoff vol with
  | Some c =>
      if bool_decide (c ≤ size_cutoff vol)
      then last_tracked_generation vol + 1 else 0
  | None => 0
  end.

(** The generation test of lines 149-155; [true] is [continue].  The
    prior cutoff is tested for truth, so None and 0 both take the else
    branch. *)
Definition already_tracked (vol : Volume) (min_generation inode_gen size : Z)
    : bool :=
  match last_tracked_size_cutoff vol with
  | Some c =>
      if bool_decide (c ≠ 0) && bool_decide (c ≤ size)
      then bool_decide (inode_gen ≤ last_tracked_generation vol)
      else bool_decide (inode_gen < min_generation)
  | None => bool_decide (inode_gen < min_generation)
  end.

Section Scan.
Context (SE : ScanEnv).

(** The body of the loop over the items of a batch: lines 133-182. *)
Definition scan_item (vol : Volume) (min_generation : Z)
    (sh : btrfs_ioctl_search_header) : M unit :=
  if bool_decide (type sh = BTRFS_INODE_ITEM_KEY) then
    let inode_gen := generation (item sh) in
    let size := size (item sh) in
    let mode := mode (item sh) in
    if bool_decide (size < size_cutoff vol) then ret tt
    else if already_tracked vol min_generation inode_gen size then ret tt
    else if negb (S_ISREG mode) then ret tt
    else
      let ino := objectid sh in
      let! (inode, inode_created) := get_or_create vol ino in
      write_row (assign inode size true) >>
      match lookup_ino_path_one SE ino with
      | LookupErr e =>
          notify (Error_at_path_lookup ino e) >>
          sess_delete inode
      | LookupOk path =>
          match decode SE path with
          | None => ret tt
          | Some path =>
              tell_ (TtUpdatePath path) >>
              tell_ (TtUpdateDesc ino (transid sh) inode_gen size)
          end
      end
  else ret tt.

(** The [while True] loop: lines 119-187. *)
Fixpoint search_loop (fuel : nat) (vol : Volume) (min_generation : Z)
    (sk : btrfs_ioctl_search_key) : M unit :=
  match fuel with
  | O => raise FuelExhausted
  | S fuel' =>
      match BTRFS_IOC_TREE_SEARCH SE sk with
      | SearchErr e => raise (IOError e)
      | SearchOk items =>
          match last items with
          | None => ret tt                       (* nr_items == 0 *)
          | Some sh =>
              for_ items (scan_item vol min_generation) >>
              search_loop fuel' vol min_generation
                (mkKey (tree_id sk) (objectid sh) (max_objectid sk)
                   (offset sh + 1) (max_offset sk)
                   (min_transid sk) (max_transid sk)
                   (type sh) (max_type sk) 4096)
          end
      end
  end.

Definition track_updated_files (fuel : nat) (vol : Volume) : M Volume :=
  let top_generation := get_root_generation SE in
  let min_generation := min_generation vol in
  if bool_decide (min_generation > top_generation) then
    notify (Skipping_scan top_generation) >>
    commit >>
    ret vol
  else
    notify (Scanning_volume min_generation top_generation
              (size_cutoff vol)) >>
    search_loop fuel vol min_generation
      (mkKey 0 0 u64_max 0 u64_max min_generation u64_max
         0 BTRFS_INODE_ITEM_KEY 4096) >>
    commit >>
    ret (mkVolume (vol_id vol) (vol_fs vol) (st_dev vol) (size_cutoff vol)
           top_generation (Some (size_cutoff vol))).
End Scan.

End Scanner.

(** ** Auxiliary definitions used by the statements *)

(** What __iter__ does before the loop: lines 263-270. *)
Definition iter_prologue (s : state) : state :=
  set_cp false false
    (emit (Execute wal_autocheckpoint_0)
       (emit (Execute synchronous_NORMAL) (set_synchronous NORMAL s))).

(** The objects of the skip list whose assignment is written. *)
Definition unsaved (s : state) : list Inode :=
  filter (λ i, assignment_writes (trace s) i = true) (skipped s).

(** The Inode table after clear_updates ran with where-clause [c], [sk]
    being the objects whose assignment is written. *)
Definition cleared_table (c : clause) (sk tbl : list Inode) : list Inode :=
  map (λ r, if bool_decide (ikey r ∈ ikey <$> sk) then set_flag r else r)
    (map (λ i, if holds c i then clear_flag i else i) tbl).

(** The state after please_checkpoint. *)
Definition checkpoint_requested (s : state) : state :=
  if cp_alive s then emit PleaseCheckpoint s
  else emit CheckpointerStart
         (set_cp true (cp_done s) (emit PleaseCheckpoint s)).

(** Several actions traced in a row. *)
Definition emits (l : list action) (s : state) : state :=
  mkState (inodes s) (events s) (synchronous s) (skipped s) (cp_alive s)
    (cp_done s) (ofile_soft s) (space_gain1 s) (space_gain2 s)
    (space_gain3 s) (trace s ++ l).

(** The dicts of stage 4 know the files of [fl]. *)
Definition names_known (o : opened) (fl : list file) : Prop :=
  ∀ f, f ∈ fl → is_Some (fd_names o !! fileno f).
Definition inodes_known (o : opened) (fl : list file) : Prop :=
  ∀ f, f ∈ fl → fd_inodes o !! fileno f = Some (f_row f).

Definition known (o : opened) (f : file) : Prop :=
  fd_inodes o !! fileno f = Some (f_row f) ∧ is_Some (fd_names o !! fileno f).

Definition name_of (o : opened) (f : file) : path :=
  default "" (fd_names o !! fileno f).

(** What stage 6 traces for a destination that compared equal. *)
Definition clone_actions (E : Env) (o : opened) (sfile d : file)
    : list action :=
  if clone_data E d sfile then
    [CloneData (fileno d) (fileno sfile) true;
     Notify (Deduplicated (name_of o sfile) (name_of o d))]
  else
    [CloneData (fileno d) (fileno sfile) false;
     Notify (Did_not_deduplicate (name_of o sfile) (name_of o d))].

(** The destinations whose clone_data call returned success. *)
Definition cloned (E : Env) (sfile : file) (dfiles : list file) : list file :=
  filter (λ d, clone_data E d sfile = true) dfiles.

(** The DedupEventInode pair of a file. *)
Definition participant (f : file) : Z * Z := (ino (f_row f), i_vol (f_row f)).

(** All the values of a defaultdict(list). *)
Definition members {V} (d : list (Z * list V)) : list V := concat (snd <$> d).

(** The rechecks of stage 5 that follow the hashing of a file. *)
Definition identity_ok (E : Env) (f : file) : Prop :=
  st_ino (fstat E f) = ino (f_row f)
  ∧ stat_st_dev (fstat E f) = st_dev (volume E (i_vol (f_row f))).

Definition passes_recheck (E : Env) (size : Z) (in_write_use : list Z)
    (f : file) : Prop :=
  (fileno f ∉ in_write_use) ∧ identity_ok E f ∧ tell E f = size.

(** The state moved by stage 6 alone: the skip list and the Inode table
    are as before, and the events that were added only name inodes
    satisfying [P]. *)
Definition added_events (P : Z * Z → Prop) : relation state :=
  λ s s',
    skipped s' = skipped s ∧ inodes s' = inodes s
    ∧ ∃ new, events s' = events s ++ new
             ∧ ∀ ev k, ev ∈ new → k ∈ ev_inodes ev → P k.

(** [k] is at most the bound [ub]; nothing is below the bound None. *)
Definition below (ub : option Z) (k : Z) : Prop :=
  match ub with
  | Some w => k ≤ w
  | None => False
  end.

(** The descriptor stage 4 gets for a row, when the path is found and the
    file opens. *)
Definition opens_as (E : Env) (i : Inode) : option Z :=
  match lookup_ino_path_one E Stage4 i with
  | LookupOk p =>
      match fopenat_rw E i p with
      | Opened fd => Some fd
      | OpenErr _ => None
      end
  | LookupErr _ => None
  end.

(** Files of one group are open together, so their descriptors differ. *)
Definition distinct_fds (E : Env) (group : list Inode) : Prop :=
  ∀ i j fd, i ∈ group → j ∈ group →
            opens_as E i = Some fd → opens_as E j = Some fd → i = j.

(** The invariant of the loop of stage 4, [done] being the inodes it has
    gone through. *)
Definition stage4_inv (E : Env) (done : list Inode) (o : opened) : Prop :=
  (∀ f, f ∈ files o →
        known o f ∧ f_row f ∈ done ∧ opens_as E (f_row f) = Some (fileno f))
  ∧ f_row <$> files o `sublist_of` done.

(** No event is added or removed. *)
Definition keeps_events : relation state :=
  λ s s', events s' = events s.

(** ** Concrete inputs *)

Definition state0 (tbl : list Inode) : state :=
  mkState tbl [] FULL [] false false 0 0 0 0 [].

Definition volA : Volume := mkVolume 1 1 5 10 0 None.
Definition volB : Volume := mkVolume 2 2 6 10 0 None.
Definition volC : Volume := mkVolume 3 1 7 10 0 None.

Definition path_of (i : Inode) : path :=
  if bool_decide (ino i = 1) then "a"
  else if bool_decide (ino i = 2) then "b"
  else if bool_decide (ino i = 3) then "c" else "d".

(** An environment in which every path lookup and every open succeeds,
    all files have the same fingerprints and digest, no two files share
    extents yet, and descriptor [100 + ino] is handed out for inode [ino];
    the byte comparison and the clone are left open. *)
Definition env_with (truth : option bool) (cmp clone : file → file → bool)
    : Env :=
  mkEnv (λ _, truth)
    (λ v, if bool_decide (v = 1) then volA
          else if bool_decide (v = 2) then volB else volC)
    (1024, 4096)
    (λ _ i, LookupOk (path_of i)) (λ _ _ _, None) (λ _, 0) (λ i, ino i)
    (λ i _, Opened (ino i + 100)) (λ _, []) (λ _, 7)
    (λ f, mkStat (ino (f_row f)) (st_dev volA))
    (λ f, size (f_row f)) cmp clone.

(** Everything succeeds. *)
Definition env0 (truth : option bool) : Env :=
  env_with truth (λ _ _, true) (λ _ _, true).

Definition two_duplicates : list Inode :=
  [mkInode 1 1 50 true; mkInode 1 2 50 true].

(** A volume holding one regular file, inode 257 of 4096 bytes, last
    changed in generation 5, which is also the top generation. *)
Definition scan_env0 (decodes : bool) : Scanner.ScanEnv :=
  Scanner.mkScanEnv 5
    (λ sk, if bool_decide (Scanner.min_objectid sk = 0)
           then Scanner.SearchOk
                  [Scanner.mkHeader 5 257 0 1 (Scanner.mkItem 5 4096 33188)]
           else Scanner.SearchOk [])
    (λ _, LookupOk "f")
    (λ p, if decodes then Some p else None).

(** volA after a scan at generation 5 with cutoff 10. *)
Definition volA_scanned : Volume := mkVolume 1 1 5 10 5 (Some 10).

(** A process whose open-files limits are (soft, hard), about to work on
    the table [tbl]. *)
Definition state_with_soft (soft : Z) (tbl : list Inode) : state :=
  set_ofile_soft soft (state0 tbl).

Definition three_duplicates : list Inode :=
  [mkInode 1 1 50 true; mkInode 1 2 50 true; mkInode 1 3 50 true].

(** The files stage 4 opens for [three_duplicates]. *)
Definition opened3 : opened :=
  match foldM (stage4_step (env0 None)) (mkOpened [] [] ∅ ∅) three_duplicates
          (state0 three_duplicates) with
  | (Ok o, _) => o
  | (Raise _, _) => mkOpened [] [] ∅ ∅
  end.

Definition file1 : file := mkFile 101 (mkInode 1 1 50 true).
Definition file2 : file := mkFile 102 (mkInode 1 2 50 true).
Definition file3 : file := mkFile 103 (mkInode 1 3 50 true).

(** The file of inode 3 has the digest of the others but not their
    bytes. *)
Definition env_differ : Env :=
  env_with (Some true) (λ _ d, bool_decide (ino (f_row d) ≠ 3)) (λ _ _, true).

(** The file of inode 2 already shares its extents with the source. *)
Definition env_shared : Env :=
  env_with (Some true) (λ _ _, true) (λ d _, bool_decide (ino (f_row d) ≠ 2)).

Definition set_fstat (fstat' : file → stat_result) (E : Env) : Env :=
  mkEnv (clause_bool E) (volume E) (getrlimit_OFILE E)
    (lookup_ino_path_one E) (fopenat E) (mini_hash_from_file E)
    (fiemap_hash_from_file E) (fopenat_rw E) (fds_in_write_use E)
    (sha1_digest E) fstat' (tell E) (cmp_files E) (clone_data E).

Definition set_tell (tell' : file → Z) (E : Env) : Env :=
  mkEnv (clause_bool E) (volume E) (getrlimit_OFILE E)
    (lookup_ino_path_one E) (fopenat E) (mini_hash_from_file E)
    (fiemap_hash_from_file E) (fopenat_rw E) (fds_in_write_use E)
    (sha1_digest E) (fstat E) tell' (cmp_files E) (clone_data E).

(** Inode 3 was replaced by another file (inode 99) while it was hashed. *)
Definition env_replaced : Env :=
  set_fstat (λ f, if bool_decide (ino (f_row f) = 3) then mkStat 99 5
                  else mkStat (ino (f_row f)) 5) (env0 (Some true)).

(** The file of inode 3 shrank to 4 bytes, below the cutoff of 10. *)
Definition env_shrunk : Env :=
  set_tell (λ f, if bool_decide (ino (f_row f) = 3) then 4
                 else size (f_row f)) (env0 (Some true)).

(** The file of inode 3 grew to 60 bytes. *)
Definition env_grew : Env :=
  set_tell (λ f, if bool_decide (ino (f_row f) = 3) then 60
                 else size (f_row f)) (env0 (Some true)).

Definition query1 : WindowedQuery := mkWindowedQuery (vol_id_in [1]) WINDOW_SIZE.

Definition sizes_30_45_60 : list Inode :=
  [mkInode 1 1 30 true; mkInode 1 2 45 true; mkInode 1 3 60 true].

(** One file of 100 bytes without a twin, and two files of 50 bytes. *)
Definition tall_and_pair : list Inode :=
  [mkInode 1 1 100 true; mkInode 1 2 50 true; mkInode 1 3 50 true].

(** The arguments of the calls of clear_updates recorded in a trace. *)
Definition clear_updates_calls (tr : list action) : list (option Z * Z) :=
  omap (λ a, match a with
             | ClearUpdates ws we => Some (ws, we)
             | _ => None
             end) tr.

(** ** reset_vol and fake_updates *)

(** reset_vol: lines 53-57.  The volume object is mutated in place; the
    mutated volume is the result. *)
Definition reset_vol (vol : Volume) : M Volume :=
  modify (set_inodes (filter (λ r, i_vol r ≠ vol_id vol))) >>
  commit >>
  ret (mkVolume (vol_id vol) (vol_fs vol) (st_dev vol) (size_cutoff vol)
         0 (last_tracked_size_cutoff vol)).

(** [query.limit(n)] as SQLite runs it: a negative limit is no limit. *)
Definition sql_limit {A} (n : Z) (l : list A) : list A :=
  if bool_decide (n < 0) then l else take (Z.to_nat n) l.

(** [sess.query(Inode).filter_by(ino=.., vol=..).scalar()]; (vol, ino) is
    the key of the table, so at most one row answers. *)
Definition inode_scalar (dei : Z * Z) : M (option Inode) :=
  let! s := get in
  ret (List.find (λ r, bool_decide (ikey r = (dei.2, dei.1))) (inodes s)).

(** The inner loop of fake_updates: lines 63-70. *)
Definition fake_event_step (ino_count : Z) (dei : Z * Z) : M Z :=
  let! inode := inode_scalar dei in
  match inode with
  | None => ret ino_count
  | Some inode => reflag inode >> ret (ino_count + 1)
  end.

(** fake_updates: lines 60-73.  The events come in table order. *)
Definition fake_updates_step (faked : Z) (de : DedupEvent) : M Z :=
  let! ino_count := foldM fake_event_step 0 (ev_inodes de) in
  if bool_decide (ino_count > 1) then ret (faked + 1) else ret faked.

Definition fake_updates (max_events : Z) : M Z :=
  let! s := get in
  foldM fake_updates_step 0 (sql_limit max_events (events s)).

(** The rows an event names. *)
Definition named_by (des : list DedupEvent) (r : Inode) : Prop :=
  (ino r, i_vol r) ∈ concat (ev_inodes <$> des).

(** The DedupEventInode entries of an event whose row is in the table. *)
Definition present (tbl : list Inode) (de : DedupEvent) : list (Z * Z) :=
  filter (λ dei, (dei.2, dei.1) ∈ ikey <$> tbl) (ev_inodes de).

(** has_updates set on the rows named by the entries [deis]. *)
Definition flag_named (deis : list (Z * Z)) (tbl : list Inode) : list Inode :=
  map (λ r, if bool_decide ((ino r, i_vol r) ∈ deis) then set_flag r else r)
    tbl.

(** The trace grows by actions that all satisfy [P]. *)
Definition traces (P : action → Prop) : relation state :=
  λ s s', ∃ l, trace s' = trace s ++ l ∧ Forall P l.

(** A table of three rows without flags and two logged events, the second
    of which names an inode that has no row. *)
Definition state_with_events : state :=
  mkState
    [mkInode 1 1 50 false; mkInode 1 2 50 false; mkInode 1 3 50 false]
    [mkDedupEvent 1 50 [(1, 1); (2, 1)]; mkDedupEvent 1 50 [(9, 1)]]
    FULL [] false false 0 0 0 0 [].

Definition not_commit (a : action) : Prop :=
  match a with
  | Commit _ => False
  | _ => True
  end.

(** Nothing is committed and the synchronous mode stays. *)
Definition quiet : relation state :=
  λ s s', synchronous s' = synchronous s ∧ traces not_commit s s'.

(** The Inode table after the upsert of lines 159-162. *)
Definition upserted (vol : Volume) (ino size : Z) (tbl : list Inode)
    : list Inode :=
  match List.find (λ r, bool_decide (ikey r = (vol_id vol, ino))) tbl with
  | Some r => map (λ r', if same_row r' r then assign r size true else r') tbl
  | None => tbl ++ [mkInode (vol_id vol) ino size true]
  end.

(** What a scan of [vol] may do to the tables: rows of other volumes stay
    as they are, in order; a row that was not there before belongs to
    [vol], is at least as large as the cutoff and has has_updates set; the
    event log stays. *)
Definition scanned (vol : Volume) : relation state :=
  λ s s',
    filter (λ r, i_vol r ≠ vol_id vol) (inodes s')
    = filter (λ r, i_vol r ≠ vol_id vol) (inodes s)
    ∧ (∀ r, r ∈ inodes s' →
            r ∈ inodes s
            ∨ (i_vol r = vol_id vol ∧ size_cutoff vol ≤ size r
               ∧ has_updates r = true))
    ∧ events s' = events s.

(** The volume of [scan_env0], with a path lookup that fails with EIO. *)
Definition scan_env_unreadable : Scanner.ScanEnv :=
  Scanner.mkScanEnv 5
    (λ sk, if bool_decide (Scanner.min_objectid sk = 0)
           then Scanner.SearchOk
                  [Scanner.mkHeader 5 257 0 1 (Scanner.mkItem 5 4096 33188)]
           else Scanner.SearchOk [])
    (λ _, LookupErr 5)
    (λ p, Some p).

(** ** Relations between the state before and after a pass *)

(** Key and size of a row. *)
Definition row_id (r : Inode) : (Z * Z) * Z := (ikey r, size r).

(** The table only loses rows: keys and sizes of the rows that are left
    are as before, in the same order. *)
Definition table_shrinks : relation state :=
  λ s s', row_id <$> inodes s' `sublist_of` row_id <$> inodes s.

(** The event log only grows, by events that satisfy [P]. *)
Definition logs (P : DedupEvent → Prop) : relation state :=
  λ s s', ∃ new, events s' = events s ++ new ∧ Forall P new.

(** What the pipeline logs for a volset of filesystem [fs]. *)
Definition pair_event (fs : Z) (ev : DedupEvent) : Prop :=
  ev_fs ev = fs ∧ (2 ≤ length (ev_inodes ev))%nat.

(** The rows the window query can still see from [window_start] down. *)
Definition rows_below (window_start : option Z) (tbl : list Inode) : nat :=
  length (filter (λ i, holds (size_le window_start) i = true) tbl).

Definition not_fuel (e : exn) : Prop := e ≠ FuelExhausted.

#[global] Instance below_dec ws k : Decision (below ws k).
Proof. destruct ws; cbn; apply _. Defined.

(** What every yielded group is: a size with inodes of that size, in the
    order of their inode numbers; at least two of them are of the selected
    volumes, and one of these at least had has_updates set at the time of
    the query. *)
Definition eligible (q : WindowedQuery) (g : Commonality1) : Prop :=
  comm_inode_count g = length (comm_inodes g)
  ∧ (2 ≤ length (filter (λ i, holds (filt_crit q) i = true)
                  (comm_inodes g)))%nat
  ∧ (∀ i, i ∈ comm_inodes g → size i = comm_size g)
  ∧ (∃ i, i ∈ comm_inodes g ∧ holds (filt_crit q) i = true
          ∧ has_updates i = true)
  ∧ StronglySorted (λ a b, ino a ≤ ino b) (comm_inodes g).


(** The soft limit on open files is only raised, never beyond [hard] when
    it was not beyond it, and each traced call of setrlimit raises it and
    passes [hard] on as the hard limit. *)
Definition limit_raised (hard : Z) : relation state :=
  λ s s', ofile_soft s ≤ ofile_soft s'
          ∧ (ofile_soft s ≤ hard → ofile_soft s' ≤ hard)
          ∧ ∃ l, trace s' = trace s ++ l
                 ∧ Forall (λ a, ∀ req h, a = Setrlimit req h →
                              h = hard
                              ∧ ofile_soft s < req ≤ ofile_soft s'
                              ∧ req ≤ hard) l.

(** Whether the path lookup of a stage finds the inode. *)
Definition found (E : Env) (st : stage) (i : Inode) : bool :=
  match lookup_ino_path_one E st i with
  | LookupOk _ => true
  | LookupErr _ => false
  end.

(** The invariant of the loop of stage 2, [done] being the inodes it has
    gone through: the keys of by_mh are distinct, each found inode has its
    fingerprint among them, each partition is made of the found inodes
    with its fingerprint, in order, and the rows not found are gone. *)
Definition stage2_inv (E : Env) (done : list Inode)
    (by_mh : list (Z * list Inode)) (s : state) : Prop :=
  NoDup by_mh.*1
  ∧ (∀ i, i ∈ done → found E Stage2 i = true →
          mini_hash_from_file E i ∈ by_mh.*1)
  ∧ (∀ h p, (h, p) ∈ by_mh →
            p ≠ []
            ∧ p = filter (λ i, found E Stage2 i = true
                               ∧ mini_hash_from_file E i = h) done)
  ∧ (∀ i, i ∈ done → found E Stage2 i = false → ikey i ∉ ikey <$> inodes s).

(** What a partition [p] of inodes of [size] bytes adds to space_gain2. *)
Definition partition_gain (size : Z) (p : list Inode) : Z :=
  if bool_decide (length p < 2)%nat then 0
  else size * (Z.of_nat (length p) - 1).

Definition total_gain (size : Z) (ps : list (list Inode)) : Z :=
  foldr (λ p acc, partition_gain size p + acc) 0 ps.

(** The three counters of potential space gain are left alone. *)
Definition keeps_gains : relation state :=
  λ s s', space_gain1 s' = space_gain1 s ∧ space_gain2 s' = space_gain2 s
          ∧ space_gain3 s' = space_gain3 s.

(** Each later stage counts at most what the stage before it counted. *)
Definition gains_ordered : relation state :=
  λ s s', 0 ≤ space_gain3 s' - space_gain3 s
          ∧ space_gain3 s' - space_gain3 s ≤ space_gain2 s' - space_gain2 s
          ∧ space_gain2 s' - space_gain2 s ≤ space_gain1 s' - space_gain1 s.

(** File sizes are not negative. *)
Definition sizes_nonneg (s : state) : Prop :=
  ∀ i, i ∈ inodes s → 0 ≤ size i.

(** What holds of every traced call of clone_data: it was made on a
    destination and a source that compared equal byte by byte, after
    their digests were found equal and the same number of bytes was read
    from both. *)
Definition clone_checked (E : Env) (a : action) : Prop :=
  match a with
  | CloneData dfd sfd _ =>
      ∃ sfile dfile,
        fileno sfile = sfd ∧ fileno dfile = dfd
        ∧ cmp_files E sfile dfile = true
        ∧ sha1_digest E sfile = sha1_digest E dfile
        ∧ tell E sfile = tell E dfile
  | _ => True
  end.

(** The files of each digest partition have the partition's digest and
    the size of the group. *)
Definition by_hash_inv (E : Env) (size : Z) (by_hash : list (Z * list file))
    : Prop :=
  ∀ h fl f, (h, fl) ∈ by_hash → f ∈ fl →
            sha1_digest E f = h ∧ tell E f = size.

(** A process whose limits on open files are [(soft, hard)]. *)
Definition set_getrlimit (limits : Z * Z) (E : Env) : Env :=
  mkEnv (clause_bool E) (volume E) limits
    (lookup_ino_path_one E) (fopenat E) (mini_hash_from_file E)
    (fiemap_hash_from_file E) (fopenat_rw E) (fds_in_write_use E)
    (sha1_digest E) (fstat E) (tell E) (cmp_files E) (clone_data E).

Definition env_limits (soft hard : Z) (truth : option bool) : Env :=
  set_getrlimit (soft, hard) (env0 truth).

(** Two flagged files of 50 bytes in volume 1 and a file of the same size
    in volume 2. *)
Definition pair_and_foreigner : list Inode :=
  [mkInode 1 1 50 true; mkInode 1 2 50 true; mkInode 2 7 50 false].
(** * Properties *)

(** ** Which exceptions a computation can raise *)

Definition raises_in {A} (X : exn → Prop) (m : M A) : Prop :=
  ∀ s e s', m s = (Raise e, s') → X e.

Definition yields_raise_in {A} (X : exn → Prop) (g : G A) : Prop :=
  ∀ s ys e s', g s = (ys, (Raise e, s')) → X e.

Lemma raises_ret {A} X (a : A) : raises_in X (ret a).
Proof. intros s e s' H; discriminate. Qed.

Lemma raises_raise {A} (X : exn → Prop) e : X e → raises_in X (@raise A e).
Proof. intros HX s e' s' H; inversion H; subst; done. Qed.

Lemma raises_modify X f : raises_in X (modify f).
Proof. intros s e s' H; discriminate. Qed.

Lemma raises_get X : raises_in X get.
Proof. intros s e s' H; discriminate. Qed.

Lemma raises_bind {A B} X (m : M A) (k : A → M B) :
  raises_in X m → (∀ a, raises_in X (k a)) → raises_in X (bind m k).
Proof.
  intros Hm Hk s e s'. unfold bind.
  destruct (m s) as [[a|e0] s0] eqn:Hms.
  - apply Hk.
  - intros H; inversion H; subst. eapply Hm; eauto.
Qed.

Lemma raises_for {A} X (l : list A) (body : A → M unit) :
  (∀ x, raises_in X (body x)) → raises_in X (for_ l body).
Proof.
  intros Hb. induction l as [|x l IH]; simpl.
  - apply raises_ret.
  - apply raises_bind; auto.
Qed.

Lemma raises_foldM {A B} X (f : B → A → M B) (l : list A) acc :
  (∀ b x, raises_in X (f b x)) → raises_in X (foldM f acc l).
Proof.
  intros Hf. revert acc. induction l as [|x l IH]; intros acc; simpl.
  - apply raises_ret.
  - apply raises_bind; auto.
Qed.

Lemma raises_mapM {A B} X (f : A → M B) (l : list A) :
  (∀ x, raises_in X (f x)) → raises_in X (mapM f l).
Proof.
  intros Hf. induction l as [|x l IH]; simpl.
  - apply raises_ret.
  - apply raises_bind; auto. intros y. apply raises_bind; auto.
    intros ys. apply raises_ret.
Qed.

Lemma raises_subscript {V} (X : exn → Prop) (d : gmap Z V) k :
  X KeyError → raises_in X (subscript d k).
Proof.
  intros HX. unfold subscript. destruct (d !! k).
  - apply raises_ret.
  - by apply raises_raise.
Qed.

(** The exceptions of the pipeline: everything but the bare
    AssertionError of dedup_tracked's own [assert]. *)
Definition not_bare_assertion (e : exn) : Prop := e ≠ AssertionError None.

Ltac raises_step :=
  match goal with
  | |- raises_in _ (ret _) => apply raises_ret
  | |- raises_in _ (raise _) => apply raises_raise; discriminate
  | |- raises_in _ (modify _) => apply raises_modify
  | |- raises_in _ get => apply raises_get
  | |- raises_in _ (bind _ _) => apply raises_bind; [|intros ?]
  | |- raises_in _ (for_ _ _) => apply raises_for; intros ?
  | |- raises_in _ (foldM _ _ _) => apply raises_foldM; intros ? ?
  | |- raises_in _ (mapM _ _) => apply raises_mapM; intros ?
  | |- raises_in _ (subscript _ _) => apply raises_subscript; discriminate
  | |- raises_in _ (match ?x with _ => _ end) => destruct x
  | |- raises_in _ (if ?x then _ else _) => destruct x
  end.

Ltac raises :=
  repeat first
    [ raises_step
    | progress unfold tell_, notify, commit, sess_delete, execute, skip,
        add_gain1, add_gain2, add_gain3, please_checkpoint,
        checkpointer_close, update_clear, reflag
    | match goal with |- raises_in _ (λ s, (Ok _, _)) => (intros ? ? ? ?; discriminate) end ].

Section PipelineRaises.
Context (E : Env).

Lemma clear_updates_raises q ws we :
  raises_in not_bare_assertion (clear_updates E q ws we).
Proof. unfold clear_updates, chained_comparison, py_and. raises. Qed.

Lemma stage6_fileset_raises fs size o fileset :
  raises_in not_bare_assertion (stage6_fileset E fs size o fileset).
Proof. unfold stage6_fileset, stage6_step, event_inode. raises. Qed.

Lemma hash_and_share_raises fs size o :
  raises_in not_bare_assertion (hash_and_share E fs size o).
Proof.
  unfold hash_and_share. apply raises_bind.
  - unfold stage5_step. raises.
  - intros by_hash. apply raises_for. intros fileset.
    apply stage6_fileset_raises.
Qed.

Lemma dedup_partition_raises fs size r h inodes :
  raises_in not_bare_assertion (dedup_partition E fs size r h inodes).
Proof.
  unfold dedup_partition, open_and_share, ofile_budget, stage3_step.
  raises; try apply hash_and_share_raises.
  all: unfold stage4_step; raises.
Qed.

Lemma dedup_group_raises fs r h comm1 :
  raises_in not_bare_assertion (dedup_group E fs r h comm1).
Proof.
  unfold dedup_group, stage2_step. raises.
  apply dedup_partition_raises.
Qed.
End PipelineRaises.

(** ** The generator: exceptions and the way the loop is left *)

Section IterFacts.
Context (E : Env) (q : WindowedQuery) (body : Commonality1 → M unit).

Lemma yield_each_raises X groups :
  (∀ g, raises_in X (body g)) → yields_raise_in X (yield_each body groups).
Proof.
  intros Hb. induction groups as [|g rest IH]; intros s ys e s'; simpl.
  - discriminate.
  - destruct (body g s) as [[[]|e0] s0] eqn:Hg.
    + destruct (yield_each body rest s0) as [ys0 r0] eqn:Hr.
      intros H; inversion H; subst. eapply IH; eauto.
    + intros H; inversion H; subst. eapply Hb; eauto.
Qed.

Lemma iter_windows_raises X fuel ws :
  X FuelExhausted →
  (∀ ws we, raises_in X (clear_updates E q ws we)) →
  (∀ g, raises_in X (body g)) →
  yields_raise_in X (iter_windows E q fuel body ws).
Proof.
  intros HF Hc Hb. revert ws.
  induction fuel as [|fuel IH]; intros ws s ys e s'; simpl.
  - intros H; inversion H; subst; done.
  - destruct (window_select q (inodes s) ws) as [|li0 li] eqn:Hli.
    + destruct (clear_updates E q ws 0 s) as [[[]|e0] s0] eqn:Hcl;
        intros H; inversion H; subst. eapply Hc; eauto.
    + destruct (yield_each body _ s) as [ys0 [[[]|e0] s1]] eqn:Hy.
      * destruct (clear_updates E q _ _ s1) as [[[]|e1] s2] eqn:Hcl.
        -- destruct (iter_windows E q fuel body _ s2) as [ys' r] eqn:Hit.
           intros H; inversion H; subst. eapply IH; eauto.
        -- intros H; inversion H; subst. eapply Hc; eauto.
      * intros H; inversion H; subst.
        eapply yield_each_raises; eauto.
Qed.

(** The [while True] loop has no [break]: it is only ever left by the
    [return] of line 288 or by an exception. *)
Lemma iter_windows_no_break fuel ws s ys s' :
  iter_windows E q fuel body ws s ≠ (ys, (Ok Break, s')).
Proof.
  revert ws s ys. induction fuel as [|fuel IH]; intros ws s ys; simpl.
  - discriminate.
  - destruct (window_select q (inodes s) ws) as [|li0 li].
    + destruct (clear_updates E q ws 0 s) as [[[]|e0] s0]; discriminate.
    + destruct (yield_each body _ s) as [ys0 [[[]|e0] s1]]; [|discriminate].
      destruct (clear_updates E q _ _ s1) as [[[]|e1] s2]; [|discriminate].
      destruct (iter_windows E q fuel body _ s2) as [ys' r] eqn:Hit.
      intros H; inversion H; subst. eapply IH; eauto.
Qed.

Lemma WindowedQuery_iter_unfold fuel s :
  WindowedQuery_iter E q fuel body s =
  let s0 := iter_prologue s in
  match iter_windows E q fuel body (max_size_scalar (inodes s0)) s0 with
  | (ys, (Ok _, s')) => (ys, (Ok tt, s'))
  | (ys, (Raise e, s')) => (ys, (Raise e, s'))
  end.
Proof.
  unfold WindowedQuery_iter. cbn.
  fold (iter_prologue s).
  destruct (iter_windows E q fuel body _ (iter_prologue s))
    as [ys [[[]|e] s']] eqn:Hit; try done.
  exfalso. eapply iter_windows_no_break; eauto.
Qed.

Lemma WindowedQuery_iter_raises X fuel :
  X FuelExhausted →
  (∀ ws we, raises_in X (clear_updates E q ws we)) →
  (∀ g, raises_in X (body g)) →
  yields_raise_in X (WindowedQuery_iter E q fuel body).
Proof.
  intros HF Hc Hb s ys e s'. rewrite WindowedQuery_iter_unfold. cbn zeta.
  destruct (iter_windows E q fuel body _ (iter_prologue s))
    as [ys0 [[x|e0] s0]] eqn:Hit; intros H; inversion H; subst.
  eapply iter_windows_raises; eauto.
Qed.
End IterFacts.

Lemma dedup_tracked_checked_raises E fuel fs volset :
  yields_raise_in not_bare_assertion (dedup_tracked_checked E fuel fs volset).
Proof.
  intros s ys e s'. unfold dedup_tracked_checked, WindowedQuery_len.
  cbn -[selectable WindowedQuery_iter].
  destruct (length _); [discriminate|].
  unfold dedup_tracked1. destruct (getrlimit_OFILE E) as [soft hard].
  destruct (WindowedQuery_iter _ _ _ _ _) as [ys0 [[[]|e0] s0]] eqn:Hit.
  - discriminate.
  - intros H; inversion H; subst.
    eapply WindowedQuery_iter_raises; [| | |exact Hit]; try discriminate.
    + intros; apply clear_updates_raises.
    + intros; apply dedup_group_raises.
Qed.

(** ** dedup_tracked *)

(** C10: dedup_tracked asserts that every volume of the volset is of the
    filesystem of the first one.  With a volume of another filesystem in a
    non-empty volset the assertion fails at once: nothing was yielded and
    the state is untouched (no query, no share work).  When all volumes
    are of one filesystem the assertion passes, execution goes on with
    line 329, and the bare AssertionError is never the outcome. *)
Theorem dedup_tracked_one_filesystem E fuel vol0 rest s :
  ((∃ vol, vol ∈ vol0 :: rest ∧ vol_fs vol ≠ vol_fs vol0) →
     dedup_tracked E fuel (vol0 :: rest) s
     = ([], (Raise (AssertionError None), s)))
  ∧ ((∀ vol, vol ∈ vol0 :: rest → vol_fs vol = vol_fs vol0) →
     dedup_tracked E fuel (vol0 :: rest) s
     = dedup_tracked_checked E fuel (vol_fs vol0) (vol0 :: rest) s
     ∧ ∀ ys s', dedup_tracked E fuel (vol0 :: rest) s
                ≠ (ys, (Raise (AssertionError None), s'))).
Proof.
  unfold dedup_tracked.
  destruct (forallb _ (vol0 :: rest)) eqn:Hall.
  - rewrite forallb_forall in Hall. split.
    + intros (vol & Hin & Hne). exfalso. apply Hne.
      apply list_elem_of_In in Hin. apply Hall in Hin.
      by apply bool_decide_eq_true in Hin.
    + intros _. split; [done|]. intros ys s' Hr.
      by apply dedup_tracked_checked_raises in Hr.
  - split; [done|]. intros Hsame. exfalso.
    apply not_true_iff_false in Hall. apply Hall.
    apply forallb_forall. intros vol Hin.
    apply bool_decide_eq_true. apply Hsame. by apply list_elem_of_In.
Qed.

Lemma dedup_tracked_one_filesystem_witness :
  dedup_tracked (env0 (Some true)) 3 [volA; volB] (state0 two_duplicates)
  = ([], (Raise (AssertionError None), state0 two_duplicates))
  ∧ dedup_tracked (env0 (Some true)) 3 [volA; volC] (state0 two_duplicates)
    = dedup_tracked_checked (env0 (Some true)) 3 1 [volA; volC]
        (state0 two_duplicates).
Proof.
  split.
  - apply (proj1 (dedup_tracked_one_filesystem (env0 (Some true)) 3 volA
                    [volB] (state0 two_duplicates))).
    exists volB. split; [|vm_compute; discriminate].
    apply list_elem_of_In. simpl. auto.
  - apply (proj2 (dedup_tracked_one_filesystem (env0 (Some true)) 3 volA
                    [volC] (state0 two_duplicates))).
    intros vol Hin. apply list_elem_of_In in Hin. simpl in Hin.
    destruct Hin as [<-|[<-|[]]]; reflexivity.
Defined.

(** C8 (the code does not do this): the loop of __iter__ is only left by
    the [return] of line 288, so the statements after it, which close the
    checkpointer and restore synchronous=FULL, never run.  Whatever the
    query and the consumer, __iter__ is its prologue followed by the loop
    alone; and on a Catalog with one group of two inodes the pass ends
    with the checkpointer still alive and the terminal commit of
    dedup_tracked made under synchronous=NORMAL. *)
Theorem iter_never_restores_full_sync :
  (∀ E q fuel body s,
     WindowedQuery_iter E q fuel body s =
     let s0 := iter_prologue s in
     match iter_windows E q fuel body (max_size_scalar (inodes s0)) s0 with
     | (ys, (Ok _, s')) => (ys, (Ok tt, s'))
     | (ys, (Raise e, s')) => (ys, (Raise e, s'))
     end)
  ∧ (let '(_, (r, s')) :=
       dedup_tracked (env0 (Some true)) 3 [volA] (state0 two_duplicates) in
     r = Ok tt ∧ synchronous s' = NORMAL ∧ cp_alive s' = true
     ∧ cp_done s' = false
     ∧ trace s' =
       [Execute synchronous_NORMAL; Execute wal_autocheckpoint_0;
        OpenRW (mkInode 1 1 50 true); OpenRW (mkInode 1 2 50 true);
        CloneData 102 101 true; Notify (Deduplicated "a" "b");
        Commit NORMAL;
        ClearUpdates (Some 50) 50;
        Commit NORMAL; PleaseCheckpoint; CheckpointerStart;
        ClearUpdates (Some 49) 0;
        Commit NORMAL; PleaseCheckpoint;
        Notify (Potential_space_gain 50 50 50);
        Commit NORMAL]).
Proof.
  split.
  - intros. apply WindowedQuery_iter_unfold.
  - vm_compute. repeat split.
Qed.

(** ** The scanner *)

Module ScannerFacts.
Import Scanner.

Lemma track_updated_files_ok SE fuel vol s vol' s' :
  min_generation vol ≤ get_root_generation SE →
  track_updated_files SE fuel vol s = (Ok vol', s') →
  vol' = mkVolume (vol_id vol) (vol_fs vol) (st_dev vol) (size_cutoff vol)
           (get_root_generation SE) (Some (size_cutoff vol)).
Proof.
  intros Hle. unfold track_updated_files.
  rewrite bool_decide_false; [|lia]. unfold bind at 1 2. cbn.
  destruct (search_loop _ _ _ _ _ _) as [[[]|e] s1]; cbn; intros Heq;
    inversion Heq; subst; done.
Qed.

(** C6: the lower generation bound is last_tracked_generation + 1 when
    last_tracked_size_cutoff is set and at most the current size_cutoff,
    and 0 otherwise.  When the bound exceeds the top generation the scan
    only notifies and commits: the volume is returned as it was and no
    table is touched.  Otherwise a scan that returns has set
    last_tracked_generation to the top generation read at entry and
    last_tracked_size_cutoff to the current cutoff. *)
Theorem track_updated_files_watermarks SE fuel vol s :
  let top_generation := get_root_generation SE in
  (∀ c, last_tracked_size_cutoff vol = Some c → c ≤ size_cutoff vol →
        min_generation vol = last_tracked_generation vol + 1)
  ∧ ((last_tracked_size_cutoff vol = None
      ∨ ∃ c, last_tracked_size_cutoff vol = Some c ∧ size_cutoff vol < c) →
     min_generation vol = 0)
  ∧ (top_generation < min_generation vol →
     track_updated_files SE fuel vol s =
     (Ok vol, emit (Commit (synchronous s))
                (emit (Notify (Skipping_scan top_generation)) s)))
  ∧ (min_generation vol ≤ top_generation →
     ∀ vol' s', track_updated_files SE fuel vol s = (Ok vol', s') →
       last_tracked_generation vol' = top_generation
       ∧ last_tracked_size_cutoff vol' = Some (size_cutoff vol)
       ∧ size_cutoff vol' = size_cutoff vol
       ∧ vol_id vol' = vol_id vol).
Proof.
  cbn zeta. split; [|split; [|split]].
  - intros c Hc Hle. unfold min_generation. rewrite Hc.
    by rewrite bool_decide_true.
  - intros [Hn|(c & Hc & Hlt)]; unfold min_generation.
    + by rewrite Hn.
    + rewrite Hc. rewrite bool_decide_false; [done|lia].
  - intros Hlt. unfold track_updated_files.
    rewrite bool_decide_true; [done|lia].
  - intros Hle vol' s' Hrun.
    apply track_updated_files_ok in Hrun; [|done]. by subst vol'.
Qed.

Lemma track_updated_files_watermarks_witness :
  min_generation volA_scanned = 6
  ∧ min_generation volA = 0
  ∧ track_updated_files (scan_env0 true) 3 volA_scanned (state0 [])
    = (Ok volA_scanned,
       emit (Commit FULL) (emit (Notify (Skipping_scan 5)) (state0 [])))
  ∧ ∃ vol' s',
      track_updated_files (scan_env0 true) 3 volA (state0 []) = (Ok vol', s')
      ∧ last_tracked_generation vol' = 5
      ∧ last_tracked_size_cutoff vol' = Some 10
      ∧ size_cutoff vol' = 10
      ∧ vol_id vol' = 1.
Proof.
  destruct (track_updated_files_watermarks (scan_env0 true) 3 volA_scanned
              (state0 [])) as (H1 & _ & H3 & _).
  destruct (track_updated_files_watermarks (scan_env0 true) 3 volA
              (state0 [])) as (_ & H2 & _ & H4).
  split; [|split; [|split]].
  - apply (H1 10); [reflexivity | vm_compute; discriminate].
  - apply H2. left. reflexivity.
  - apply H3. vm_compute. reflexivity.
  - exists (mkVolume 1 1 5 10 5 (Some 10)).
    exists (snd (track_updated_files (scan_env0 true) 3 volA (state0 []))).
    split; [vm_compute; reflexivity|].
    apply (H4 ltac:(vm_compute; discriminate) _
             (snd (track_updated_files (scan_env0 true) 3 volA (state0 [])))).
    vm_compute. reflexivity.
Defined.

(** ** A path that does not decode *)

Lemma find_key_some (tbl : list Inode) k r :
  List.find (λ r, bool_decide (ikey r = k)) tbl = Some r →
  r ∈ tbl ∧ ikey r = k.
Proof.
  intros H. apply find_some in H as [Hin Hk].
  split; [by apply list_elem_of_In | by apply bool_decide_eq_true in Hk].
Qed.

Lemma assign_key_eq r k sz :
  ikey r = k → assign r sz true = mkInode k.1 k.2 sz true.
Proof. intros <-. reflexivity. Qed.

Lemma write_row_elem (tbl : list Inode) r r' :
  r ∈ tbl → ikey r = ikey r' →
  r' ∈ map (λ x, if same_row x r' then r' else x) tbl.
Proof.
  intros Hin Hk. apply list_elem_of_In, in_map_iff. exists r. split.
  - unfold same_row. by rewrite bool_decide_true.
  - by apply list_elem_of_In.
Qed.

(** The upsert of lines 159-162 leaves the row, with the new size and
    has_updates set, in the table. *)
Lemma upsert_row vol i sz s :
  ∃ inode created s1,
    get_or_create vol i s = (Ok (inode, created), s1)
    ∧ ikey inode = (vol_id vol, i)
    ∧ trace s1 = trace s
    ∧ mkInode (vol_id vol) i sz true
       ∈ inodes (snd (write_row (assign inode sz true) s1)).
Proof.
  unfold get_or_create, bind, get.
  destruct (List.find _ (inodes s)) as [r|] eqn:Hf.
  - apply find_key_some in Hf as [Hin Hk].
    exists r, false, s. repeat split; try done.
    rewrite (assign_key_eq r _ sz Hk). cbn.
    apply (write_row_elem _ r); [done|]. by rewrite Hk.
  - eexists _, true, _. cbn. repeat split.
    apply (write_row_elem _ (mkInode (vol_id vol) i 0 false)); [|done].
    apply list_elem_of_In, in_or_app. right. by left.
Qed.

(** C7, as the code has it: an item that passes the filters is upserted
    before its path is looked up, and a path that does not decode only
    skips the update of the progress display.  The row of that (vol, ino),
    with the item's size and has_updates set, is in the table afterwards,
    and nothing was traced. *)
Theorem scan_item_decode_error_keeps_row SE vol min_generation sh s p :
  type sh = BTRFS_INODE_ITEM_KEY →
  size_cutoff vol ≤ size (item sh) →
  already_tracked vol min_generation (generation (item sh)) (size (item sh))
    = false →
  S_ISREG (mode (item sh)) = true →
  lookup_ino_path_one SE (objectid sh) = LookupOk p →
  decode SE p = None →
  ∃ s', scan_item SE vol min_generation sh s = (Ok tt, s')
        ∧ mkInode (vol_id vol) (objectid sh) (size (item sh)) true ∈ inodes s'
        ∧ trace s' = trace s.
Proof.
  intros Hty Hsz Hgen Hreg Hlk Hdec. unfold scan_item.
  rewrite bool_decide_true by done.
  rewrite bool_decide_false by lia.
  rewrite Hgen, Hreg. cbn [negb].
  destruct (upsert_row vol (objectid sh) (size (item sh)) s)
    as (inode & created & s1 & Hgc & Hk & Htr & Hin).
  unfold bind at 1. rewrite Hgc. unfold bind at 1.
  rewrite Hlk, Hdec. cbn in *. eexists; repeat split; done.
Qed.

Lemma scan_item_decode_error_keeps_row_witness :
  ∃ s', scan_item (scan_env0 false) volA 0
          (mkHeader 5 257 0 1 (mkItem 5 4096 33188)) (state0 []) = (Ok tt, s')
        ∧ mkInode 1 257 4096 true ∈ inodes s'
        ∧ trace s' = [].
Proof.
  apply (scan_item_decode_error_keeps_row (scan_env0 false) volA 0
           (mkHeader 5 257 0 1 (mkItem 5 4096 33188)) (state0 []) "f");
    try reflexivity.
  vm_compute. discriminate.
Defined.

(** C7 as stated fails: the only item of the volume has a path that does
    not decode, and the scan inserts its row all the same. *)
Lemma scan_decode_error_inserts_row :
  decode (scan_env0 false) "f" = None
  ∧ inodes (state0 []) = []
  ∧ inodes (snd (track_updated_files (scan_env0 false) 3 volA (state0 [])))
    = [mkInode 1 257 4096 true].
Proof. vm_compute. repeat split. Qed.
End ScannerFacts.

(** ** Reasoning about computations *)

(** [hoare P m Q J]: from a state in [P], [m] ends in [Q] when it returns
    and in [J] when it raises. *)
Definition hoare {A} (P : state → Prop) (m : M A)
    (Q : A → state → Prop) (J : exn → state → Prop) : Prop :=
  ∀ s, P s →
    match m s with
    | (Ok a, s') => Q a s'
    | (Raise e, s') => J e s'
    end.

Lemma hoare_ret {A} (a : A) (Q : A → state → Prop) J :
  hoare (Q a) (ret a) Q J.
Proof. intros s H; exact H. Qed.

Lemma hoare_bind {A B} P (m : M A) (k : A → M B) R Q J :
  hoare P m R J → (∀ a, hoare (R a) (k a) Q J) → hoare P (bind m k) Q J.
Proof.
  intros Hm Hk s HP. unfold bind. specialize (Hm s HP).
  destruct (m s) as [[a|e] s1]; [|done]. by apply Hk.
Qed.

Lemma hoare_conseq {A} (P P' : state → Prop) (m : M A)
    (Q Q' : A → state → Prop) (J J' : exn → state → Prop) :
  hoare P' m Q' J' → (∀ s, P s → P' s) → (∀ a s, Q' a s → Q a s) →
  (∀ e s, J' e s → J e s) → hoare P m Q J.
Proof.
  intros Hm HP HQ HJ s Hs. specialize (Hm s (HP s Hs)).
  destruct (m s) as [[a|e] s1]; auto.
Qed.

Lemma hoare_foldM {A B} (I : B → state → Prop) J (f : B → A → M B) l acc :
  (∀ b x, x ∈ l → hoare (I b) (f b x) I J) →
  hoare (I acc) (foldM f acc l) I J.
Proof.
  revert acc. induction l as [|x l IH]; intros acc Hf; simpl.
  - apply hoare_ret.
  - eapply hoare_bind.
    + apply Hf. by left.
    + intros b. apply IH. intros b' y Hy. apply Hf. by right.
Qed.

Lemma hoare_for {A} (I : state → Prop) J (body : A → M unit) l :
  (∀ x, x ∈ l → hoare I (body x) (λ _, I) J) →
  hoare I (for_ l body) (λ _, I) J.
Proof.
  induction l as [|x l IH]; intros Hb; simpl.
  - intros s H; exact H.
  - eapply hoare_bind.
    + apply Hb. by left.
    + intros u. apply IH. intros y Hy. apply Hb. by right.
Qed.

(** [steps R m]: whatever the outcome, the state moves along [R]. *)
Definition steps {A} (R : relation state) (m : M A) : Prop :=
  ∀ s, R s (m s).2.

Lemma steps_ret {A} R `{!Reflexive R} (a : A) : steps R (ret a).
Proof. intros s; cbn; reflexivity. Qed.

Lemma steps_raise {A} R `{!Reflexive R} e : steps R (@raise A e).
Proof. intros s; cbn; reflexivity. Qed.

Lemma steps_get R `{!Reflexive R} : steps R get.
Proof. intros s; cbn; reflexivity. Qed.

Lemma steps_bind {A B} R `{!Transitive R} (m : M A) (k : A → M B) :
  steps R m → (∀ a, steps R (k a)) → steps R (bind m k).
Proof.
  intros Hm Hk s. unfold bind. specialize (Hm s).
  destruct (m s) as [[a|e] s1]; cbn in *; [|done].
  etrans; [exact Hm|apply Hk].
Qed.

Lemma steps_for {A} R `{!PreOrder R} (l : list A) (body : A → M unit) :
  (∀ x, steps R (body x)) → steps R (for_ l body).
Proof.
  intros Hb. induction l as [|x l IH]; simpl.
  - apply steps_ret; apply _.
  - apply steps_bind; [apply _|apply Hb|done].
Qed.

Lemma steps_foldM {A B} R `{!PreOrder R} (f : B → A → M B) l acc :
  (∀ b x, steps R (f b x)) → steps R (foldM f acc l).
Proof.
  intros Hf. revert acc. induction l as [|x l IH]; intros acc; simpl.
  - apply steps_ret; apply _.
  - apply steps_bind; [apply _|apply Hf|done].
Qed.

Lemma steps_mapM {A B} R `{!PreOrder R} (f : A → M B) l :
  (∀ x, steps R (f x)) → steps R (mapM f l).
Proof.
  intros Hf. induction l as [|x l IH]; simpl.
  - apply steps_ret; apply _.
  - apply steps_bind; [apply _|apply Hf|]. intros y.
    apply steps_bind; [apply _|done|]. intros ys. apply steps_ret; apply _.
Qed.

Lemma steps_subscript {V} R `{!Reflexive R} (d : gmap Z V) k :
  steps R (subscript d k).
Proof.
  unfold subscript. destruct (d !! k); [by apply steps_ret|by apply steps_raise].
Qed.

Lemma steps_modify R (f : state → state) :
  (∀ s, R s (f s)) → steps R (modify f).
Proof. intros H s; cbn; apply H. Qed.

Ltac steps_step :=
  match goal with
  | |- steps _ (ret _) => apply steps_ret; apply _
  | |- steps _ (raise _) => apply steps_raise; apply _
  | |- steps _ get => apply steps_get; apply _
  | |- steps _ (bind _ _) => apply steps_bind; [apply _| |intros ?]
  | |- steps _ (for_ _ _) => apply steps_for; [apply _|intros ?]
  | |- steps _ (foldM _ _ _) => apply steps_foldM; [apply _|intros ? ?]
  | |- steps _ (mapM _ _) => apply steps_mapM; [apply _|intros ?]
  | |- steps _ (subscript _ _) => apply steps_subscript; apply _
  | |- steps _ (match ?x with _ => _ end) => destruct x
  | |- steps _ (if ?x then _ else _) => destruct x
  end.

(** Only the Inode table differs. *)
Definition only_inodes : relation state :=
  λ s s', s' = set_inodes (λ _, inodes s') s.

#[global] Instance only_inodes_preorder : PreOrder only_inodes.
Proof.
  split.
  - intros [ ]; reflexivity.
  - intros [ ] [ ] [ ]; unfold only_inodes, set_inodes; cbn.
    intros H1 H2; inversion H1; inversion H2; subst; reflexivity.
Qed.

Lemma sess_delete_only_inodes i : steps only_inodes (sess_delete i).
Proof. apply steps_modify. intros [ ]; reflexivity. Qed.

Lemma stage3_only_inodes E fies inodes :
  steps only_inodes (foldM (stage3_step E) fies inodes).
Proof.
  apply steps_foldM; [apply _|]. intros b x. unfold stage3_step.
  repeat first [apply sess_delete_only_inodes | steps_step].
Qed.

Lemma stage2_only_inodes E by_mh inodes :
  steps only_inodes (foldM (stage2_step E) by_mh inodes).
Proof.
  apply steps_foldM; [apply _|]. intros b x. unfold stage2_step.
  repeat first [apply sess_delete_only_inodes | steps_step].
Qed.

(** ** The open-files budget *)

Lemma skip_run i s :
  skip i s = (Ok tt, emit (SkipAppend i) (set_skipped (λ l, l ++ [i]) s)).
Proof. reflexivity. Qed.

Lemma skip_flagged (l : list Inode) s :
  for_ l (λ inode, if has_updates inode then skip inode else ret tt) s
  = (Ok tt,
     emits (SkipAppend <$> filter (λ i, has_updates i = true) l)
       (set_skipped (λ sk, sk ++ filter (λ i, has_updates i = true) l) s)).
Proof.
  revert s. induction l as [|x l IH]; intros s; cbn [for_].
  - destruct s; unfold ret, emits, set_skipped; cbn. by rewrite !app_nil_r.
  - unfold bind at 1. rewrite filter_cons.
    destruct (decide (has_updates x = true)) as [Hx|Hx].
    + rewrite Hx, skip_run, IH. destruct s; unfold emits, emit, set_skipped; cbn.
      by rewrite <- !app_assoc.
    + apply not_true_is_false in Hx. rewrite Hx. cbn [ret]. apply IH.
Qed.

(** Only the assignments that are written count. *)
Lemma reflag_written (w : Inode → bool) (sk : list Inode) s :
  for_ sk (λ inode, if w inode then reflag inode else ret tt) s
  = for_ (filter (λ i, w i = true) sk) reflag s.
Proof.
  revert s. induction sk as [|i sk IH]; intros s; [done|].
  cbn [for_]. rewrite filter_cons.
  destruct (decide (w i = true)) as [Hw|Hw].
  - rewrite Hw. cbn [for_]. unfold bind. destruct (reflag i s) as [[[]|e] s1];
      [apply IH|done].
  - apply not_true_is_false in Hw. rewrite Hw. unfold bind, ret. apply IH.
Qed.

(** What the written assignments leave in the table. *)
Lemma reflag_all (sk : list Inode) s :
  for_ sk reflag s
  = (Ok tt,
     set_inodes
       (map (λ r, if bool_decide (ikey r ∈ ikey <$> sk) then set_flag r else r))
       s).
Proof.
  revert s. induction sk as [|i sk IH]; intros s; cbn [for_].
  - destruct s; unfold ret, set_inodes; cbn [inodes]. do 2 f_equal.
    rewrite <- (map_id inodes0) at 1. apply map_ext. intros r.
    rewrite bool_decide_false; [done|]. rewrite fmap_nil. apply not_elem_of_nil.
  - unfold bind, reflag at 1, modify. rewrite IH.
    destruct s; unfold set_inodes; cbn [inodes]. do 2 f_equal.
    rewrite map_map. apply map_ext. intros r. unfold same_row.
    rewrite fmap_cons.
    destruct (bool_decide (ikey r = ikey i)) eqn:Hri.
    + apply bool_decide_eq_true in Hri.
      rewrite (bool_decide_true (ikey r ∈ _ :: _)) by (rewrite Hri; by left).
      destruct (bool_decide (ikey (set_flag r) ∈ _)); done.
    + apply bool_decide_eq_false in Hri.
      destruct (bool_decide (ikey r ∈ ikey <$> sk)) eqn:Hsk.
      * apply bool_decide_eq_true in Hsk.
        rewrite bool_decide_true; [done|by right].
      * apply bool_decide_eq_false in Hsk.
        rewrite bool_decide_false; [done|].
        intros Hin. apply elem_of_cons in Hin as [?|?]; done.
Qed.

Lemma please_checkpoint_run s :
  please_checkpoint s = (Ok tt, checkpoint_requested s).
Proof.
  unfold please_checkpoint, checkpoint_requested, bind, tell_, modify, get.
  cbn. by destruct (cp_alive s).
Qed.

(** The call of clear_updates is itself neither a commit nor an append. *)
Lemma assignment_writes_call tr ws we i :
  assignment_writes (tr ++ [ClearUpdates ws we]) i = assignment_writes tr i.
Proof.
  unfold assignment_writes, expired. by rewrite reverse_snoc.
Qed.

(** clear_updates in closed form. *)
Lemma clear_updates_run E q ws we s :
  clear_updates E q ws we s =
  let s0 := emit (ClearUpdates ws we) s in
  match clause_bool E (size_le ws) with
  | None => (Raise TypeError, s0)
  | Some b =>
      let range := if b then size_ge we else size_le ws in
      let s1 := set_inodes
                  (cleared_table (and_ (filt_crit q) range) (unsaved s)) s0 in
      (Ok tt,
       set_skipped (λ _, [])
         (checkpoint_requested (emit (Commit (synchronous s)) s1)))
  end.
Proof.
  unfold clear_updates, chained_comparison, py_and.
  unfold bind at 1, tell_ at 1, modify at 1. cbn zeta.
  destruct (clause_bool E _) as [[|]|]; [| |done].
  all: unfold bind at 1; cbn [ret].
  all: unfold bind at 1, update_clear at 1, modify at 1.
  all: unfold bind at 1, bind at 1, get at 1; cbn [skipped trace set_inodes emit].
  all: rewrite reflag_written, reflag_all.
  all: unfold bind at 1, commit at 1.
  all: unfold bind at 1; rewrite please_checkpoint_run.
  all: unfold modify, unsaved, cleared_table.
  all: erewrite (list_filter_iff _ (λ i, assignment_writes (trace s) i = true))
         by (intros i; by rewrite assignment_writes_call).
  all: destruct s; reflexivity.
Qed.

(** C2 (the code does not do this).  A partition of n inodes that reaches
    the budget check (at least two inodes, at least two extent-map
    fingerprints) needs ofile_req = 2*n + ofile_reserved descriptors, and
    dedup_tracked passes 7 + number_of_volumes for ofile_reserved.  When
    the soft limit suffices the partition goes on to stage 4; when
    ofile_req is above the soft limit and within the hard limit the soft
    limit is raised to ofile_req first; when it is above both, the
    partition ends there: the candidates with has_updates set are appended
    to the skip list and nothing else is done but the notification (no
    file is opened read-write, no event is added).  But the candidates do
    not remain flagged.  With limits (5, 10) and two flagged files of 50
    bytes in one volume, the pass abandons the group, and clear_updates
    then clears both rows with the UPDATE that goes around the session,
    while its assignments of has_updates on the two skipped objects are
    not written, the objects having been loaded with has_updates set and
    no commit having expired them: the pass ends with both rows
    unflagged, whichever comparison of the range reached the UPDATE. *)
Theorem ofile_budget_abandons_without_reflagging :
  (∀ E fs size ofile_reserved ofile_hard (group : list Inode) s fies s1,
     let n := length group in
     let ofile_req := 2 * Z.of_nat n + ofile_reserved in
     let d := size * (Z.of_nat n - 1) in
     let flagged := filter (λ i, has_updates i = true) group in
     (2 ≤ n)%nat →
     foldM (stage3_step E) ∅ group (gain2 d s) = (Ok fies, s1) →
     (2 ≤ base.size fies)%nat →
     (ofile_req ≤ ofile_soft s →
        dedup_partition E fs size ofile_reserved ofile_hard group s
        = open_and_share E fs size group (gain3 d s1))
     ∧ (ofile_soft s < ofile_req ≤ ofile_hard →
        dedup_partition E fs size ofile_reserved ofile_hard group s
        = open_and_share E fs size group
            (set_ofile_soft ofile_req
               (emit (Setrlimit ofile_req ofile_hard) (gain3 d s1))))
     ∧ (ofile_soft s < ofile_req → ofile_hard < ofile_req →
        dedup_partition E fs size ofile_reserved ofile_hard group s
        = (Ok tt,
           emits (Notify (Too_many_duplicates n size (ofile_soft s) ofile_hard)
                  :: (SkipAppend <$> flagged))
             (set_skipped (λ sk, sk ++ flagged) (gain3 d s1)))))
  ∧ dedup_tracked (env_limits 10 4096 (Some true)) 3 [volA]
      (state0 two_duplicates)
    = ([mkCommonality1 50 2 two_duplicates],
       (Ok tt,
        mkState [mkInode 1 1 50 false; mkInode 1 2 50 false]
          [mkDedupEvent 1 50 [(1, 1); (2, 1)]] NORMAL []
          true false (2 * 2 + (7 + 1)) 50 50 50
          [Execute synchronous_NORMAL; Execute wal_autocheckpoint_0;
           Setrlimit 12 4096;
           OpenRW (mkInode 1 1 50 true); OpenRW (mkInode 1 2 50 true);
           CloneData 102 101 true; Notify (Deduplicated "a" "b");
           Commit NORMAL;
           ClearUpdates (Some 50) 50; Commit NORMAL;
           PleaseCheckpoint; CheckpointerStart;
           ClearUpdates (Some 49) 0; Commit NORMAL; PleaseCheckpoint;
           Notify (Potential_space_gain 50 50 50); Commit NORMAL]))
  ∧ (∀ b,
       dedup_tracked (env_limits 5 10 (Some b)) 3 [volA]
         (state0 two_duplicates)
       = ([mkCommonality1 50 2 two_duplicates],
          (Ok tt,
           mkState [mkInode 1 1 50 false; mkInode 1 2 50 false] [] NORMAL []
             true false 5 50 50 50
             [Execute synchronous_NORMAL; Execute wal_autocheckpoint_0;
              Notify (Too_many_duplicates 2 50 5 10);
              SkipAppend (mkInode 1 1 50 true);
              SkipAppend (mkInode 1 2 50 true);
              ClearUpdates (Some 50) 50; Commit NORMAL;
              PleaseCheckpoint; CheckpointerStart;
              ClearUpdates (Some 49) 0; Commit NORMAL; PleaseCheckpoint;
              Notify (Potential_space_gain 50 50 50); Commit NORMAL]))).
Proof.
  split; [|split].
  - intros E fs size ofile_reserved ofile_hard group s fies s1 n ofile_req d
      flagged Hn Hst3 Hfies.
    pose proof (stage3_only_inodes E ∅ group (gain2 d s)) as Hfr.
    rewrite Hst3 in Hfr. cbn in Hfr. unfold only_inodes in Hfr.
    assert (Hso : ofile_soft s1 = ofile_soft s)
      by (rewrite Hfr; by destruct s).
    assert (Hgo :
      dedup_partition E fs size ofile_reserved ofile_hard group s
      = (let! go := ofile_budget size n ofile_reserved ofile_hard group in
         if go then open_and_share E fs size group else ret tt) (gain3 d s1)).
    { unfold dedup_partition. fold n.
      rewrite bool_decide_false by lia.
      unfold bind at 1, add_gain2 at 1, modify at 1. fold d.
      unfold bind at 1. rewrite Hst3.
      rewrite bool_decide_false by lia.
      unfold bind at 1, add_gain3 at 1, modify at 1. reflexivity. }
    assert (Hsoft : ofile_soft (gain3 d s1) = ofile_soft s)
      by (rewrite <- Hso; by destruct s1).
    split; [|split].
    + intros Hle. rewrite Hgo.
      unfold bind at 1, ofile_budget. unfold bind at 1, get at 1.
      fold ofile_req. rewrite Hsoft.
      rewrite bool_decide_false by lia. reflexivity.
    + intros [Hlo Hhi]. rewrite Hgo.
      unfold bind at 1, ofile_budget. unfold bind at 1, get at 1.
      fold ofile_req. rewrite Hsoft.
      rewrite !bool_decide_true by lia. reflexivity.
    + intros Hlo Hhi. rewrite Hgo.
      unfold bind at 1, ofile_budget. unfold bind at 1, get at 1.
      fold ofile_req. rewrite Hsoft.
      rewrite bool_decide_true by lia.
      rewrite bool_decide_false by lia.
      unfold bind at 1, notify at 1, tell_ at 1, modify at 1.
      unfold bind at 1. rewrite skip_flagged. cbn [ret]. f_equal.
      fold flagged. destruct s1; unfold emits, emit, set_skipped; cbn.
      by rewrite <- app_assoc.
  - vm_compute. reflexivity.
  - intros [|]; vm_compute; reflexivity.
Qed.

(** ** Stage 6: byte comparison and share *)

Lemma emits_nil s : emits [] s = s.
Proof. destruct s; unfold emits; cbn. by rewrite app_nil_r. Qed.

Lemma emits_app l1 l2 s : emits l2 (emits l1 s) = emits (l1 ++ l2) s.
Proof. destruct s; unfold emits; cbn. by rewrite app_assoc. Qed.

Lemma emit_emits a s : emit a s = emits [a] s.
Proof. reflexivity. Qed.

Lemma subscript_name o f s :
  is_Some (fd_names o !! fileno f) →
  subscript (fd_names o) (fileno f) s = (Ok (name_of o f), s).
Proof. intros [p Hp]. unfold subscript, name_of. rewrite Hp. reflexivity. Qed.

Section Stage6.
Context (E : Env) (o : opened) (sfile : file).
Hypothesis sname_known : is_Some (fd_names o !! fileno sfile).

(** One destination, in closed form. *)
Lemma stage6_step_run acc d s :
  is_Some (fd_names o !! fileno d) →
  stage6_step E o sfile acc d s =
  if cmp_files E sfile d then
    (Ok (acc ++ cloned E sfile [d]), emits (clone_actions E o sfile d) s)
  else
    (Raise (AssertionError (Some (name_of o sfile, name_of o d))),
     emits [Notify (Files_differ (name_of o sfile) (name_of o d))] s).
Proof.
  intros Hd. unfold stage6_step.
  unfold bind at 1. rewrite subscript_name by done.
  unfold bind at 1. rewrite subscript_name by done.
  destruct (cmp_files E sfile d); cbn [negb]; [|reflexivity].
  unfold cloned, clone_actions. cbn [filter list_filter].
  destruct (clone_data E d sfile) eqn:Hc.
  - rewrite decide_True by done.
    unfold bind, tell_, notify, tell_, modify, ret. cbn.
    by rewrite !emit_emits, emits_app.
  - rewrite decide_False by done.
    unfold bind, tell_, notify, tell_, modify, ret. cbn.
    by rewrite !emit_emits, emits_app, app_nil_r.
Qed.

(** The loop over the destinations when every comparison succeeds. *)
Lemma stage6_loop_equal dfiles acc s :
  names_known o dfiles →
  Forall (λ d, cmp_files E sfile d = true) dfiles →
  foldM (stage6_step E o sfile) acc dfiles s =
  (Ok (acc ++ cloned E sfile dfiles),
   emits (flat_map (clone_actions E o sfile) dfiles) s).
Proof.
  revert acc s. induction dfiles as [|d dfiles IH]; intros acc s Hn Hall.
  - cbn. by rewrite app_nil_r, emits_nil.
  - inversion Hall; subst. cbn [foldM]. unfold bind.
    rewrite stage6_step_run by (apply Hn; by left).
    rewrite H1. rewrite IH; [|intros f Hf; apply Hn; by right|done].
    rewrite emits_app. cbn [flat_map].
    unfold cloned. rewrite <- app_assoc. do 2 f_equal.
    cbn [filter list_filter]. by destruct (decide _).
Qed.

(** The loop over the destinations up to the first one that differs. *)
Lemma stage6_loop_differ pre d post acc s :
  names_known o (pre ++ d :: post) →
  Forall (λ d, cmp_files E sfile d = true) pre →
  cmp_files E sfile d = false →
  foldM (stage6_step E o sfile) acc (pre ++ d :: post) s =
  (Raise (AssertionError (Some (name_of o sfile, name_of o d))),
   emits (flat_map (clone_actions E o sfile) pre
          ++ [Notify (Files_differ (name_of o sfile) (name_of o d))]) s).
Proof.
  revert acc s. induction pre as [|x pre IH]; intros acc s Hn Hall Hd.
  - cbn [app foldM flat_map]. unfold bind.
    rewrite stage6_step_run by (apply Hn; by left). by rewrite Hd.
  - inversion Hall; subst. cbn [app foldM flat_map]. unfold bind.
    rewrite stage6_step_run by (apply Hn; by left).
    rewrite H1. rewrite IH; [|intros f Hf; apply Hn; by right|done|done].
    by rewrite emits_app, app_assoc.
Qed.
End Stage6.

Lemma for_raise {A} (body : A → M unit) before x after s0 s e s' :
  for_ before body s0 = (Ok tt, s) →
  body x s = (Raise e, s') →
  for_ (before ++ x :: after) body s0 = (Raise e, s').
Proof.
  revert s0. induction before as [|y before IH]; intros s0; cbn [app for_].
  - intros H; inversion H; subst. intros Hx. unfold bind. by rewrite Hx.
  - unfold bind. destruct (body y s0) as [[[]|e0] s1]; [|discriminate].
    apply IH.
Qed.

Lemma mapM_event_inode o fl s :
  inodes_known o fl →
  mapM (event_inode o) fl s = (Ok (participant <$> fl), s).
Proof.
  induction fl as [|f fl IH]; intros Hk; cbn [mapM fmap list_fmap].
  - reflexivity.
  - unfold bind at 1. unfold event_inode at 1, bind at 1, subscript.
    rewrite (Hk f) by (by left). cbn [ret].
    unfold bind at 1. rewrite IH; [reflexivity|].
    intros g Hg. apply Hk. by right.
Qed.

(** The first element of a list on which a decidable property fails. *)
Lemma first_failure {A} (P : A → Prop) `{!∀ x, Decision (P x)} (l : list A) :
  ¬ Forall P l →
  ∃ pre d post, l = pre ++ d :: post ∧ Forall P pre ∧ ¬ P d.
Proof.
  induction l as [|x l IH]; intros Hn.
  - destruct Hn. constructor.
  - destruct (decide (P x)) as [Hx|Hx].
    + destruct IH as (pre & d & post & -> & Hpre & Hd).
      { intros Hl. apply Hn. by constructor. }
      exists (x :: pre), d, post. repeat split; [by constructor|done].
    + exists [], x, l. repeat split; [constructor|done].
Qed.

Section Fileset.
Context (E : Env) (fs size : Z) (o : opened) (sfile : file).

(** A digest partition whose comparisons all succeed. *)
Lemma stage6_fileset_equal dfiles s :
  dfiles ≠ [] →
  names_known o (sfile :: dfiles) →
  inodes_known o (sfile :: dfiles) →
  Forall (λ d, cmp_files E sfile d = true) dfiles →
  stage6_fileset E fs size o (sfile :: dfiles) s =
  let s1 := emits (flat_map (clone_actions E o sfile) dfiles) s in
  match cloned E sfile dfiles with
  | [] => (Ok tt, s1)
  | succ =>
      (Ok tt,
       emit (Commit (synchronous s))
         (set_events
            (λ l, l ++ [mkDedupEvent fs size (participant <$> sfile :: succ)])
            s1))
  end.
Proof.
  intros Hne Hn Hi Hall. destruct dfiles as [|d0 dfiles]; [done|].
  unfold stage6_fileset. unfold bind at 1.
  rewrite stage6_loop_equal; [|apply Hn; by left
                              |intros f Hf; apply Hn; by right|done].
  cbn [app]. cbn zeta.
  destruct (cloned E sfile (d0 :: dfiles)) as [|c succ] eqn:Hc; [done|].
  unfold bind at 1. rewrite mapM_event_inode.
  - unfold bind, modify, commit. by destruct s.
  - intros f Hf. apply Hi. apply elem_of_cons in Hf as [->|Hf]; [by left|].
    right. rewrite <- Hc in Hf. unfold cloned in Hf.
    by apply list_elem_of_filter in Hf as [_ Hf].
Qed.

(** A digest partition in which a comparison fails. *)
Lemma stage6_fileset_differ pre d post s :
  names_known o (sfile :: pre ++ d :: post) →
  Forall (λ x, cmp_files E sfile x = true) pre →
  cmp_files E sfile d = false →
  stage6_fileset E fs size o (sfile :: pre ++ d :: post) s =
  (Raise (AssertionError (Some (name_of o sfile, name_of o d))),
   emits (flat_map (clone_actions E o sfile) pre
          ++ [Notify (Files_differ (name_of o sfile) (name_of o d))]) s).
Proof.
  intros Hn Hall Hd. unfold stage6_fileset.
  destruct (pre ++ d :: post) as [|d0 dfiles] eqn:Hl.
  { by destruct pre. }
  rewrite <- Hl. unfold bind at 1.
  rewrite stage6_loop_differ; [done|apply Hn; by left| |done|done].
  intros f Hf. apply Hn. right. by rewrite <- Hl.
Qed.
End Fileset.

(** C3: when the byte comparison of the source with a destination fails,
    the digest partition ends there with the assertion error of line 530.
    The last thing traced is the report 'Files differ'; before it stand
    only the clones of the destinations that came earlier.  Nothing is
    cloned for this destination or for those after it, no event is added,
    and the loop over the digest partitions stops with the same error, so
    the partitions after this one are not processed either. *)
Theorem byte_mismatch_is_fatal E fs size o sfile pre d post s :
  names_known o (sfile :: pre ++ d :: post) →
  Forall (λ x, cmp_files E sfile x = true) pre →
  cmp_files E sfile d = false →
  let report := Notify (Files_differ (name_of o sfile) (name_of o d)) in
  let e := AssertionError (Some (name_of o sfile, name_of o d)) in
  let s' := emits (flat_map (clone_actions E o sfile) pre ++ [report]) s in
  stage6_fileset E fs size o (sfile :: pre ++ d :: post) s = (Raise e, s')
  ∧ events s' = events s
  ∧ inodes s' = inodes s
  ∧ ∀ before after s0,
      for_ before (stage6_fileset E fs size o) s0 = (Ok tt, s) →
      for_ (before ++ (sfile :: pre ++ d :: post) :: after)
        (stage6_fileset E fs size o) s0 = (Raise e, s').
Proof.
  intros Hn Hall Hd report e s'.
  assert (Hrun : stage6_fileset E fs size o (sfile :: pre ++ d :: post) s
                 = (Raise e, s')) by (by apply stage6_fileset_differ).
  split; [done|]. split; [by destruct s|]. split; [by destruct s|].
  intros before after s0 Hb. by eapply for_raise.
Qed.

Lemma opened3_known :
  names_known opened3 [file1; file2; file3]
  ∧ inodes_known opened3 [file1; file2; file3].
Proof.
  split; intros f Hf; apply list_elem_of_In in Hf; simpl in Hf;
    destruct Hf as [<-|[<-|[<-|[]]]]; vm_compute; eauto.
Defined.

Lemma byte_mismatch_is_fatal_witness :
  stage6_fileset env_differ 1 50 opened3 [file1; file2; file3]
    (state0 three_duplicates)
  = (Raise (AssertionError (Some ("a", "c"))),
     emits [CloneData 102 101 true; Notify (Deduplicated "a" "b");
            Notify (Files_differ "a" "c")] (state0 three_duplicates)).
Proof.
  apply (byte_mismatch_is_fatal env_differ 1 50 opened3 file1 [file2] file3 []
           (state0 three_duplicates)).
  - apply opened3_known.
  - repeat constructor.
  - reflexivity.
Defined.

(** ** DedupEvents *)

Lemma cloned_nonempty E sfile dfiles :
  cloned E sfile dfiles ≠ []
  ↔ Exists (λ d, clone_data E d sfile = true) dfiles.
Proof.
  unfold cloned. rewrite Exists_exists. split.
  - intros Hne. destruct (filter _ dfiles) as [|c l] eqn:Hf; [done|].
    assert (Hc : c ∈ filter (λ d, clone_data E d sfile = true) dfiles)
      by (rewrite Hf; by left).
    apply list_elem_of_filter in Hc as [Hc Hin]. eauto.
  - intros (d & Hin & Hd) Hnil.
    assert (Hc : d ∈ filter (λ d, clone_data E d sfile = true) dfiles)
      by (by apply list_elem_of_filter).
    rewrite Hnil in Hc. by apply not_elem_of_nil in Hc.
Qed.

Lemma app_singleton_neq {A} (l : list A) x : l ++ [x] ≠ l.
Proof.
  intros H. apply (f_equal length) in H. rewrite length_app in H.
  cbn in H. lia.
Qed.

(** C4, as the code has it: for a digest partition of a source and at
    least one destination, an event is appended exactly when every byte
    comparison of the partition succeeded and at least one clone_data
    call returned success.  The event is then committed, and its inodes
    are the source followed by the destinations whose clone succeeded, in
    order; a destination whose extents were already shared is not among
    them.  In every other case the DedupEvent table is left as it was. *)
Theorem dedup_event_iff E fs size o sfile dfiles s r s' :
  dfiles ≠ [] →
  names_known o (sfile :: dfiles) →
  inodes_known o (sfile :: dfiles) →
  stage6_fileset E fs size o (sfile :: dfiles) s = (r, s') →
  let all_equal := Forall (λ d, cmp_files E sfile d = true) dfiles in
  let some_cloned := Exists (λ d, clone_data E d sfile = true) dfiles in
  ((∃ ev, events s' = events s ++ [ev]) ↔ all_equal ∧ some_cloned)
  ∧ (all_equal ∧ some_cloned →
       r = Ok tt
       ∧ events s' = events s ++
           [mkDedupEvent fs size
              (participant <$> sfile :: cloned E sfile dfiles)]
       ∧ last (trace s') = Some (Commit (synchronous s))
       ∧ ∀ d, d ∈ dfiles → clone_data E d sfile = false →
              d ∉ cloned E sfile dfiles)
  ∧ (¬ (all_equal ∧ some_cloned) → events s' = events s).
Proof.
  intros Hne Hn Hi Hrun all_equal some_cloned.
  destruct (decide all_equal) as [Hall|Hnall].
  - rewrite stage6_fileset_equal in Hrun by done. cbn zeta in Hrun.
    destruct (cloned E sfile dfiles) as [|c succ] eqn:Hc.
    + injection Hrun as <- <-.
      assert (Hno : ¬ some_cloned).
      { intros Hs. apply cloned_nonempty in Hs. by rewrite Hc in Hs. }
      cbn [events emit set_events emits]. split; [|split].
      * split; [|tauto]. intros [ev Hev']. symmetry in Hev'.
        by apply app_singleton_neq in Hev'.
      * tauto.
      * done.
    + injection Hrun as <- <-.
      assert (Hyes : some_cloned).
      { apply cloned_nonempty. by rewrite Hc. }
      cbn [events emit set_events emits]. split; [|split].
      * split; eauto.
      * intros _. repeat split.
        -- destruct s; cbn. by rewrite last_snoc.
        -- intros d Hd Hcl Hin. rewrite <- Hc in Hin. unfold cloned in Hin.
           apply list_elem_of_filter in Hin as [Hin _]. congruence.
      * tauto.
  - destruct (first_failure _ dfiles Hnall) as (pre & d & post & -> & Hpre & Hd).
    apply not_true_is_false in Hd.
    rewrite stage6_fileset_differ in Hrun by done.
    injection Hrun as <- <-.
    cbn [events emit set_events emits]. split; [|split].
    + split; [|tauto]. intros [ev Hev']. symmetry in Hev'.
      by apply app_singleton_neq in Hev'.
    + tauto.
    + done.
Qed.

Lemma dedup_event_iff_witness :
  events (stage6_fileset env_shared 1 50 opened3 [file1; file2; file3]
            (state0 three_duplicates)).2
  = [mkDedupEvent 1 50 [(1, 1); (3, 1)]].
Proof.
  refine (proj1 (proj2 ((proj1 (proj2
    (dedup_event_iff env_shared 1 50 opened3 file1 [file2; file3]
       (state0 three_duplicates) _ _ _ _ _ eq_refl))) _))).
  - discriminate.
  - apply opened3_known.
  - apply opened3_known.
  - split; [repeat constructor|]. apply Exists_cons_tl, Exists_cons_hd.
    reflexivity.
Defined.

(** C4 as stated fails: the clone of the first destination succeeds, the
    byte comparison of the second one fails, and the pass ends with the
    assertion error without any DedupEvent. *)
Lemma clone_succeeded_without_event :
  clone_data env_differ file2 file1 = true
  ∧ let '(_, (r, s')) :=
      dedup_tracked env_differ 3 [volA] (state0 three_duplicates) in
    r = Raise (AssertionError (Some ("a", "c")))
    ∧ CloneData 102 101 true ∈ trace s'
    ∧ events s' = [].
Proof.
  split; [reflexivity|]. vm_compute. repeat split.
  apply list_elem_of_In. simpl. tauto.
Qed.

(** ** Stage 5: digest and identity recheck *)

Lemma members_dd_append {V} k (v : V) d x :
  x ∈ members (dd_append k v d) ↔ x = v ∨ x ∈ members d.
Proof.
  unfold members. induction d as [|[k' vs] d IH]; cbn [dd_append].
  - cbn [fmap list_fmap concat snd]. rewrite elem_of_app.
    rewrite list_elem_of_singleton. tauto.
  - destruct (bool_decide (k = k')); cbn [fmap list_fmap concat snd].
    + rewrite !elem_of_app, list_elem_of_singleton. tauto.
    + rewrite !elem_of_app, IH. tauto.
Qed.

Lemma steps_for_in {A} R `{!PreOrder R} (l : list A) (body : A → M unit) :
  (∀ x, x ∈ l → steps R (body x)) → steps R (for_ l body).
Proof.
  induction l as [|x l IH]; intros Hb; simpl.
  - apply steps_ret; apply _.
  - apply steps_bind; [apply _|apply Hb; by left|].
    intros _. apply IH. intros y Hy. apply Hb. by right.
Qed.

Lemma foldM_app {A B} (f : B → A → M B) acc l1 l2 s :
  foldM f acc (l1 ++ l2) s
  = (let! acc1 := foldM f acc l1 in foldM f acc1 l2) s.
Proof.
  revert acc s. induction l1 as [|x l1 IH]; intros acc s; cbn [app foldM].
  - reflexivity.
  - unfold bind. destruct (f acc x s) as [[b|e] s1]; [|done].
    rewrite IH. reflexivity.
Qed.

Section Stage5.
Context (E : Env) (size : Z) (o : opened) (wu : list Z).

(** Everything stage 5 can do with one file. *)
Lemma stage5_step_spec acc f s :
  fd_inodes o !! fileno f = Some (f_row f) →
  is_Some (fd_names o !! fileno f) →
  ∃ acc' s',
    stage5_step E size o wu acc f s = (Ok acc', s')
    ∧ events s' = events s
    ∧ (∃ l, skipped s' = skipped s ++ l)
    ∧ (∀ r, r ∈ inodes s' → r ∈ inodes s)
    ∧ (∀ g, g ∈ members acc' →
            g ∈ members acc ∨ (g = f ∧ passes_recheck E size wu g))
    ∧ (fileno f ∉ wu → ¬ identity_ok E f → f_row f ∈ skipped s')
    ∧ (fileno f ∉ wu → identity_ok E f → tell E f ≠ size →
       tell E f < size_cutoff (volume E (i_vol (f_row f))) →
       ∀ r, r ∈ inodes s' → ikey r ≠ ikey (f_row f))
    ∧ (fileno f ∉ wu → identity_ok E f → tell E f ≠ size →
       size_cutoff (volume E (i_vol (f_row f))) ≤ tell E f →
       f_row f ∈ skipped s').
Proof.
  intros Hi Hn. unfold stage5_step, identity_ok.
  unfold bind at 1, subscript at 1. rewrite Hi. cbn [ret].
  assert (Hskip : ∀ t, ∃ l, skipped (set_skipped (λ l, l ++ [f_row f]) t)
                            = skipped t ++ l) by (intros t; by eexists).
  assert (Hin : ∀ t, f_row f ∈ skipped (set_skipped (λ l, l ++ [f_row f]) t)).
  { intros t. cbn. apply elem_of_app. right. by left. }
  case_bool_decide as Hwu.
  { unfold bind at 1. rewrite subscript_name by done.
    eexists _, _. split; [reflexivity|].
    cbn [events skipped inodes set_skipped emit]. repeat split; eauto; done. }
  case_bool_decide as Hino.
  { eexists _, _. split; [reflexivity|].
    cbn [events skipped inodes set_skipped emit bind skip modify ret].
    repeat split; eauto; try tauto. intros _ _. apply Hin. }
  case_bool_decide as Hdev.
  { eexists _, _. split; [reflexivity|].
    cbn [events skipped inodes set_skipped emit bind skip modify ret].
    repeat split; eauto; try tauto. intros _ _. apply Hin. }
  case_bool_decide as Hsz.
  - case_bool_decide as Hcut.
    + eexists _, _. split; [reflexivity|].
      cbn [events skipped inodes set_inodes]. repeat split.
      * exists []. by rewrite app_nil_r.
      * intros r Hr. by apply list_elem_of_filter in Hr as [_ Hr].
      * eauto.
      * tauto.
      * intros _ _ _ _ r Hr. by apply list_elem_of_filter in Hr as [Hr _].
      * intros _ _ _ Hle. lia.
    + eexists _, _. split; [reflexivity|].
      cbn [events skipped inodes set_skipped emit bind skip modify ret].
      split; [done|]. split; [by eexists|]. split; [done|].
      split; [eauto|]. split; [tauto|]. split.
      * intros _ _ _ Hlt. lia.
      * intros _ _ _ _. apply elem_of_app. right. by left.
  - eexists _, _. split; [reflexivity|].
    split; [done|]. split; [exists []; by rewrite app_nil_r|].
    split; [done|]. split.
    + intros g Hg. apply members_dd_append in Hg as [->|Hg]; [|by left].
      right. by repeat split.
    + split; [tauto|]. split; intros _ _ Hne; done.
Qed.

(** The whole loop of stage 5: it never raises, adds no event, only
    appends to the skip list, only removes rows, and puts into the digest
    partitions only files that passed the rechecks. *)
Lemma stage5_fold_spec l acc s :
  (∀ f, f ∈ l → known o f) →
  ∃ acc' s',
    foldM (stage5_step E size o wu) acc l s = (Ok acc', s')
    ∧ events s' = events s
    ∧ (∃ k, skipped s' = skipped s ++ k)
    ∧ (∀ r, r ∈ inodes s' → r ∈ inodes s)
    ∧ (∀ g, g ∈ members acc' →
            g ∈ members acc ∨ (g ∈ l ∧ passes_recheck E size wu g)).
Proof.
  revert acc s. induction l as [|f l IH]; intros acc s Hk.
  - exists acc, s. cbn. repeat split; eauto. exists []. by rewrite app_nil_r.
  - destruct (Hk f) as [Hfi Hfn]; [by left|].
    destruct (stage5_step_spec acc f s Hfi Hfn)
      as (acc1 & s1 & Hrun & Hev & [k1 Hsk] & Hin & Hmem & _).
    destruct (IH acc1 s1) as (acc2 & s2 & Hrun2 & Hev2 & [k2 Hsk2] & Hin2 & Hmem2).
    { intros g Hg. apply Hk. by right. }
    exists acc2, s2. cbn [foldM]. unfold bind. rewrite Hrun, Hrun2.
    split; [done|]. split; [congruence|]. split.
    { exists (k1 ++ k2). rewrite Hsk2, Hsk. by rewrite app_assoc. }
    split; [auto|]. intros g Hg.
    destruct (Hmem2 g Hg) as [Hg1|[Hg1 Hp]].
    + destruct (Hmem g Hg1) as [?|[-> Hp]]; [by left|].
      right. split; [by left|done].
    + right. split; [by right|done].
Qed.

(** What stage 5 leaves behind for a file that fails a recheck. *)
Lemma stage5_file_spec pre afile post s :
  (∀ f, f ∈ pre ++ afile :: post → known o f) →
  fileno afile ∉ wu →
  ∃ by_hash s',
    foldM (stage5_step E size o wu) [] (pre ++ afile :: post) s
    = (Ok by_hash, s')
    ∧ events s' = events s
    ∧ (∀ g, g ∈ members by_hash →
            g ∈ pre ++ afile :: post ∧ passes_recheck E size wu g)
    ∧ (¬ identity_ok E afile → f_row afile ∈ skipped s')
    ∧ (identity_ok E afile → tell E afile ≠ size →
       tell E afile < size_cutoff (volume E (i_vol (f_row afile))) →
       ∀ r, r ∈ inodes s' → ikey r ≠ ikey (f_row afile))
    ∧ (identity_ok E afile → tell E afile ≠ size →
       size_cutoff (volume E (i_vol (f_row afile))) ≤ tell E afile →
       f_row afile ∈ skipped s').
Proof.
  intros Hk Hwu.
  destruct (stage5_fold_spec (pre ++ afile :: post) [] s Hk)
    as (by_hash & s' & Hrun & Hev & _ & _ & Hmem).
  exists by_hash, s'. split; [done|]. split; [done|]. split.
  { intros g Hg. destruct (Hmem g Hg) as [Hg0|?]; [|done].
    by apply not_elem_of_nil in Hg0. }
  rewrite foldM_app in Hrun. unfold bind in Hrun.
  destruct (stage5_fold_spec pre [] s) as (acc1 & s1 & Hrun1 & _).
  { intros g Hg. apply Hk. apply elem_of_app. by left. }
  rewrite Hrun1 in Hrun. cbn [foldM] in Hrun. unfold bind in Hrun.
  destruct (Hk afile) as [Hfi Hfn]; [apply elem_of_app; right; by left|].
  destruct (stage5_step_spec acc1 afile s1 Hfi Hfn)
    as (acc2 & s2 & Hrun2 & _ & _ & _ & _ & Hs1 & Hs2 & Hs3).
  rewrite Hrun2 in Hrun.
  destruct (stage5_fold_spec post acc2 s2)
    as (acc3 & s3 & Hrun3 & _ & [k Hsk] & Hin & _).
  { intros g Hg. apply Hk. apply elem_of_app. right. by right. }
  rewrite Hrun3 in Hrun. injection Hrun as <- <-.
  split; [|split].
  - intros Hnid. rewrite Hsk. apply elem_of_app. left. by apply Hs1.
  - intros Hid Hne Hlt r Hr. apply (Hs2 Hwu Hid Hne Hlt). by apply Hin.
  - intros Hid Hne Hle. rewrite Hsk. apply elem_of_app. left. by apply Hs3.
Qed.
End Stage5.


(** ** Stage 6 adds events for files of the digest partitions only *)

#[global] Instance added_events_preorder P : PreOrder (added_events P).
Proof.
  split.
  - intros s. repeat split. exists []. rewrite app_nil_r. split; [done|].
    intros ev k Hev. by apply not_elem_of_nil in Hev.
  - intros s1 s2 s3 (Hs & Hi & n1 & He1 & Hp1) (Hs' & Hi' & n2 & He2 & Hp2).
    repeat split; [congruence|congruence|].
    exists (n1 ++ n2). rewrite He2, He1, app_assoc. split; [done|].
    intros ev k Hev. apply elem_of_app in Hev as [?|?]; eauto.
Qed.

Lemma stage6_fileset_adds E fs size o fileset :
  (∀ f, f ∈ fileset → known o f) →
  steps (added_events (λ k, ∃ f, f ∈ fileset ∧ k = participant f))
    (stage6_fileset E fs size o fileset).
Proof.
  intros Hk s.
  assert (Hrefl : ∀ l, added_events
            (λ k, ∃ f, f ∈ fileset ∧ k = participant f) s (emits l s)).
  { intros l. repeat split. exists []. rewrite app_nil_r. split; [done|].
    intros ev k Hev. by apply not_elem_of_nil in Hev. }
  destruct fileset as [|sfile [|d0 dfiles]]; [reflexivity|reflexivity|].
  assert (Hn : names_known o (sfile :: d0 :: dfiles))
    by (intros f Hf; by apply Hk).
  assert (Hi : inodes_known o (sfile :: d0 :: dfiles))
    by (intros f Hf; by apply Hk).
  destruct (decide (Forall (λ d, cmp_files E sfile d = true) (d0 :: dfiles)))
    as [Hall|Hnall].
  - rewrite stage6_fileset_equal by done. cbn zeta.
    destruct (cloned E sfile (d0 :: dfiles)) as [|c succ] eqn:Hc.
    + apply Hrefl.
    + cbn [snd]. repeat split.
      eexists [_]. split; [reflexivity|].
      intros ev k Hev Hin. apply list_elem_of_singleton in Hev as ->.
      cbn [ev_inodes] in Hin. apply list_elem_of_fmap in Hin as (f & -> & Hf).
      exists f. split; [|done].
      apply elem_of_cons in Hf as [->|Hf]; [by left|]. right.
      rewrite <- Hc in Hf. unfold cloned in Hf.
      by apply list_elem_of_filter in Hf as [_ Hf].
  - destruct (first_failure _ _ Hnall) as (pre & d & post & Heq & Hpre & Hd).
    apply not_true_is_false in Hd. rewrite Heq in *.
    rewrite stage6_fileset_differ by done. apply Hrefl.
Qed.

Lemma added_events_mono (P Q : Z * Z → Prop) s s' :
  (∀ k, P k → Q k) → added_events P s s' → added_events Q s s'.
Proof.
  intros HPQ (Hs & Hi & new & He & Hp). repeat split; try done.
  exists new. split; [done|]. eauto.
Qed.

Lemma stage6_loop_adds E fs size o (by_hash : list (Z * list file)) :
  (∀ f, f ∈ members by_hash → known o f) →
  steps (added_events (λ k, ∃ f, f ∈ members by_hash ∧ k = participant f))
    (for_ (snd <$> by_hash) (stage6_fileset E fs size o)).
Proof.
  intros Hk. apply steps_for_in; [apply _|]. intros fileset Hfs s.
  assert (Hsub : ∀ f, f ∈ fileset → f ∈ members by_hash).
  { intros f Hf. unfold members. apply list_elem_of_In, in_concat.
    exists fileset. split; by apply list_elem_of_In. }
  eapply added_events_mono; [|apply stage6_fileset_adds].
  - intros k (f & Hf & ->). eauto.
  - intros f Hf. apply Hk. by apply Hsub.
Qed.

Lemma NoDup_fmap_inj_on {A B} (f : A → B) (l : list A) x y :
  NoDup (f <$> l) → x ∈ l → y ∈ l → f x = f y → x = y.
Proof.
  induction l as [|a l IH]; intros Hnd Hx Hy Hxy.
  - by apply not_elem_of_nil in Hx.
  - rewrite fmap_cons in Hnd. apply NoDup_cons in Hnd as [Ha Hnd].
    apply elem_of_cons in Hx as [->|Hx]; apply elem_of_cons in Hy as [->|Hy].
    + done.
    + exfalso. apply Ha. rewrite Hxy. apply list_elem_of_fmap. eauto.
    + exfalso. apply Ha. rewrite <- Hxy. apply list_elem_of_fmap. eauto.
    + by apply IH.
Qed.

(** Stages 5 and 6 on the files stage 4 opened: what becomes of a file
    that fails a recheck. *)
Lemma hash_and_share_recheck E fs size o afile s r s' :
  (∀ f, f ∈ files o → known o f) →
  NoDup (participant <$> files o) →
  afile ∈ files o →
  fileno afile ∉ fds_in_write_use E (files o) →
  hash_and_share E fs size o s = (r, s') →
  let inode := f_row afile in
  let size1 := tell E afile in
  let cutoff := size_cutoff (volume E (i_vol inode)) in
  (¬ identity_ok E afile → inode ∈ skipped s')
  ∧ (identity_ok E afile → size1 ≠ size → size1 < cutoff →
     ∀ row, row ∈ inodes s' → ikey row ≠ ikey inode)
  ∧ (identity_ok E afile → size1 ≠ size → cutoff ≤ size1 →
     inode ∈ skipped s')
  ∧ (¬ identity_ok E afile ∨ size1 ≠ size →
     (∀ by_hash t,
        foldM (stage5_step E size o (fds_in_write_use E (files o))) []
          (files o) s = (Ok by_hash, t) →
        afile ∉ members by_hash)
     ∧ ∃ new, events s' = events s ++ new
              ∧ ∀ ev, ev ∈ new → participant afile ∉ ev_inodes ev).
Proof.
  intros Hk Hnd Hin Hwu Hrun inode size1 cutoff.
  destruct (list_elem_of_split _ _ Hin) as (pre & post & Hfiles).
  destruct (stage5_file_spec E size o (fds_in_write_use E (files o))
              pre afile post s)
    as (by_hash & s1 & Hrun5 & Hev5 & Hmem & Hs1 & Hs2 & Hs3);
    [by rewrite <- Hfiles|done|].
  rewrite <- Hfiles in Hrun5, Hmem.
  unfold hash_and_share in Hrun. unfold bind in Hrun. rewrite Hrun5 in Hrun.
  pose proof (stage6_loop_adds E fs size o by_hash) as H6.
  specialize (H6 ltac:(intros f Hf; apply Hk; by apply Hmem) s1).
  rewrite Hrun in H6. cbn [snd] in H6.
  destruct H6 as (Hsk & Hino & new & Hev & Hnew).
  assert (Hfail : ¬ identity_ok E afile ∨ size1 ≠ size →
                  ¬ passes_recheck E size (fds_in_write_use E (files o)) afile).
  { intros Hf (_ & Hid & Hsz). tauto. }
  split; [|split; [|split]].
  - intros Hnid. rewrite Hsk. by apply Hs1.
  - intros Hid Hne Hlt row Hrow. rewrite Hino in Hrow. by apply Hs2.
  - intros Hid Hne Hle. rewrite Hsk. by apply Hs3.
  - intros Hf. split.
    + intros by_hash' t Hrun'. rewrite Hrun5 in Hrun'.
      injection Hrun' as <- <-. intros Hm.
      apply Hfail; [done|]. by apply Hmem.
    + exists new. split; [congruence|]. intros ev Hevin Hp.
      destruct (Hnew ev _ Hevin Hp) as (f & Hfm & Hpf).
      destruct (Hmem f Hfm) as [Hff Hpass].
      assert (afile = f) by (eapply NoDup_fmap_inj_on; eauto).
      subst f. by apply Hfail.
Qed.

Lemma opened3_files :
  (∀ f, f ∈ files opened3 → known opened3 f)
  ∧ NoDup (participant <$> files opened3)
  ∧ file3 ∈ files opened3.
Proof.
  split; [|split].
  - intros f Hf. apply list_elem_of_In in Hf. simpl in Hf.
    destruct Hf as [<-|[<-|[<-|[]]]]; vm_compute; eauto.
  - apply (bool_decide_unpack _). vm_compute. exact I.
  - apply list_elem_of_In. simpl. tauto.
Defined.


(** ** The order in which size groups are yielded *)

#[global] Instance by_size_desc_trans : Transitive by_size_desc.
Proof. intros a b c; unfold by_size_desc; lia. Qed.
#[global] Instance by_size_desc_total : Total by_size_desc.
Proof. intros a b; unfold by_size_desc; lia. Qed.
#[global] Instance by_size_desc_ino_trans : Transitive by_size_desc_ino.
Proof. intros a b c; unfold by_size_desc_ino; lia. Qed.
#[global] Instance by_size_desc_ino_total : Total by_size_desc_ino.
Proof. intros a b; unfold by_size_desc_ino; lia. Qed.

Lemma StronglySorted_weaken {A} (R R' : relation A) l :
  (∀ x y, R x y → R' x y) → StronglySorted R l → StronglySorted R' l.
Proof.
  intros HR. induction 1 as [|x l Hl IH Hx]; constructor; [done|].
  eapply Forall_impl; eauto.
Qed.

Lemma StronglySorted_fmap {A B} (f : A → B) (R : relation B) l :
  StronglySorted (λ x y, R (f x) (f y)) l → StronglySorted R (f <$> l).
Proof.
  induction 1 as [|x l Hl IH Hx]; cbn; constructor; [done|].
  by apply Forall_fmap.
Qed.

Lemma StronglySorted_take {A} (R : relation A) n l :
  StronglySorted R l → StronglySorted R (take n l).
Proof.
  intros H. rewrite <- (take_drop n l) in H.
  by apply StronglySorted_app_1_l in H.
Qed.

(** In a list sorted by a preorder every element is before the last. *)
Lemma StronglySorted_last {A} (R : relation A) `{!Reflexive R} l d x :
  StronglySorted R l → x ∈ l → R x (List.last l d).
Proof.
  induction 1 as [|y l Hl IH Hy]; intros Hx.
  - by apply not_elem_of_nil in Hx.
  - destruct l as [|z l].
    + apply list_elem_of_singleton in Hx as ->. cbn. reflexivity.
    + change (List.last (y :: z :: l) d) with (List.last (z :: l) d).
      apply elem_of_cons in Hx as [->|Hx]; [|by apply IH].
      rewrite Forall_forall in Hy. apply Hy.
      clear. generalize z. induction l as [|w l IH]; intros z'.
      * cbn. by left.
      * change (List.last (z' :: w :: l) d) with (List.last (w :: l) d).
        right. apply IH.
Qed.

(** *** itertools.groupby on a list sorted by decreasing key *)

Lemma groupby_keys {A} (key : A → Z) l k :
  k ∈ (groupby key l).*1 → k ∈ key <$> l.
Proof.
  revert k. induction l as [|x l IH]; intros k; cbn [groupby].
  - done.
  - rewrite fmap_cons. destruct (groupby key l) as [|[k0 g] rest].
    + cbn. intros H. apply list_elem_of_singleton in H as ->. by left.
    + case_bool_decide as Hk; cbn [fmap list_fmap fst].
      * intros H. right. apply IH. exact H.
      * intros H. apply elem_of_cons in H as [->|H]; [by left|].
        right. by apply IH.
Qed.

Lemma groupby_keys_decrease {A} (key : A → Z) l :
  StronglySorted (λ a b, key b ≤ key a) l →
  StronglySorted Z.gt (groupby key l).*1.
Proof.
  induction 1 as [|x l Hl IH Hx]; cbn [groupby]; [constructor|].
  pose proof (groupby_keys key l) as Hk.
  destruct (groupby key l) as [|[k0 g] rest]; [repeat constructor|].
  cbn [fmap list_fmap fst] in *.
  assert (Hle : ∀ k, k ∈ k0 :: rest.*1 → k ≤ key x).
  { intros k Hin. apply Hk, list_elem_of_fmap in Hin as (y & -> & Hy).
    rewrite Forall_forall in Hx. by apply Hx. }
  apply StronglySorted_cons in IH as [Hk0 IH].
  case_bool_decide as Heq; cbn [fmap list_fmap fst].
  - by constructor.
  - constructor; [by constructor|].
    assert (k0 < key x) by (specialize (Hle k0 ltac:(by left)); lia).
    constructor; [lia|]. rewrite Forall_forall in Hk0 |- *.
    intros k Hin. specialize (Hk0 k Hin). lia.
Qed.

(** *** The two queries of a window *)

Lemma elem_of_take_inv {A} (x : A) n l : x ∈ take n l → x ∈ l.
Proof.
  intros H. rewrite <- (take_drop n l). apply elem_of_app. by left.
Qed.

Lemma group_by_size_sizes rows r :
  r ∈ group_by_size rows → ∃ i, i ∈ rows ∧ size i = sr_size r.
Proof.
  unfold group_by_size. intros H.
  apply list_elem_of_fmap in H as (sz & -> & Hsz).
  apply elem_of_remove_dups, list_elem_of_fmap in Hsz as (i & -> & Hi).
  by exists i.
Qed.

Lemma window_select_below q tbl ws r :
  r ∈ window_select q tbl ws → below ws (sr_size r).
Proof.
  unfold window_select. intros H. apply elem_of_take_inv in H.
  rewrite merge_sort_Permutation in H.
  apply list_elem_of_filter in H as [_ H].
  apply group_by_size_sizes in H as (i & Hi & <-).
  apply list_elem_of_filter in Hi as [Hi _].
  destruct ws as [w|]; cbn in *; [|done].
  by apply bool_decide_eq_true in Hi.
Qed.

Lemma window_select_sorted q tbl ws :
  StronglySorted by_size_desc (window_select q tbl ws).
Proof.
  unfold window_select. apply StronglySorted_take.
  apply StronglySorted_merge_sort; apply _.
Qed.

Lemma window_inodes_sizes q tbl li i :
  i ∈ window_inodes q tbl li → size i ∈ sr_size <$> li.
Proof.
  unfold window_inodes. rewrite merge_sort_Permutation.
  intros H. by apply list_elem_of_filter in H as [H _].
Qed.

Lemma window_inodes_sorted q tbl li :
  StronglySorted (λ a b, size b ≤ size a) (window_inodes q tbl li).
Proof.
  unfold window_inodes.
  eapply StronglySorted_weaken; [|apply StronglySorted_merge_sort; apply _].
  intros a b. unfold by_size_desc_ino. lia.
Qed.

Lemma window_groups_sizes q tbl li :
  comm_size <$> window_groups q tbl li
  = (groupby size (window_inodes q tbl li)).*1.
Proof.
  unfold window_groups. rewrite <- list_fmap_compose.
  apply list_fmap_ext. by intros _ [k g] _.
Qed.

(** The groups of one window: their sizes decrease strictly and lie
    between window_end and the window_start the query was made with. *)
Lemma window_groups_spec q tbl ws li0 li :
  window_select q tbl ws = li0 :: li →
  let ks := comm_size <$> window_groups q tbl (li0 :: li) in
  StronglySorted Z.gt ks
  ∧ ∀ k, k ∈ ks → sr_size (List.last (li0 :: li) li0) ≤ k ∧ below ws k.
Proof.
  intros Hli ks. subst ks. rewrite window_groups_sizes. split.
  - apply groupby_keys_decrease, window_inodes_sorted.
  - intros k Hk. apply groupby_keys, list_elem_of_fmap in Hk as (i & -> & Hi).
    apply window_inodes_sizes, list_elem_of_fmap in Hi as (r & -> & Hr).
    split.
    + assert (Hrefl : Reflexive by_size_desc)
        by (intros a; unfold by_size_desc; lia).
      apply (StronglySorted_last by_size_desc (li0 :: li) li0 r); [|done].
      rewrite <- Hli. apply window_select_sorted.
    + apply (window_select_below q tbl). by rewrite Hli.
Qed.

(** *** The generator *)

Lemma yield_each_prefix body groups s :
  ∃ rest, groups = (yield_each body groups s).1 ++ rest.
Proof.
  revert s. induction groups as [|g groups IH]; intros s; cbn [yield_each].
  - by exists [].
  - destruct (body g s) as [[[]|e] s1].
    + destruct (IH s1) as [rest Hrest].
      destruct (yield_each body groups s1) as [ys r]. cbn in *.
      exists rest. by rewrite <- Hrest.
    + by exists groups.
Qed.

Lemma iter_windows_sizes E q fuel body ws s :
  let ks := comm_size <$> (iter_windows E q fuel body ws s).1 in
  StronglySorted Z.gt ks ∧ ∀ k, k ∈ ks → below ws k.
Proof.
  revert ws s. induction fuel as [|fuel IH]; intros ws s; cbn [iter_windows].
  - split; [constructor|]. intros k Hk. by apply not_elem_of_nil in Hk.
  - destruct (window_select q (inodes s) ws) as [|li0 li] eqn:Hli.
    + destruct (clear_updates E q ws 0 s) as [[[]|e] s1]; cbn;
        (split; [constructor|]); intros k Hk; by apply not_elem_of_nil in Hk.
    + destruct (window_groups_spec q (inodes s) ws li0 li Hli) as [Hsorted Hbnd].
      destruct (yield_each_prefix body (window_groups q (inodes s) (li0 :: li)) s)
        as [rest Hrest].
      destruct (yield_each body _ s) as [ys [[[]|e] s1]] eqn:Hy; cbn [fst] in Hrest.
      * rewrite Hrest, fmap_app in Hsorted, Hbnd.
        assert (Hys : ∀ k, k ∈ comm_size <$> ys →
                   sr_size (List.last (li0 :: li) li0) ≤ k ∧ below ws k).
        { intros k Hk. apply Hbnd. apply elem_of_app. by left. }
        apply StronglySorted_app_1_l in Hsorted.
        destruct (clear_updates E q _ _ s1) as [[[]|e] s2].
        -- specialize (IH (Some (sr_size (List.last (li0 :: li) li0) - 1)) s2).
           destruct (iter_windows E q fuel body _ s2) as [ys' r].
           cbn [fst] in *. destruct IH as [IH1 IH2]. rewrite fmap_app. split.
           ++ apply StronglySorted_app_2; [|done|done].
              intros k1 k2 Hk1 Hk2. apply Hys in Hk1 as [Hk1 _].
              apply IH2 in Hk2. unfold below in Hk2. lia.
           ++ intros k Hk. apply elem_of_app in Hk as [Hk|Hk].
              ** by apply Hys.
              ** apply IH2 in Hk. unfold below in Hk.
                 assert (Hl0 : below ws (sr_size (List.last (li0 :: li) li0))).
                 { apply (window_select_below q (inodes s)). rewrite Hli.
                   apply list_elem_of_In.
                   destruct (exists_last (l:=li0 :: li) ltac:(done))
                     as (l' & a & Ha). rewrite Ha, last_last.
                   apply in_or_app. right. by left. }
                 destruct ws as [w|]; unfold below in *; [lia|done].
        -- cbn [fst]. split; [done|]. intros k Hk. by apply Hys.
      * rewrite Hrest, fmap_app in Hsorted, Hbnd. cbn [fst]. split.
        -- by apply StronglySorted_app_1_l in Hsorted.
        -- intros k Hk. apply Hbnd. apply elem_of_app. by left.
Qed.

(** C9: whatever the Catalog holds and whatever the consumer does with
    each group (including giving up on an exception), the sizes of the
    groups yielded by one iteration of the WindowedQuery decrease strictly
    from each group to every later one, inside a window and from one
    window to the next; the same holds for the groups dedup_tracked
    works through. *)
Theorem yielded_sizes_decrease_strictly :
  (∀ E q fuel body s,
     StronglySorted Z.gt
       (comm_size <$> (WindowedQuery_iter E q fuel body s).1))
  ∧ (∀ E fuel volset s,
     StronglySorted Z.gt (comm_size <$> (dedup_tracked E fuel volset s).1)).
Proof.
  assert (H1 : ∀ E q fuel body s,
     StronglySorted Z.gt
       (comm_size <$> (WindowedQuery_iter E q fuel body s).1)).
  { intros. rewrite WindowedQuery_iter_unfold. cbn zeta.
    pose proof (iter_windows_sizes E q fuel body
                  (max_size_scalar (inodes (iter_prologue s)))
                  (iter_prologue s)) as [Hs _].
    by destruct (iter_windows E q fuel body _ _) as [ys [[x|e] s']]. }
  split; [exact H1|].
  intros E fuel volset s. unfold dedup_tracked.
  destruct volset as [|vol0 rest]; [constructor|].
  destruct (forallb _ _); [|constructor].
  unfold dedup_tracked_checked, WindowedQuery_len.
  cbn -[selectable WindowedQuery_iter].
  destruct (length _); [constructor|].
  unfold dedup_tracked1. destruct (getrlimit_OFILE E) as [soft hard].
  match goal with
  | |- context [WindowedQuery_iter ?E ?q ?f ?b ?s] =>
      specialize (H1 E q f b s);
      destruct (WindowedQuery_iter E q f b s) as [ys [[x|e] s']]
  end; exact H1.
Qed.

(** ** clear_updates: the range and the coverage of a pass *)

(** C1 (the code does not do this).  The range predicate of
    clear_updates is a chained comparison of Python: only one of its two
    comparisons reaches the UPDATE, which one is decided by the truth
    value SQLAlchemy gives the clause [size <= window_start], and when the
    library refuses to give one the call raises before anything is
    cleared.  With window (50, 40) and rows of sizes 30, 45 and 60 the
    rows cleared are 45 and 60, or 30 and 45, or none: never the row of
    size 45 alone.  And since window_start is overwritten with the size of
    the first group before clear_updates is called, a pass over a table
    whose largest size is 100 and whose only group has size 50 calls
    clear_updates on (50, 50) and (49, 0): sizes 51 to 100 are in no
    range, and the row of size 100 can keep its flag. *)
Theorem clear_updates_range_and_coverage :
  (∀ E q ws we s,
     clear_updates E q ws we s =
     let s0 := emit (ClearUpdates ws we) s in
     match clause_bool E (size_le ws) with
     | None => (Raise TypeError, s0)
     | Some b =>
         let range := if b then size_ge we else size_le ws in
         let s1 := set_inodes
                     (cleared_table (and_ (filt_crit q) range) (unsaved s))
                     s0 in
         (Ok tt,
          set_skipped (λ _, [])
            (checkpoint_requested (emit (Commit (synchronous s)) s1)))
     end)
  ∧ inodes (clear_updates (env0 (Some true)) query1 (Some 50) 40
              (state0 sizes_30_45_60)).2
    = [mkInode 1 1 30 true; mkInode 1 2 45 false; mkInode 1 3 60 false]
  ∧ inodes (clear_updates (env0 (Some false)) query1 (Some 50) 40
              (state0 sizes_30_45_60)).2
    = [mkInode 1 1 30 false; mkInode 1 2 45 false; mkInode 1 3 60 true]
  ∧ clear_updates (env0 None) query1 (Some 50) 40 (state0 sizes_30_45_60)
    = (Raise TypeError,
       emit (ClearUpdates (Some 50) 40) (state0 sizes_30_45_60))
  ∧ max_size_scalar tall_and_pair = Some 100
  ∧ (let '(ys, (r, s')) :=
       WindowedQuery_iter (env0 (Some false)) query1 3 (λ _, ret tt)
         (state0 tall_and_pair) in
     comm_size <$> ys = [50]
     ∧ r = Ok tt
     ∧ clear_updates_calls (trace s') = [(Some 50, 50); (Some 49, 0)]
     ∧ inodes s'
       = [mkInode 1 1 100 true; mkInode 1 2 50 false; mkInode 1 3 50 false]).
Proof.
  split; [apply clear_updates_run|]. vm_compute. repeat split.
Qed.

(** Two windows of one group each: the sizes 50 and 20 are yielded from
    two successive queries. *)
Example two_windows_decrease :
  comm_size <$>
    (WindowedQuery_iter (env0 (Some true))
       (mkWindowedQuery (vol_id_in [1]) 1) 4 (λ _, ret tt)
       (state0 [mkInode 1 1 100 true; mkInode 1 2 50 true;
                mkInode 1 3 50 true; mkInode 1 4 30 true;
                mkInode 1 5 20 true; mkInode 1 6 20 false])).1
  = [50; 20].
Proof. vm_compute. reflexivity. Qed.

(** ** Stage 4 builds dicts that know every file it opened *)

Section Stage4.
Context (E : Env).

Lemma stage4_step_inv done o x s o' s' :
  stage4_inv E done o →
  (∀ i fd, i ∈ done → opens_as E i = Some fd → opens_as E x = Some fd → i = x) →
  stage4_step E o x s = (Ok o', s') →
  stage4_inv E (done ++ [x]) o'.
Proof.
  intros [Hf Hsub] Hfresh. unfold stage4_step.
  assert (Hkeep : stage4_inv E (done ++ [x]) o).
  { split.
    - intros f Hin. destruct (Hf f Hin) as (Hk & Hd & Ho).
      split; [done|]. split; [|done]. apply elem_of_app. by left.
    - by apply sublist_inserts_r. }
  destruct (lookup_ino_path_one E Stage4 x) as [p|errno] eqn:Hlk.
  - unfold bind at 1, tell_ at 1, modify at 1.
    destruct (fopenat_rw E x p) as [fd|errno] eqn:Hop.
    + intros Hrun. injection Hrun as <- <-.
      assert (Hx : opens_as E x = Some fd).
      { unfold opens_as. by rewrite Hlk, Hop. }
      split.
      * intros f Hin. cbn [files] in Hin.
        apply elem_of_app in Hin as [Hin|Hin].
        -- destruct (Hf f Hin) as ([Hki Hkn] & Hd & Ho).
           split; [split|split; [apply elem_of_app; by left|done]].
           ++ cbn [fd_inodes]. destruct (decide (fd = fileno f)) as [->|Hne].
              ** rewrite lookup_insert_eq. f_equal. symmetry.
                 by eapply Hfresh.
              ** by rewrite lookup_insert_ne.
           ++ cbn [fd_names]. destruct (decide (fd = fileno f)) as [->|Hne].
              ** rewrite lookup_insert_eq. eauto.
              ** by rewrite lookup_insert_ne.
        -- apply list_elem_of_singleton in Hin as ->.
           unfold known. cbn [fd_inodes fd_names fileno f_row].
           split; [split|split].
           ++ by rewrite lookup_insert_eq.
           ++ rewrite lookup_insert_eq. eauto.
           ++ apply elem_of_app. right. by left.
           ++ done.
      * cbn [files]. rewrite fmap_app. by apply sublist_app.
    + repeat case_bool_decide; unfold bind, notify, tell_, skip, modify, ret;
        intros Hrun; inversion Hrun; subst; done.
  - case_bool_decide; unfold bind, sess_delete, modify, ret;
      intros Hrun; inversion Hrun; subst; done.
Qed.

Lemma stage4_fold_inv rest done o s o' s' :
  stage4_inv E done o →
  distinct_fds E (done ++ rest) →
  foldM (stage4_step E) o rest s = (Ok o', s') →
  stage4_inv E (done ++ rest) o'.
Proof.
  revert done o s. induction rest as [|x rest IH]; intros done o s Hinv Hd.
  - cbn. intros H; injection H as <- <-. by rewrite app_nil_r.
  - cbn [foldM]. unfold bind.
    destruct (stage4_step E o x s) as [[o1|e] s1] eqn:Hstep; [|discriminate].
    intros Hrun. replace (done ++ x :: rest) with ((done ++ [x]) ++ rest)
      by (by rewrite <- app_assoc).
    eapply IH; [| |exact Hrun].
    + eapply stage4_step_inv; [done| |exact Hstep].
      intros i fd Hi Ho Hx. eapply Hd; [| |exact Ho|exact Hx].
      * apply elem_of_app. by left.
      * apply elem_of_app. right. by left.
    + by rewrite <- app_assoc.
Qed.

(** What stage 4 hands to stages 5 and 6. *)
Lemma stage4_spec group s o s' :
  NoDup (ikey <$> group) →
  distinct_fds E group →
  foldM (stage4_step E) (mkOpened [] [] ∅ ∅) group s = (Ok o, s') →
  (∀ f, f ∈ files o →
        known o f ∧ f_row f ∈ group ∧ opens_as E (f_row f) = Some (fileno f))
  ∧ NoDup (ikey <$> (f_row <$> files o)).
Proof.
  intros Hnd Hd Hrun.
  destruct (stage4_fold_inv group [] (mkOpened [] [] ∅ ∅) s o s') as [Hf Hsub];
    [|done|done|].
  - split; [|constructor]. intros f Hf. by apply not_elem_of_nil in Hf.
  - split; [done|]. cbn [app] in Hsub.
    eapply sublist_NoDup; [exact Hnd|]. by apply fmap_sublist.
Qed.
End Stage4.

#[global] Instance keeps_events_preorder : PreOrder keeps_events.
Proof.
  split; [by intros s|]. intros s1 s2 s3; unfold keeps_events; congruence.
Qed.

Lemma stage4_keeps_events E o group :
  steps keeps_events (foldM (stage4_step E) o group).
Proof.
  apply steps_foldM; [apply _|]. intros b x. unfold stage4_step.
  repeat first
    [ steps_step
    | progress unfold tell_, notify, skip, sess_delete
    | apply steps_modify; intros s; reflexivity ].
Qed.

Lemma NoDup_participants (l : list file) :
  NoDup (ikey <$> (f_row <$> l)) → NoDup (participant <$> l).
Proof.
  induction l as [|f l IH]; cbn [fmap list_fmap]; [constructor|].
  rewrite !NoDup_cons. intros [Hf Hl]. split; [|by apply IH].
  intros Hin. apply Hf. apply list_elem_of_fmap in Hin as (g & Hg & Hgl).
  apply list_elem_of_fmap. exists (f_row g). split.
  - unfold participant, ikey in *. by injection Hg as -> ->.
  - apply list_elem_of_fmap. eauto.
Qed.

(** C5: a file of the group that stage 4 opened and that is not
    write-busy is hashed and then rechecked.  When its inode number or
    device no longer match, its inode is appended to the skip list.  When
    they match and the number of bytes read differs from the recorded
    size, the row is deleted if the new size is below the volume's cutoff
    and the inode is appended to the skip list otherwise.  In each of
    these cases the file enters no digest partition and no event added
    for the group names its inode. *)
Theorem recheck_after_hash E fs size group s o s1 r s' afile :
  NoDup (ikey <$> group) →
  distinct_fds E group →
  foldM (stage4_step E) (mkOpened [] [] ∅ ∅) group s = (Ok o, s1) →
  open_and_share E fs size group s = (r, s') →
  afile ∈ files o →
  fileno afile ∉ fds_in_write_use E (files o) →
  let inode := f_row afile in
  let size1 := tell E afile in
  let cutoff := size_cutoff (volume E (i_vol inode)) in
  inode ∈ group
  ∧ (¬ identity_ok E afile → inode ∈ skipped s')
  ∧ (identity_ok E afile → size1 ≠ size → size1 < cutoff →
     ∀ row, row ∈ inodes s' → ikey row ≠ ikey inode)
  ∧ (identity_ok E afile → size1 ≠ size → cutoff ≤ size1 →
     inode ∈ skipped s')
  ∧ (¬ identity_ok E afile ∨ size1 ≠ size →
     (∀ by_hash t,
        foldM (stage5_step E size o (fds_in_write_use E (files o))) []
          (files o) s1 = (Ok by_hash, t) →
        afile ∉ members by_hash)
     ∧ ∃ new, events s' = events s ++ new
              ∧ ∀ ev, ev ∈ new → participant afile ∉ ev_inodes ev).
Proof.
  intros Hnd Hfd Hrun4 Hrun Hin Hwu inode size1 cutoff.
  destruct (stage4_spec E group s o s1 Hnd Hfd Hrun4) as [Hfiles Hnd'].
  unfold open_and_share, bind in Hrun. rewrite Hrun4 in Hrun.
  pose proof (stage4_keeps_events E (mkOpened [] [] ∅ ∅) group s) as Hev.
  rewrite Hrun4 in Hev. cbn [snd] in Hev. unfold keeps_events in Hev.
  destruct (hash_and_share_recheck E fs size o afile s1 r s')
    as (H1 & H2 & H3 & H4); try done.
  - intros f Hf. by apply Hfiles.
  - by apply NoDup_participants.
  - split; [by apply Hfiles|]. rewrite <- Hev. done.
Qed.

Lemma three_duplicates_group E :
  lookup_ino_path_one E = (λ _ i, LookupOk (path_of i)) →
  fopenat_rw E = (λ i _, Opened (ino i + 100)) →
  NoDup (ikey <$> three_duplicates) ∧ distinct_fds E three_duplicates.
Proof.
  intros Hl Ho. split.
  - apply (bool_decide_unpack _). vm_compute. exact I.
  - intros i j fd Hi Hj. unfold opens_as. rewrite Hl, Ho.
    apply list_elem_of_In in Hi, Hj. simpl in Hi, Hj.
    destruct Hi as [<-|[<-|[<-|[]]]]; destruct Hj as [<-|[<-|[<-|[]]]];
      vm_compute; congruence.
Defined.

Lemma recheck_after_hash_witness :
  mkInode 1 3 50 true
    ∈ skipped (open_and_share env_replaced 1 50 three_duplicates
                 (state0 three_duplicates)).2
  ∧ (∀ row, row ∈ inodes (open_and_share env_shrunk 1 50 three_duplicates
                            (state0 three_duplicates)).2 →
            ikey row ≠ (1, 3))
  ∧ mkInode 1 3 50 true
      ∈ skipped (open_and_share env_grew 1 50 three_duplicates
                   (state0 three_duplicates)).2
  ∧ ∃ new, events (open_and_share env_replaced 1 50 three_duplicates
                     (state0 three_duplicates)).2 = [] ++ new
           ∧ ∀ ev, ev ∈ new → (3, 1) ∉ ev_inodes ev.
Proof.
  assert (Hin : file3 ∈ files opened3)
    by (apply list_elem_of_In; simpl; tauto).
  assert (Hwu : ∀ E, fds_in_write_use E = (λ _, []) →
                     fileno file3 ∉ fds_in_write_use E (files opened3)).
  { intros E ->. apply not_elem_of_nil. }
  pose (W := λ E Hl Ho (H4 : foldM (stage4_step E) (mkOpened [] [] ∅ ∅)
                   three_duplicates (state0 three_duplicates)
                 = (Ok opened3,
                    (foldM (stage4_step E) (mkOpened [] [] ∅ ∅)
                       three_duplicates (state0 three_duplicates)).2)) Hw,
    recheck_after_hash E 1 50 three_duplicates (state0 three_duplicates)
      opened3 _ _ _ file3
      (proj1 (three_duplicates_group E Hl Ho))
      (proj2 (three_duplicates_group E Hl Ho))
      H4 (surjective_pairing _) Hin (Hwu E Hw)).
  split; [|split; [|split]].
  - refine (proj1 (proj2 (W env_replaced eq_refl eq_refl _ eq_refl)) _).
    + vm_compute. reflexivity.
    + intros [H _]. vm_compute in H. discriminate.
  - refine (proj1 (proj2 (proj2 (W env_shrunk eq_refl eq_refl _ eq_refl)))
              _ _ _).
    + vm_compute. reflexivity.
    + split; reflexivity.
    + vm_compute. discriminate.
    + vm_compute. reflexivity.
  - refine (proj1 (proj2 (proj2 (proj2
              (W env_grew eq_refl eq_refl _ eq_refl)))) _ _ _).
    + vm_compute. reflexivity.
    + split; reflexivity.
    + vm_compute. discriminate.
    + vm_compute. discriminate.
  - refine (proj2 (proj2 (proj2 (proj2 (proj2
              (W env_replaced eq_refl eq_refl _ eq_refl)))) _)).
    + vm_compute. reflexivity.
    + left. intros [H _]. vm_compute in H. discriminate.
Defined.

(** * Further properties of the code *)

(** ** fake_updates *)

Lemma find_key_none (tbl : list Inode) k :
  List.find (λ r, bool_decide (ikey r = k)) tbl = None → k ∉ ikey <$> tbl.
Proof.
  intros Hf Hin. apply list_elem_of_fmap in Hin as (r & -> & Hr).
  apply list_elem_of_In in Hr.
  pose proof (find_none _ _ Hf r Hr) as Hn. cbn in Hn.
  by rewrite bool_decide_true in Hn.
Qed.

Lemma find_key_in (tbl : list Inode) k r :
  List.find (λ r, bool_decide (ikey r = k)) tbl = Some r →
  r ∈ tbl ∧ ikey r = k.
Proof.
  intros H. apply find_some in H as [Hin Hk].
  split; [by apply list_elem_of_In | by apply bool_decide_eq_true in Hk].
Qed.

Lemma flag_named_keys deis tbl : ikey <$> flag_named deis tbl = ikey <$> tbl.
Proof.
  unfold flag_named. induction tbl as [|r tbl IH]; [done|].
  cbn [map fmap list_fmap]. f_equal; [|exact IH].
  by destruct (bool_decide _).
Qed.

Lemma flag_named_app l1 l2 tbl :
  flag_named l2 (flag_named l1 tbl) = flag_named (l1 ++ l2) tbl.
Proof.
  unfold flag_named. rewrite map_map. apply map_ext. intros r.
  destruct (bool_decide ((ino r, i_vol r) ∈ l1)) eqn:H1.
  - apply bool_decide_eq_true in H1.
    rewrite (bool_decide_true (_ ∈ l1 ++ l2)) by (apply elem_of_app; by left).
    by destruct (bool_decide _).
  - apply bool_decide_eq_false in H1.
    destruct (bool_decide ((ino r, i_vol r) ∈ l2)) eqn:H2.
    + apply bool_decide_eq_true in H2.
      by rewrite bool_decide_true by (apply elem_of_app; by right).
    + apply bool_decide_eq_false in H2.
      rewrite bool_decide_false; [done|].
      intros Hin. apply elem_of_app in Hin as [?|?]; done.
Qed.

Lemma flag_named_nil tbl : flag_named [] tbl = tbl.
Proof.
  unfold flag_named. rewrite <- (map_id tbl) at 2. apply map_ext. intros r.
  rewrite bool_decide_false; [done|]. apply not_elem_of_nil.
Qed.

Lemma set_inodes_id s : set_inodes (λ tbl, tbl) s = s.
Proof. by destruct s. Qed.

Lemma set_inodes_compose f g s :
  set_inodes g (set_inodes f s) = set_inodes (λ tbl, g (f tbl)) s.
Proof. by destruct s. Qed.

Lemma set_inodes_ext f g s :
  f (inodes s) = g (inodes s) → set_inodes f s = set_inodes g s.
Proof. destruct s; unfold set_inodes; cbn. by intros ->. Qed.

(** One entry of an event. *)
Lemma fake_event_step_run c dei s :
  fake_event_step c dei s =
  (Ok (if bool_decide ((dei.2, dei.1) ∈ ikey <$> inodes s) then c + 1 else c),
   set_inodes (flag_named [dei]) s).
Proof.
  unfold fake_event_step, bind at 1, inode_scalar, bind at 1, get, ret.
  destruct (List.find _ (inodes s)) as [inode|] eqn:Hf.
  - apply find_key_in in Hf as [Hin Hk].
    rewrite bool_decide_true
      by (rewrite <- Hk; apply list_elem_of_fmap; eauto).
    unfold bind, reflag, modify. f_equal. apply set_inodes_ext.
    unfold flag_named. apply map_ext. intros r. unfold same_row.
    rewrite Hk. destruct dei as [i v]. cbn [fst snd].
    destruct (bool_decide (ikey r = (v, i))) eqn:Hr.
    + apply bool_decide_eq_true in Hr. unfold ikey in Hr.
      injection Hr as -> ->. rewrite bool_decide_true; [done|by left].
    + apply bool_decide_eq_false in Hr. rewrite bool_decide_false; [done|].
      intros Hx. apply list_elem_of_singleton in Hx. apply Hr.
      unfold ikey. by injection Hx as -> ->.
  - apply find_key_none in Hf. rewrite bool_decide_false by done.
    f_equal. rewrite <- (set_inodes_id s) at 1. apply set_inodes_ext.
    unfold flag_named. rewrite <- (map_id (inodes s)) at 1.
    apply map_ext_in. intros r Hr. rewrite bool_decide_false; [done|].
    intros Hx. apply list_elem_of_singleton in Hx. apply Hf.
    apply list_elem_of_fmap. exists r. split; [|by apply list_elem_of_In].
    unfold ikey. rewrite <- Hx. done.
Qed.

(** The loop over the entries of one event. *)
Lemma fake_event_run deis c s :
  foldM fake_event_step c deis s =
  (Ok (c + Z.of_nat
         (length (filter (λ dei, (dei.2, dei.1) ∈ ikey <$> inodes s) deis))),
   set_inodes (flag_named deis) s).
Proof.
  revert c s. induction deis as [|dei deis IH]; intros c s.
  - cbn. rewrite Z.add_0_r. unfold ret. f_equal.
    rewrite <- (set_inodes_id s) at 1. apply set_inodes_ext.
    by rewrite flag_named_nil.
  - cbn [foldM]. unfold bind. rewrite fake_event_step_run, IH.
    rewrite set_inodes_compose. f_equal.
    + f_equal. cbn [inodes set_inodes]. rewrite flag_named_keys.
      rewrite filter_cons. destruct (decide _) as [Hp|Hp].
      * rewrite bool_decide_true by done. cbn [length]. lia.
      * rewrite bool_decide_false by done. lia.
    + apply set_inodes_ext. by rewrite flag_named_app.
Qed.

(** The loop over the events. *)
Lemma fake_updates_fold des faked s :
  foldM fake_updates_step faked des s =
  (Ok (faked + Z.of_nat
         (length (filter (λ de, (1 < length (present (inodes s) de))%nat) des))),
   set_inodes (flag_named (concat (ev_inodes <$> des))) s).
Proof.
  revert faked s. induction des as [|de des IH]; intros faked s.
  - cbn. rewrite Z.add_0_r. unfold ret. f_equal.
    rewrite <- (set_inodes_id s) at 1. apply set_inodes_ext.
    by rewrite flag_named_nil.
  - cbn [foldM]. unfold bind at 1, fake_updates_step, bind at 1.
    rewrite fake_event_run. rewrite Z.add_0_l.
    fold (present (inodes s) de).
    assert (Hrest : ∀ f,
      foldM fake_updates_step f des (set_inodes (flag_named (ev_inodes de)) s)
      = (Ok (f + Z.of_nat (length (filter
               (λ de, (1 < length (present (inodes s) de))%nat) des))),
         set_inodes (flag_named (concat (ev_inodes <$> de :: des))) s)).
    { intros f. rewrite IH, set_inodes_compose. f_equal.
      - cbn [inodes set_inodes]. unfold present.
        by rewrite flag_named_keys.
      - apply set_inodes_ext. cbn [fmap list_fmap concat].
        by rewrite flag_named_app. }
    rewrite filter_cons. destruct (decide _) as [Hp|Hp].
    + rewrite bool_decide_true by lia. unfold ret. rewrite Hrest.
      f_equal. f_equal. cbn [length]. lia.
    + rewrite bool_decide_false by lia. unfold ret. by rewrite Hrest.
Qed.

(** X1: fake_updates never raises and never commits.  It sets has_updates on
    exactly the rows named by the first [max_events] events (all of them
    when the limit is negative) and touches nothing else; the number it
    returns is the number of those events that name more than one row
    present in the table. *)
Theorem fake_updates_flags_named_rows max_events s :
  let des := sql_limit max_events (events s) in
  fake_updates max_events s =
  (Ok (Z.of_nat
         (length (filter (λ de, (1 < length (present (inodes s) de))%nat) des))),
   set_inodes (flag_named (concat (ev_inodes <$> des))) s)
  ∧ (length (filter (λ de, (1 < length (present (inodes s) de))%nat) des)
     ≤ length des)%nat
  ∧ (0 ≤ max_events → (length des ≤ Z.to_nat max_events)%nat)
  ∧ ∀ r, r ∈ flag_named (concat (ev_inodes <$> des)) (inodes s) →
         (named_by des r → has_updates r = true)
         ∧ (¬ named_by des r → r ∈ inodes s).
Proof.
  intros des. split; [|split; [|split]].
  - unfold fake_updates, bind, get. fold des.
    by rewrite fake_updates_fold, Z.add_0_l.
  - apply length_filter.
  - intros Hm. unfold des, sql_limit. rewrite bool_decide_false by lia.
    rewrite length_take. lia.
  - intros r Hr. unfold flag_named in Hr.
    apply list_elem_of_In, in_map_iff in Hr as (r0 & Hr0 & Hin).
    apply list_elem_of_In in Hin. unfold named_by.
    destruct (bool_decide ((ino r0, i_vol r0) ∈ concat (ev_inodes <$> des)))
      eqn:Hd; subst r.
    + split; [done|]. apply bool_decide_eq_true in Hd. intros Hn. by destruct Hn.
    + apply bool_decide_eq_false in Hd. split; [|done]. intros Hn. by destruct Hd.
Qed.

Lemma fake_updates_flags_named_rows_witness :
  (length (sql_limit 1 (events state_with_events)) ≤ Z.to_nat 1)%nat
  ∧ has_updates (mkInode 1 1 50 true) = true
  ∧ mkInode 1 3 50 false ∈ inodes state_with_events.
Proof.
  destruct (fake_updates_flags_named_rows 1 state_with_events)
    as (_ & _ & H3 & H4).
  split; [apply H3; lia|].
  split.
  - apply (H4 (mkInode 1 1 50 true)).
    + apply list_elem_of_In. vm_compute. tauto.
    + apply list_elem_of_In. vm_compute. tauto.
  - apply (H4 (mkInode 1 3 50 false)).
    + apply list_elem_of_In. vm_compute. tauto.
    + intros Hn. apply list_elem_of_In in Hn. vm_compute in Hn.
      destruct Hn as [Hn|[Hn|[]]]; discriminate.
Defined.

(** ** Frames: what a computation leaves alone *)

Lemma steps_commit R :
  (∀ s, R s (emit (Commit (synchronous s)) s)) → steps R commit.
Proof. intros H s. apply H. Qed.

Ltac steps_prims :=
  unfold tell_, notify, sess_delete, execute, skip, add_gain1, add_gain2,
    add_gain3, please_checkpoint, checkpointer_close, update_clear, reflag,
    Scanner.write_row, Scanner.get_or_create, inode_scalar.

Ltac steps_with tac :=
  repeat first
    [ steps_step
    | progress steps_prims
    | apply steps_commit; intros ?
    | apply steps_modify; intros ? ];
  tac.

#[global] Instance traces_preorder P : PreOrder (traces P).
Proof.
  split.
  - intros s. exists []. by rewrite app_nil_r.
  - intros s1 s2 s3 (l1 & H1 & P1) (l2 & H2 & P2). exists (l1 ++ l2).
    rewrite H2, H1, app_assoc. split; [done|]. by apply Forall_app.
Qed.

Lemma traces_emit (P : action → Prop) a s : P a → traces P s (emit a s).
Proof. intros Ha. exists [a]. split; [done|]. by repeat constructor. Qed.

Lemma traces_same (P : action → Prop) s s' :
  trace s' = trace s → traces P s s'.
Proof. intros H. exists []. by rewrite app_nil_r. Qed.

Ltac traces_tac :=
  first [ apply traces_emit; cbn; tauto
        | apply traces_same; reflexivity
        | apply traces_same; by destruct_all state ].


(** ** The scanner: what a scan changes *)

#[global] Instance quiet_preorder : PreOrder quiet.
Proof.
  split.
  - intros s. split; [done|reflexivity].
  - intros s1 s2 s3 [H1 T1] [H2 T2]. split; [congruence|by etrans].
Qed.

#[global] Instance scanned_preorder vol : PreOrder (scanned vol).
Proof.
  split.
  - intros s. repeat split; auto.
  - intros s1 s2 s3 (F1 & R1 & E1) (F2 & R2 & E2).
    split; [congruence|]. split; [|congruence].
    intros r Hr. destruct (R2 r Hr) as [H|H]; [|by right]. by apply R1.
Qed.

Lemma scanned_same_tables vol s s' :
  inodes s' = inodes s → events s' = events s → scanned vol s s'.
Proof. intros Hi He. unfold scanned. rewrite Hi. repeat split; auto. Qed.

Lemma scanned_delete vol i s :
  i_vol i = vol_id vol →
  scanned vol s (set_inodes (filter (λ r, ikey r ≠ ikey i)) s).
Proof.
  intros Hv. split; [|split; [|by destruct s]].
  - cbn [inodes set_inodes]. rewrite list_filter_filter.
    apply list_filter_iff. intros r. split; [tauto|].
    intros Hr. split; [done|]. unfold ikey. intros Heq.
    injection Heq as H1 H2. congruence.
  - intros r Hr. left. cbn in Hr. by apply list_elem_of_filter in Hr as [_ Hr].
Qed.

Section ScanFacts.
Import Scanner.
Context (SE : ScanEnv).

(** get_or_create followed by the two assignments, in closed form. *)
Lemma upsert_run {A} vol i sz (k : Inode → bool → M A) s :
  (let! (inode, inode_created) := get_or_create vol i in
   write_row (assign inode sz true) >> k inode inode_created) s
  = match List.find (λ r, bool_decide (ikey r = (vol_id vol, i))) (inodes s) with
    | Some r => k r false (set_inodes (upserted vol i sz) s)
    | None =>
        k (mkInode (vol_id vol) i 0 false) true
          (set_inodes (upserted vol i sz) s)
    end.
Proof.
  unfold get_or_create, bind at 1, bind at 1, get.
  destruct (List.find _ (inodes s)) as [r|] eqn:Hf.
  - cbn [ret]. unfold bind at 1, write_row, modify. f_equal.
    apply set_inodes_ext. unfold upserted. rewrite Hf.
    apply map_ext. intros r'. unfold same_row.
    by destruct (bool_decide _).
  - unfold bind at 1, modify at 1. cbn [ret].
    unfold bind at 1, write_row, modify. rewrite set_inodes_compose.
    f_equal. apply set_inodes_ext. unfold upserted. rewrite Hf.
    rewrite map_app. f_equal.
    + rewrite <- (map_id (inodes s)) at 2. apply map_ext_in. intros r Hr.
      unfold same_row. rewrite bool_decide_false; [done|].
      apply find_key_none in Hf. intros Hk. apply Hf.
      apply list_elem_of_fmap. exists r. split; [|by apply list_elem_of_In].
      by rewrite Hk.
    + cbn. unfold same_row. by rewrite bool_decide_true.
Qed.

Lemma upserted_scanned vol i sz s :
  size_cutoff vol ≤ sz →
  scanned vol s (set_inodes (upserted vol i sz) s).
Proof.
  intros Hsz. split; [|split; [|by destruct s]]; cbn [inodes set_inodes].
  - unfold upserted.
    destruct (List.find _ (inodes s)) as [r0|] eqn:Hf.
    + apply find_key_in in Hf as [_ Hk].
      induction (inodes s) as [|r tbl IH]; [done|].
      cbn [map]. rewrite !filter_cons.
      destruct (same_row r r0) eqn:Hr; unfold same_row in Hr.
      * apply bool_decide_eq_true in Hr. rewrite Hk in Hr.
        assert (i_vol r = vol_id vol) by (unfold ikey in Hr; congruence).
        assert (i_vol (assign r0 sz true) = vol_id vol)
          by (unfold ikey in Hk; cbn; congruence).
        rewrite !decide_False by tauto. exact IH.
      * destruct (decide (i_vol r ≠ vol_id vol)); by rewrite IH.
    + rewrite filter_app. cbn [filter list_filter].
      rewrite decide_False by (cbn; tauto). by rewrite app_nil_r.
  - intros r Hr. unfold upserted in Hr.
    destruct (List.find _ (inodes s)) as [r0|] eqn:Hf.
    + apply find_key_in in Hf as [_ Hk].
      apply list_elem_of_In, in_map_iff in Hr as (r1 & Hr1 & Hin).
      unfold same_row in Hr1. destruct (bool_decide _); subst r.
      * right. unfold ikey in Hk. cbn. repeat split; [congruence|done].
      * left. by apply list_elem_of_In.
    + apply elem_of_app in Hr as [Hr|Hr]; [by left|].
      apply list_elem_of_singleton in Hr as ->. right. by repeat split.
Qed.

Lemma scan_item_scanned vol mg sh : steps (scanned vol) (scan_item SE vol mg sh).
Proof.
  intros s. unfold scan_item.
  case_bool_decide as Hty; [|reflexivity].
  case_bool_decide as Hsz; [reflexivity|].
  destruct (already_tracked _ _ _ _); [reflexivity|].
  destruct (S_ISREG _); cbn [negb]; [|reflexivity].
  rewrite upsert_run.
  assert (Hup := upserted_scanned vol (objectid sh) (size (item sh)) s
                   ltac:(lia)).
  destruct (List.find _ (inodes s)) as [r0|] eqn:Hf.
  - apply find_key_in in Hf as [_ Hk].
    destruct (lookup_ino_path_one SE (objectid sh)) as [p|e].
    + destruct (decode SE p); cbn; [|done].
      etrans; [exact Hup|]. by apply scanned_same_tables.
    + cbn. etrans; [exact Hup|]. etrans.
      * apply (scanned_same_tables vol _ (emit (Notify
          (Error_at_path_lookup (objectid sh) e))
          (set_inodes (upserted vol (objectid sh) (size (item sh))) s)));
          reflexivity.
      * apply scanned_delete. unfold ikey in Hk. congruence.
  - destruct (lookup_ino_path_one SE (objectid sh)) as [p|e].
    + destruct (decode SE p); cbn; [|done].
      etrans; [exact Hup|]. by apply scanned_same_tables.
    + cbn. etrans; [exact Hup|]. etrans.
      * apply (scanned_same_tables vol _ (emit (Notify
          (Error_at_path_lookup (objectid sh) e))
          (set_inodes (upserted vol (objectid sh) (size (item sh))) s)));
          reflexivity.
      * by apply scanned_delete.
Qed.

Lemma search_loop_steps R `{!PreOrder R} fuel vol mg sk :
  (∀ sh, steps R (scan_item SE vol mg sh)) →
  steps R (search_loop SE fuel vol mg sk).
Proof.
  intros Hitem. revert sk. induction fuel as [|fuel IH]; intros sk; cbn [search_loop].
  - apply steps_raise; apply _.
  - destruct (BTRFS_IOC_TREE_SEARCH SE sk) as [e|items].
    + apply steps_raise; apply _.
    + destruct (last items); [|apply steps_ret; apply _].
      apply steps_bind; [apply _| |intros _; apply IH].
      apply steps_for; [apply _|]. intros sh. apply Hitem.
Qed.

Lemma scan_item_quiet vol mg sh : steps quiet (scan_item SE vol mg sh).
Proof.
  unfold scan_item. steps_with idtac.
  all: split; [reflexivity|]; traces_tac.
Qed.

(** X4: A scan commits once, as its last action, when it returns, and not at
    all when it raises; it never changes the synchronous mode. *)
Theorem scan_commits_only_on_success fuel vol s :
  match track_updated_files SE fuel vol s with
  | (Ok _, s') =>
      ∃ l, trace s' = trace s ++ l ++ [Commit (synchronous s)]
           ∧ Forall not_commit l
  | (Raise _, s') =>
      ∃ l, trace s' = trace s ++ l ∧ Forall not_commit l
  end.
Proof.
  unfold track_updated_files. case_bool_decide.
  - cbn. eexists [_]. split; [by rewrite <- app_assoc|]. by repeat constructor.
  - unfold bind at 1, notify at 1, tell_ at 1, modify at 1.
    unfold bind at 1.
    pose proof (search_loop_steps quiet fuel vol (min_generation vol)
      (mkKey 0 0 u64_max 0 u64_max (min_generation vol) u64_max 0
         BTRFS_INODE_ITEM_KEY 4096) (scan_item_quiet vol (min_generation vol))
      (emit (Notify (Scanning_volume (min_generation vol)
               (get_root_generation SE) (size_cutoff vol))) s))
      as [Hsync (l & Hl & HP)].
    destruct (search_loop _ _ _ _ _ _) as [[[]|e] s1]; cbn in *.
    + exists (Notify (Scanning_volume (min_generation vol)
                 (get_root_generation SE) (size_cutoff vol)) :: l).
      rewrite Hl, Hsync. split.
      * by rewrite <- !app_assoc.
      * by constructor.
    + exists (Notify (Scanning_volume (min_generation vol)
                 (get_root_generation SE) (size_cutoff vol)) :: l).
      rewrite Hl. split; [by rewrite <- !app_assoc|by constructor].
Qed.

(** X5: When the path lookup of an item that passed the filters fails with an
    I/O error, the error is notified and no row of that (vol, ino) is left
    in the table, whether the row was there before the scan or not. *)
Theorem scan_item_lookup_error_removes_row vol min_generation sh s e :
  type sh = BTRFS_INODE_ITEM_KEY →
  size_cutoff vol ≤ size (item sh) →
  already_tracked vol min_generation (generation (item sh)) (size (item sh))
    = false →
  S_ISREG (mode (item sh)) = true →
  lookup_ino_path_one SE (objectid sh) = LookupErr e →
  ∃ s', scan_item SE vol min_generation sh s = (Ok tt, s')
        ∧ (∀ r, r ∈ inodes s' → ikey r ≠ (vol_id vol, objectid sh))
        ∧ trace s'
          = trace s ++ [Notify (Error_at_path_lookup (objectid sh) e)].
Proof.
  intros Hty Hsz Hgen Hreg Hlk. unfold scan_item.
  rewrite bool_decide_true by done. rewrite bool_decide_false by lia.
  rewrite Hgen, Hreg. cbn [negb]. rewrite upsert_run, Hlk.
  destruct (List.find _ (inodes s)) as [r0|] eqn:Hf.
  - apply find_key_in in Hf as [_ Hk]. eexists. split; [reflexivity|].
    split; [|by destruct s]. cbn. intros r Hr.
    apply list_elem_of_filter in Hr as [Hr _]. by rewrite <- Hk.
  - eexists. split; [reflexivity|]. split; [|by destruct s]. cbn.
    intros r Hr. by apply list_elem_of_filter in Hr as [Hr _].
Qed.
End ScanFacts.

(** X3: A scan of [vol], whether it returns or raises, leaves every row of
    the other volumes in place and in order, logs no event, and any row
    it leaves in the table that was not there before belongs to [vol], is
    at least as large as the cutoff and has has_updates set. *)
Theorem scan_touches_only_its_volume SE fuel vol s :
  let s' := (Scanner.track_updated_files SE fuel vol s).2 in
  filter (λ r, i_vol r ≠ vol_id vol) (inodes s')
  = filter (λ r, i_vol r ≠ vol_id vol) (inodes s)
  ∧ (∀ r, r ∈ inodes s' →
          r ∈ inodes s
          ∨ (i_vol r = vol_id vol ∧ size_cutoff vol ≤ size r
             ∧ has_updates r = true))
  ∧ events s' = events s.
Proof.
  cbn zeta. change (scanned vol s (Scanner.track_updated_files SE fuel vol s).2).
  revert s. change (steps (scanned vol) (Scanner.track_updated_files SE fuel vol)).
  unfold Scanner.track_updated_files. case_bool_decide.
  - steps_with idtac; by apply scanned_same_tables.
  - apply steps_bind; [apply _| |intros _].
    { steps_with idtac. by apply scanned_same_tables. }
    apply steps_bind; [apply _| |intros _].
    { apply search_loop_steps; [apply _|]. apply scan_item_scanned. }
    steps_with idtac. by apply scanned_same_tables.
Qed.


Lemma scan_item_lookup_error_removes_row_witness :
  ∃ s', Scanner.scan_item scan_env_unreadable volA 0
          (Scanner.mkHeader 5 257 0 1 (Scanner.mkItem 5 4096 33188))
          (state0 [mkInode 1 257 100 false]) = (Ok tt, s')
        ∧ (∀ r, r ∈ inodes s' → ikey r ≠ (1, 257))
        ∧ trace s' = [] ++ [Notify (Error_at_path_lookup 257 5)].
Proof.
  apply (scan_item_lookup_error_removes_row scan_env_unreadable volA 0
           (Scanner.mkHeader 5 257 0 1 (Scanner.mkItem 5 4096 33188))
           (state0 [mkInode 1 257 100 false]) 5); try reflexivity.
  vm_compute. discriminate.
Defined.

(** ** reset_vol *)

(** X2: reset_vol deletes the rows of the volume and no other, keeps the
    event log, commits, and zeroes last_tracked_generation while keeping
    last_tracked_size_cutoff.  For the scan that follows, the lower
    generation bound is therefore at most 1 and the generation test
    rejects no inode item of generation 1 or more. *)
Theorem reset_vol_forgets_the_volume vol s :
  ∃ vol' s',
    reset_vol vol s = (Ok vol', s')
    ∧ (∀ r, r ∈ inodes s' ↔ r ∈ inodes s ∧ i_vol r ≠ vol_id vol)
    ∧ events s' = events s
    ∧ trace s' = trace s ++ [Commit (synchronous s)]
    ∧ last_tracked_generation vol' = 0
    ∧ last_tracked_size_cutoff vol' = last_tracked_size_cutoff vol
    ∧ size_cutoff vol' = size_cutoff vol
    ∧ 0 ≤ Scanner.min_generation vol' ≤ 1
    ∧ ∀ inode_gen sz, 1 ≤ inode_gen →
        Scanner.already_tracked vol' (Scanner.min_generation vol') inode_gen sz
        = false.
Proof.
  eexists _, _. split; [reflexivity|]. cbn.
  split; [|split; [done|split; [done|split; [done|split; [done|split; [done|]]]]]].
  - intros r. rewrite list_elem_of_filter. tauto.
  - assert (Hmg : 0 ≤ Scanner.min_generation
             (mkVolume (vol_id vol) (vol_fs vol) (st_dev vol) (size_cutoff vol)
                0 (last_tracked_size_cutoff vol)) ≤ 1).
    { unfold Scanner.min_generation. cbn.
      destruct (last_tracked_size_cutoff vol); [case_bool_decide|]; lia. }
    split; [exact Hmg|]. intros g sz Hg.
    unfold Scanner.already_tracked. cbn [last_tracked_size_cutoff
      last_tracked_generation].
    destruct (last_tracked_size_cutoff vol) as [c|].
    + destruct (_ && _); apply bool_decide_eq_false; lia.
    + apply bool_decide_eq_false; lia.
Qed.

Lemma reset_vol_forgets_the_volume_witness :
  Scanner.already_tracked (mkVolume 1 1 5 10 0 (Some 10))
    (Scanner.min_generation (mkVolume 1 1 5 10 0 (Some 10))) 1 4096 = false.
Proof.
  destruct (reset_vol_forgets_the_volume volA_scanned (state0 two_duplicates))
    as (vol' & s' & Hrun & _ & _ & _ & _ & _ & _ & _ & H).
  injection Hrun as <- _. apply H. lia.
Defined.

(** ** Frames of a whole pass *)

Section GeneratorSteps.
Context (R : relation state) `{!PreOrder R}.

Lemma yield_each_steps body groups s :
  (∀ g, steps R (body g)) → R s (yield_each body groups s).2.2.
Proof.
  intros Hb. revert s. induction groups as [|g groups IH]; intros s;
    cbn [yield_each]; [reflexivity|].
  pose proof (Hb g s) as Hg.
  destruct (body g s) as [[[]|e] s1]; cbn [snd] in *; [|done].
  specialize (IH s1). destruct (yield_each body groups s1) as [ys r].
  cbn [snd] in *. by etrans.
Qed.

Lemma iter_windows_steps E q fuel body ws s :
  (∀ g, steps R (body g)) →
  (∀ ws we, steps R (clear_updates E q ws we)) →
  R s (iter_windows E q fuel body ws s).2.2.
Proof.
  intros Hb Hc. revert ws s. induction fuel as [|fuel IH]; intros ws s;
    cbn [iter_windows]; [reflexivity|].
  destruct (window_select q (inodes s) ws) as [|li0 li].
  - pose proof (Hc ws 0 s) as H0.
    by destruct (clear_updates E q ws 0 s) as [[[]|e] s1].
  - pose proof (yield_each_steps body (window_groups q (inodes s) (li0 :: li)) s Hb)
      as Hy.
    destruct (yield_each body _ s) as [ys [[[]|e] s1]]; cbn [snd] in *; [|done].
    match goal with
    | |- context [clear_updates E q ?a ?b s1] =>
        pose proof (Hc a b s1) as H1;
        destruct (clear_updates E q a b s1) as [[[]|e] s2]; cbn [snd] in *
    end.
    + match goal with
      | |- context [iter_windows E q fuel body ?w s2] =>
          specialize (IH w s2);
          destruct (iter_windows E q fuel body w s2) as [ys' r]
      end.
      cbn [snd] in *. etrans; [exact Hy|]. by etrans.
    + by etrans.
Qed.

Lemma dedup_tracked_steps E fuel volset s :
  (∀ vol0 r h g, head volset = Some vol0 →
     steps R (dedup_group E (vol_fs vol0) r h g)) →
  (∀ q ws we, steps R (clear_updates E q ws we)) →
  (∀ s, R s (iter_prologue s)) →
  (∀ s soft, R s (set_gains 0 0 0 (set_ofile_soft soft s))) →
  (∀ s a, R s (emit a s)) →
  (∀ s, R s (set_skipped (λ _, []) s)) →
  R s (dedup_tracked E fuel volset s).2.2.
Proof.
  intros Hg Hc Hp Hl He Hs. unfold dedup_tracked.
  destruct volset as [|vol0 rest]; [reflexivity|].
  destruct (forallb _ _); [|reflexivity].
  unfold dedup_tracked_checked, WindowedQuery_len.
  cbn -[selectable WindowedQuery_iter].
  destruct (length _).
  { cbn. etrans; [apply Hs|apply He]. }
  unfold dedup_tracked1. destruct (getrlimit_OFILE E) as [soft hard].
  rewrite WindowedQuery_iter_unfold. cbn zeta.
  match goal with
  | |- context [iter_windows E ?q fuel ?b ?w ?t] =>
      pose proof (iter_windows_steps E q fuel b w t
                    (λ g, Hg vol0 _ _ g eq_refl) (Hc q)) as Hit;
      destruct (iter_windows E q fuel b w t) as [ys [[x|e] s1]]
  end; cbn [snd] in *.
  - etrans; [apply Hs|]. etrans; [apply Hl|]. etrans; [apply Hp|].
    etrans; [exact Hit|]. etrans; [apply He|apply He].
  - etrans; [apply Hs|]. etrans; [apply Hl|]. etrans; [apply Hp|]. exact Hit.
Qed.
End GeneratorSteps.

(** *** The Inode table only shrinks *)

#[global] Instance table_shrinks_preorder : PreOrder table_shrinks.
Proof.
  split.
  - intros s. unfold table_shrinks. reflexivity.
  - intros s1 s2 s3. unfold table_shrinks. intros H1 H2. by etrans.
Qed.

Lemma table_shrinks_same s s' : inodes s' = inodes s → table_shrinks s s'.
Proof. unfold table_shrinks. by intros ->. Qed.

Lemma table_shrinks_filter P `{!∀ r, Decision (P r)} s :
  table_shrinks s (set_inodes (filter P) s).
Proof.
  unfold table_shrinks. cbn. apply fmap_sublist, sublist_filter.
Qed.

Lemma table_shrinks_map f s :
  (∀ r, row_id (f r) = row_id r) → table_shrinks s (set_inodes (map f) s).
Proof.
  intros Hf. unfold table_shrinks. cbn.
  replace (row_id <$> map f (inodes s)) with (row_id <$> inodes s); [done|].
  induction (inodes s) as [|r l IH]; [done|]. cbn. by rewrite Hf, IH.
Qed.

Ltac shrinks_tac :=
  first
    [ apply table_shrinks_same; reflexivity
    | apply table_shrinks_filter
    | apply table_shrinks_map; intros ?;
      repeat match goal with |- context [if ?b then _ else _] => destruct b end;
      reflexivity ].

Lemma dedup_group_shrinks E fs r h g :
  steps table_shrinks (dedup_group E fs r h g).
Proof.
  unfold dedup_group, dedup_partition, open_and_share, hash_and_share,
    ofile_budget, stage2_step, stage3_step, stage4_step, stage5_step,
    stage6_fileset, stage6_step, event_inode.
  steps_with idtac. all: shrinks_tac.
Qed.

Lemma clear_updates_shrinks E q ws we :
  steps table_shrinks (clear_updates E q ws we).
Proof.
  unfold clear_updates, chained_comparison, py_and.
  steps_with idtac. all: shrinks_tac.
Qed.

(** X6: A pass of dedup_tracked, however it ends, inserts no Inode row and
    changes neither the key nor the size of any row: the keys and sizes in
    the table afterwards are, in order, among those before. *)
Theorem dedup_tracked_only_removes_rows E fuel volset s :
  row_id <$> inodes (dedup_tracked E fuel volset s).2.2
    `sublist_of` row_id <$> inodes s.
Proof.
  change (table_shrinks s (dedup_tracked E fuel volset s).2.2).
  apply dedup_tracked_steps; try apply _; intros.
  - apply dedup_group_shrinks.
  - apply clear_updates_shrinks.
  - by apply table_shrinks_same.
  - by apply table_shrinks_same.
  - by apply table_shrinks_same.
  - by apply table_shrinks_same.
Qed.

(** *** The event log only grows *)

#[global] Instance logs_preorder P : PreOrder (logs P).
Proof.
  split.
  - intros s. exists []. by rewrite app_nil_r.
  - intros s1 s2 s3 (n1 & H1 & P1) (n2 & H2 & P2). exists (n1 ++ n2).
    rewrite H2, H1, app_assoc. split; [done|]. by apply Forall_app.
Qed.

Lemma logs_same P s s' : events s' = events s → logs P s s'.
Proof. intros H. exists []. by rewrite app_nil_r. Qed.

Lemma mapM_length {A B} (f : A → M B) l s ys s' :
  mapM f l s = (Ok ys, s') → length ys = length l.
Proof.
  revert s ys. induction l as [|x l IH]; intros s ys; cbn [mapM].
  - unfold ret. intros H. by injection H as <- _.
  - unfold bind at 1. destruct (f x s) as [[y|e] s1]; [|discriminate].
    unfold bind at 1. destruct (mapM f l s1) as [[ys0|e] s2] eqn:Hm;
      [|discriminate].
    unfold ret. intros H. injection H as <- <-. cbn. f_equal. by eapply IH.
Qed.

Ltac logs_tac := apply logs_same; reflexivity.

Lemma stage6_fileset_logs E fs size o fileset :
  steps (logs (pair_event fs)) (stage6_fileset E fs size o fileset).
Proof.
  intros s. unfold stage6_fileset.
  destruct fileset as [|sfile [|d dfiles]]; [reflexivity|reflexivity|].
  unfold bind at 1.
  assert (Hfold : steps (logs (pair_event fs))
            (foldM (stage6_step E o sfile) [] (d :: dfiles))).
  { unfold stage6_step. steps_with idtac. all: logs_tac. }
  specialize (Hfold s).
  destruct (foldM (stage6_step E o sfile) [] (d :: dfiles) s)
    as [[succ|e] s1]; cbn [snd] in *; [|done].
  destruct succ as [|c succ]; [done|].
  unfold bind at 1.
  assert (Hmap : steps (logs (pair_event fs))
            (mapM (event_inode o) (sfile :: c :: succ))).
  { unfold event_inode. steps_with idtac. }
  specialize (Hmap s1).
  destruct (mapM (event_inode o) (sfile :: c :: succ) s1)
    as [[evtis|e] s2] eqn:Hm; cbn [snd] in *; [|by etrans].
  apply mapM_length in Hm. cbn.
  etrans; [exact Hfold|]. etrans; [exact Hmap|].
  exists [mkDedupEvent fs size evtis]. split; [done|].
  repeat constructor. cbn in *. lia.
Qed.

Lemma dedup_group_logs E fs r h g :
  steps (logs (pair_event fs)) (dedup_group E fs r h g).
Proof.
  unfold dedup_group, dedup_partition, open_and_share, hash_and_share,
    ofile_budget, stage2_step, stage3_step, stage4_step, stage5_step.
  repeat first
    [ apply stage6_fileset_logs
    | steps_step
    | progress steps_prims
    | apply steps_commit; intros ?
    | apply steps_modify; intros ? ].
  all: logs_tac.
Qed.

Lemma clear_updates_logs P E q ws we : steps (logs P) (clear_updates E q ws we).
Proof.
  unfold clear_updates, chained_comparison, py_and.
  steps_with idtac. all: logs_tac.
Qed.

(** X7: A pass of dedup_tracked, however it ends, only appends to the
    DedupEvent log, and every event it appends carries the filesystem of
    the first volume of the volset and at least two inodes. *)
Theorem dedup_tracked_appends_pair_events E fuel volset s :
  ∃ new,
    events (dedup_tracked E fuel volset s).2.2 = events s ++ new
    ∧ Forall (λ ev, (2 ≤ length (ev_inodes ev))%nat
                    ∧ ∃ vol0, head volset = Some vol0
                              ∧ ev_fs ev = vol_fs vol0) new.
Proof.
  destruct volset as [|vol0 rest].
  { exists []. by rewrite app_nil_r. }
  assert (H : logs (pair_event (vol_fs vol0)) s
                (dedup_tracked E fuel (vol0 :: rest) s).2.2).
  { apply dedup_tracked_steps; try apply _; intros.
    - match goal with H : head _ = Some _ |- _ => injection H as <- end.
      apply dedup_group_logs.
    - apply clear_updates_logs.
    - by apply logs_same.
    - by apply logs_same.
    - by apply logs_same.
    - by apply logs_same. }
  destruct H as (new & Hnew & HP). exists new. split; [done|].
  eapply Forall_impl; [exact HP|]. intros ev [Hfs Hlen]. eauto.
Qed.

(** ** The loop of __iter__ terminates *)

Lemma sublist_filter_mono {A} (P : A → Prop) `{!∀ x, Decision (P x)} l1 l2 :
  l1 `sublist_of` l2 → filter P l1 `sublist_of` filter P l2.
Proof.
  induction 1 as [|x l1 l2 Hs IH|x l1 l2 Hs IH]; [constructor| |].
  - rewrite !filter_cons. destruct (decide (P x)); [by constructor|done].
  - rewrite filter_cons. destruct (decide (P x)); [by constructor|done].
Qed.

Lemma length_filter_row_id (Q : Z → Prop) `{!∀ x, Decision (Q x)} tbl :
  length (filter (λ i, Q (size i)) tbl)
  = length (filter (λ p : Z * Z * Z, Q p.2) (row_id <$> tbl)).
Proof.
  induction tbl as [|r tbl IH]; [done|].
  rewrite fmap_cons, !filter_cons. cbn [row_id snd].
  destruct (decide (Q (size r))); cbn [length]; by rewrite IH.
Qed.

Lemma rows_below_size ws tbl :
  rows_below ws tbl
  = length (filter (λ i, below ws (size i)) tbl).
Proof.
  unfold rows_below. f_equal. apply list_filter_iff. intros i.
  destruct ws as [w|]; cbn; [|split; [discriminate|done]].
  by rewrite bool_decide_eq_true.
Qed.

Lemma rows_below_mono ws s s' :
  table_shrinks s s' → (rows_below ws (inodes s') ≤ rows_below ws (inodes s))%nat.
Proof.
  intros H. rewrite !rows_below_size.
  rewrite !(length_filter_row_id (below ws)).
  apply sublist_length, sublist_filter_mono, H.
Qed.

Lemma rows_below_strict ws we tbl i :
  i ∈ tbl → size i = we → below ws we →
  (rows_below (Some (we - 1)%Z) tbl < rows_below ws tbl)%nat.
Proof.
  intros Hi Hsz Hb. rewrite !rows_below_size.
  assert (Heq : filter (λ i, below (Some (we - 1)) (size i)) tbl
                = filter (λ i, below (Some (we - 1)) (size i))
                    (filter (λ i, below ws (size i)) tbl)).
  { rewrite list_filter_filter. apply list_filter_iff. intros r.
    split; [|tauto]. intros H. split; [done|].
    destruct ws as [w|]; cbn in *; [lia|done]. }
  rewrite Heq. apply (length_filter_lt _ _ i).
  - apply list_elem_of_filter. by rewrite Hsz.
  - cbn. lia.
Qed.

Lemma window_select_row q tbl ws r :
  r ∈ window_select q tbl ws → ∃ i, i ∈ tbl ∧ size i = sr_size r.
Proof.
  unfold window_select. intros H. apply elem_of_take_inv in H.
  rewrite merge_sort_Permutation in H.
  apply list_elem_of_filter in H as [_ H].
  apply group_by_size_sizes in H as (i & Hi & Hsz).
  apply list_elem_of_filter in Hi as [_ Hi].
  apply list_elem_of_filter in Hi as [_ Hi]. eauto.
Qed.

Lemma last_elem_of {A} (l : list A) d : l ≠ [] → List.last l d ∈ l.
Proof.
  intros Hne. destruct (exists_last Hne) as (l' & a & ->).
  rewrite last_last. apply elem_of_app. right. by left.
Qed.

Lemma iter_windows_fuel E q body fuel ws s ys e s' :
  (∀ g, steps table_shrinks (body g)) →
  (∀ g, raises_in not_fuel (body g)) →
  (rows_below ws (inodes s) < fuel)%nat →
  iter_windows E q fuel body ws s = (ys, (Raise e, s')) → not_fuel e.
Proof.
  intros Hsh Hrb. revert ws s ys.
  induction fuel as [|fuel IH]; intros ws s ys Hm; [lia|].
  cbn [iter_windows].
  assert (Hcl : ∀ a b, raises_in not_fuel (clear_updates E q a b)).
  { intros a b. unfold clear_updates, chained_comparison, py_and. raises. }
  destruct (window_select q (inodes s) ws) as [|li0 li] eqn:Hli.
  - destruct (clear_updates E q ws 0 s) as [[[]|e0] s0] eqn:Hc; [discriminate|].
    intros H. inversion H; subst. by eapply Hcl.
  - pose proof (yield_each_steps table_shrinks body
                  (window_groups q (inodes s) (li0 :: li)) s Hsh) as Hy.
    destruct (yield_each body _ s) as [ys0 [[[]|e0] s1]] eqn:Hye; cbn [snd] in Hy.
    + pose proof (clear_updates_shrinks E q (Some (sr_size li0))
                    (sr_size (List.last (li0 :: li) li0)) s1) as Hc1.
      destruct (clear_updates E q _ _ s1) as [[[]|e1] s2] eqn:Hc; cbn [snd] in Hc1.
      * destruct (iter_windows E q fuel body _ s2) as [ys' r] eqn:Hit.
        intros H. inversion H; subst.
        eapply (IH _ s2 ys'); [|exact Hit].
        assert (Hlast : List.last (li0 :: li) li0 ∈ window_select q (inodes s) ws).
        { rewrite Hli. by apply last_elem_of. }
        destruct (window_select_row _ _ _ _ Hlast) as (i & Hi & Hsz).
        pose proof (window_select_below _ _ _ _ Hlast) as Hb.
        pose proof (rows_below_strict ws _ (inodes s) i Hi Hsz Hb) as Hlt.
        pose proof (rows_below_mono
                      (Some (sr_size (List.last (li0 :: li) li0) - 1)) s s2
                      ltac:(by etrans)) as Hle.
        lia.
      * intros H. inversion H; subst. by eapply Hcl.
    + intros H. inversion H; subst.
      eapply (yield_each_raises body not_fuel); [exact Hrb|exact Hye].
Qed.

Lemma dedup_group_not_fuel E fs r h g :
  raises_in not_fuel (dedup_group E fs r h g).
Proof.
  unfold dedup_group, dedup_partition, open_and_share, hash_and_share,
    ofile_budget, stage2_step, stage3_step, stage4_step, stage5_step,
    stage6_fileset, stage6_step, event_inode.
  raises.
Qed.

(** X8: The [while True] loop of __iter__ comes to its [return]: each turn
    lowers window_start below the size of a row that is still in the
    table, and the pass adds no rows, so more turns than there are rows
    are never needed.  With fuel above the number of rows dedup_tracked
    never ends for want of fuel. *)
Theorem dedup_tracked_terminates E fuel volset s ys e s' :
  (length (inodes s) < fuel)%nat →
  dedup_tracked E fuel volset s = (ys, (Raise e, s')) →
  e ≠ FuelExhausted.
Proof.
  intros Hfuel. unfold dedup_tracked.
  destruct volset as [|vol0 rest]; [intros H; by inversion H|].
  destruct (forallb _ _); [|intros H; by inversion H].
  unfold dedup_tracked_checked, WindowedQuery_len.
  cbn -[selectable WindowedQuery_iter].
  destruct (length (selectable _ _)); [discriminate|].
  unfold dedup_tracked1. destruct (getrlimit_OFILE E) as [soft hard].
  rewrite WindowedQuery_iter_unfold. cbn zeta.
  match goal with
  | |- context [iter_windows E ?q fuel ?b ?w ?t] =>
      destruct (iter_windows E q fuel b w t) as [ys0 [[x|e0] s1]] eqn:Hit
  end; [discriminate|].
  intros H. inversion H; subst.
  eapply iter_windows_fuel; [| | |exact Hit].
  - intros g. apply dedup_group_shrinks.
  - intros g. apply dedup_group_not_fuel.
  - unfold rows_below. cbn [inodes iter_prologue set_cp emit set_synchronous
      set_gains set_ofile_soft set_skipped].
    eapply Nat.le_lt_trans; [apply length_filter|exact Hfuel].
Qed.

Lemma dedup_tracked_terminates_witness :
  (dedup_tracked env_differ 4 [volA] (state0 three_duplicates)).2.1
  ≠ Raise FuelExhausted.
Proof.
  destruct (dedup_tracked env_differ 4 [volA] (state0 three_duplicates))
    as [ys [[x|e] s']] eqn:Hrun; [discriminate|].
  intros H. injection H as ->.
  by apply (dedup_tracked_terminates env_differ 4 [volA]
              (state0 three_duplicates) ys FuelExhausted s'
              ltac:(cbn; lia) Hrun).
Defined.

(** ** Every yielded group is eligible *)

Lemma groupby_head {A} (key : A → Z) x l k g rest :
  groupby key (x :: l) = (k, g) :: rest → k = key x.
Proof.
  cbn [groupby]. destruct (groupby key l) as [|[k0 g0] rest0].
  - intros H. by injection H as <- _ _.
  - case_bool_decide as Hk; intros H; injection H as <- _ _; done.
Qed.

Lemma groupby_nil_inv {A} (key : A → Z) l : groupby key l = [] → l = [].
Proof.
  destruct l as [|x l]; [done|]. cbn [groupby].
  destruct (groupby key l) as [|[k0 g0] rest0]; [done|].
  by case_bool_decide.
Qed.

Lemma filter_none {A} (P : A → Prop) `{!∀ x, Decision (P x)} l :
  (∀ x, x ∈ l → ¬ P x) → filter P l = [].
Proof.
  induction l as [|x l IH]; intros Hn; [done|].
  rewrite filter_cons, decide_False by (apply Hn; by left).
  apply IH. intros y Hy. apply Hn. by right.
Qed.

(** On a list sorted by decreasing key, each group of itertools.groupby
    is made of all the elements with its key. *)
Lemma groupby_filter {A} (key : A → Z) l k g :
  StronglySorted (λ a b, key b ≤ key a) l →
  (k, g) ∈ groupby key l →
  g = filter (λ x, key x = k) l.
Proof.
  intros Hs. revert k g. induction Hs as [|x l Hl IH Hx]; intros k g.
  - cbn. intros H. by apply not_elem_of_nil in H.
  - pose proof (groupby_keys_decrease key l Hl) as Hdec.
    pose proof (groupby_keys key l) as Hkeys.
    rewrite Forall_forall in Hx.
    cbn [groupby]. destruct (groupby key l) as [|[k0 g0] rest] eqn:Hg.
    + apply groupby_nil_inv in Hg as ->. intros H.
      apply list_elem_of_singleton in H. injection H as -> ->.
      by rewrite filter_cons, decide_True.
    + assert (Hk0 : ∀ y, y ∈ l → key y ≤ k0).
      { destruct l as [|y0 l0]; [done|].
        apply groupby_head in Hg as ->.
        apply StronglySorted_cons in Hl as [Hy0 _].
        rewrite Forall_forall in Hy0.
        intros y Hy. apply elem_of_cons in Hy as [->|Hy]; [lia|by apply Hy0]. }
      assert (Hin0 : k0 ∈ key <$> l).
      { apply Hkeys. cbn. by left. }
      apply list_elem_of_fmap in Hin0 as (y0 & Hy0 & Hy0l).
      cbn [fmap list_fmap fst] in Hdec.
      apply StronglySorted_cons in Hdec as [Hrest _].
      rewrite Forall_forall in Hrest.
      assert (Hk : ∀ k' g', (k', g') ∈ rest → k' < k0).
      { intros k' g' Hin.
        assert (k' ∈ rest.*1)
          by (apply list_elem_of_fmap; exists (k', g'); eauto).
        specialize (Hrest k' ltac:(done)). lia. }
      case_bool_decide as Hxk.
      * intros H. apply elem_of_cons in H as [H|H].
        -- injection H as -> ->. rewrite filter_cons, decide_True by done.
           f_equal. apply IH. by left.
        -- specialize (Hk _ _ H).
           rewrite filter_cons, decide_False by lia. apply IH. by right.
      * assert (Hlt : k0 < key x).
        { specialize (Hx y0 Hy0l). lia. }
        intros H. apply elem_of_cons in H as [H|H].
        -- injection H as -> ->. rewrite filter_cons, decide_True by done.
           f_equal. symmetry. apply filter_none.
           intros y Hy. specialize (Hk0 y Hy). lia.
        -- assert (k ≤ k0).
           { apply elem_of_cons in H as [H|H].
             - injection H as -> _. lia.
             - specialize (Hk _ _ H). lia. }
           rewrite filter_cons, decide_False by lia. by apply IH.
Qed.

Lemma StronglySorted_filter {A} (R : relation A) (P : A → Prop)
    `{!∀ x, Decision (P x)} l :
  StronglySorted R l → StronglySorted R (filter P l).
Proof.
  induction 1 as [|x l Hl IH Hx]; [constructor|].
  rewrite filter_cons. destruct (decide (P x)); [|done].
  constructor; [done|]. rewrite Forall_forall in Hx |- *.
  intros y Hy. apply Hx. by apply list_elem_of_filter in Hy as [_ Hy].
Qed.

Lemma StronglySorted_weaken_on {A} (R R' : relation A) (P : A → Prop) l :
  (∀ a b, P a → P b → R a b → R' a b) →
  Forall P l → StronglySorted R l → StronglySorted R' l.
Proof.
  intros HR HP Hs. induction Hs as [|x l Hl IH Hx]; [constructor|].
  apply Forall_cons in HP as [Hpx HP]. constructor; [by apply IH|].
  rewrite Forall_forall in Hx, HP |- *. intros y Hy. apply HR; auto.
Qed.

Section Eligible.
Context (q : WindowedQuery).

Lemma window_groups_eligible tbl ws g :
  g ∈ window_groups q tbl (window_select q tbl ws) → eligible q g.
Proof.
  set (li := window_select q tbl ws). unfold window_groups. intros Hg.
  apply list_elem_of_fmap in Hg as ([k l] & -> & Hkl).
  pose proof (groupby_filter size _ k l (window_inodes_sorted q tbl li) Hkl)
    as Hl.
  (* the row of the window with this size *)
  assert (Hk : k ∈ (groupby size (window_inodes q tbl li)).*1)
    by (apply list_elem_of_fmap; exists (k, l); eauto).
  apply groupby_keys, list_elem_of_fmap in Hk as (i0 & Hi0 & Hin0).
  pose proof (window_inodes_sizes q tbl li i0 Hin0) as Hsz.
  rewrite <- Hi0 in Hsz.
  pose proof Hsz as Hsz'.
  apply list_elem_of_fmap in Hsz' as (r & Hr & Hrli).
  pose proof (window_select_below q tbl ws r Hrli) as Hb. rewrite <- Hr in Hb.
  unfold li, window_select in Hrli. apply elem_of_take_inv in Hrli.
  rewrite merge_sort_Permutation in Hrli.
  apply list_elem_of_filter in Hrli as [[Hcount Hupd] Hrg].
  unfold group_by_size in Hrg.
  apply list_elem_of_fmap in Hrg as (sz & Hreq & _).
  assert (sz = k) by (rewrite Hr, Hreq; done). subst sz.
  set (G := filter (λ i, size i = k)
              (filter (λ i, holds (size_le ws) i = true) (filtered_s q tbl)))
    in Hreq.
  rewrite Hreq in Hcount, Hupd. cbn [inode_count sr_has_updates] in *.
  (* the rows counted by the query are those of the group that are of
     the selected volumes *)
  assert (Hperm : filter (λ i, holds (filt_crit q) i = true) l ≡ₚ G).
  { rewrite Hl. unfold window_inodes. rewrite merge_sort_Permutation.
    unfold G, filtered_s. rewrite !list_filter_filter.
    erewrite list_filter_iff; [reflexivity|]. intros i. cbn beta.
    split.
    - intros [[H1 H2] H3]. split; [|done]. split; [done|].
      destruct ws as [w|]; cbn in *; [|done].
      apply bool_decide_eq_true. lia.
    - intros [[H1 H2] H3]. split; [done|]. by rewrite H1. }
  unfold eligible. cbn [comm_inode_count comm_inodes comm_size].
  split; [done|]. split; [by rewrite Hperm|]. split; [|split].
  - intros i Hi. rewrite Hl in Hi.
    by apply list_elem_of_filter in Hi as [Hs _].
  - apply existsb_exists in Hupd as (i & Hi & Hu). exists i.
    apply list_elem_of_In in Hi. rewrite <- Hperm in Hi.
    apply list_elem_of_filter in Hi as [Hh Hi]. done.
  - rewrite Hl. eapply (StronglySorted_weaken_on by_size_desc_ino _
                          (λ i, size i = k)).
    + intros a b Ha Hb' Hab. unfold by_size_desc_ino in Hab. lia.
    + apply Forall_forall. intros i Hi.
      by apply list_elem_of_filter in Hi as [Hi _].
    + apply StronglySorted_filter. unfold window_inodes.
      apply StronglySorted_merge_sort; apply _.
Qed.

Lemma iter_windows_eligible E fuel body ws s g :
  g ∈ (iter_windows E q fuel body ws s).1 → eligible q g.
Proof.
  revert ws s. induction fuel as [|fuel IH]; intros ws s; cbn [iter_windows].
  - intros H. by apply not_elem_of_nil in H.
  - destruct (window_select q (inodes s) ws) as [|li0 li] eqn:Hli.
    + destruct (clear_updates E q ws 0 s) as [[[]|e] s1]; cbn;
        intros H; by apply not_elem_of_nil in H.
    + destruct (yield_each_prefix body
                  (window_groups q (inodes s) (li0 :: li)) s) as [rest Hrest].
      assert (Hys : ∀ g, g ∈ (yield_each body
                    (window_groups q (inodes s) (li0 :: li)) s).1 → eligible q g).
      { intros g' Hg'. apply (window_groups_eligible (inodes s) ws).
        rewrite Hli, Hrest. apply elem_of_app. by left. }
      destruct (yield_each body _ s) as [ys [[[]|e] s1]]; cbn [fst] in *;
        [|exact (Hys g)].
      destruct (clear_updates E q _ _ s1) as [[[]|e] s2]; [|exact (Hys g)].
      specialize (IH (Some (sr_size (List.last (li0 :: li) li0) - 1)) s2).
      destruct (iter_windows E q fuel body _ s2) as [ys' r]. cbn [fst] in *.
      intros Hg. apply elem_of_app in Hg as [Hg|Hg]; [by apply Hys|by apply IH].
Qed.
End Eligible.

(** X9: Every group yielded by an iteration of the WindowedQuery is made
    of inodes of one size, in the order of their inode numbers, and its
    count is the number of its inodes.  At least two of them are of the
    selected volumes, and one of these at least had has_updates set when
    the window was queried.  (The others need not be of the selected
    volumes: the join reads the whole Inode table.) *)
Theorem yielded_groups_are_eligible E q fuel body s g :
  g ∈ (WindowedQuery_iter E q fuel body s).1 →
  comm_inode_count g = length (comm_inodes g)
  ∧ (2 ≤ length (filter (λ i, holds (filt_crit q) i = true)
                  (comm_inodes g)))%nat
  ∧ (∀ i, i ∈ comm_inodes g → size i = comm_size g)
  ∧ (∃ i, i ∈ comm_inodes g ∧ holds (filt_crit q) i = true
          ∧ has_updates i = true)
  ∧ StronglySorted (λ a b, ino a ≤ ino b) (comm_inodes g).
Proof.
  rewrite WindowedQuery_iter_unfold. cbn zeta. intros Hg.
  apply (iter_windows_eligible q E fuel body
           (max_size_scalar (inodes (iter_prologue s))) (iter_prologue s)).
  by destruct (iter_windows E q fuel body _ _) as [ys [[x|e] s']].
Qed.

Lemma yielded_groups_are_eligible_witness :
  (WindowedQuery_iter (env0 (Some true)) query1 3 (λ _, ret tt)
     (state0 pair_and_foreigner)).1
  = [mkCommonality1 50 3 pair_and_foreigner]
  ∧ (2 ≤ length (filter (λ i, holds (filt_crit query1) i = true)
                   pair_and_foreigner))%nat.
Proof.
  split; [vm_compute; reflexivity|].
  destruct (yielded_groups_are_eligible (env0 (Some true)) query1 3
              (λ _, ret tt) (state0 pair_and_foreigner)
              (mkCommonality1 50 3 pair_and_foreigner))
    as (_ & H2 & _).
  - apply list_elem_of_In. vm_compute. tauto.
  - exact H2.
Defined.

(** ** What a completed iteration leaves behind *)

Lemma clear_updates_ok_tail E q ws we s s' :
  clear_updates E q ws we s = (Ok tt, s') →
  skipped s' = [] ∧ cp_alive s' = true
  ∧ ∃ rest, trace s' = trace s ++ ClearUpdates ws we
                         :: Commit (synchronous s) :: PleaseCheckpoint :: rest
            ∧ (rest = [] ∨ rest = [CheckpointerStart]).
Proof.
  rewrite clear_updates_run. cbn zeta.
  destruct (clause_bool E _) as [b|]; [|discriminate].
  intros H. injection H as <-. unfold checkpoint_requested.
  destruct s as [tbl ev sy sk al dn so g1 g2 g3 tr]. cbn.
  destruct al; cbn; (split; [done|split; [done|]]).
  - exists []. rewrite <- !app_assoc. cbn. auto.
  - exists [CheckpointerStart]. rewrite <- !app_assoc. cbn. auto.
Qed.

Lemma iter_windows_ok_tail E q fuel body ws s ys x s' :
  iter_windows E q fuel body ws s = (ys, (Ok x, s')) →
  skipped s' = [] ∧ cp_alive s' = true
  ∧ ∃ t ws' m rest, trace s' = t ++ ClearUpdates ws' 0
                                  :: Commit m :: PleaseCheckpoint :: rest
                    ∧ (rest = [] ∨ rest = [CheckpointerStart]).
Proof.
  revert ws s ys. induction fuel as [|fuel IH]; intros ws s ys;
    cbn [iter_windows]; [discriminate|].
  destruct (window_select q (inodes s) ws) as [|li0 li].
  - destruct (clear_updates E q ws 0 s) as [[[]|e] s1] eqn:Hc; [|discriminate].
    intros H. inversion H; subst.
    apply clear_updates_ok_tail in Hc as (Hs & Ha & rest & Ht & Hr).
    split; [done|]. split; [done|]. eauto 10.
  - destruct (yield_each body _ s) as [ys0 [[[]|e] s1]]; [|discriminate].
    destruct (clear_updates E q _ _ s1) as [[[]|e] s2]; [|discriminate].
    destruct (iter_windows E q fuel body _ s2) as [ys' r] eqn:Hit.
    intros H. inversion H; subst. by eapply IH.
Qed.

(** X10: When an iteration of the WindowedQuery comes to its end, the last
    thing it did was a call clear_updates(window_start, 0) with its commit
    and its checkpoint request: the skip list is empty and the
    checkpointer thread is alive. *)
Theorem completed_iteration_ends_with_clear_updates
    E q fuel body s ys s' :
  WindowedQuery_iter E q fuel body s = (ys, (Ok tt, s')) →
  skipped s' = [] ∧ cp_alive s' = true
  ∧ ∃ t ws m rest, trace s' = t ++ ClearUpdates ws 0
                                 :: Commit m :: PleaseCheckpoint :: rest
                   ∧ (rest = [] ∨ rest = [CheckpointerStart]).
Proof.
  rewrite WindowedQuery_iter_unfold. cbn zeta.
  destruct (iter_windows E q fuel body _ _) as [ys0 [[x|e] s0]] eqn:Hit;
    [|discriminate].
  intros H. inversion H; subst. by eapply iter_windows_ok_tail.
Qed.

Lemma completed_iteration_ends_with_clear_updates_witness :
  skipped (WindowedQuery_iter (env0 (Some true)) query1 3 (λ _, ret tt)
             (state0 two_duplicates)).2.2 = [].
Proof.
  apply (completed_iteration_ends_with_clear_updates (env0 (Some true)) query1
           3 (λ _, ret tt) (state0 two_duplicates)
           (WindowedQuery_iter (env0 (Some true)) query1 3 (λ _, ret tt)
              (state0 two_duplicates)).1).
  vm_compute. reflexivity.
Defined.

(** ** clear_updates, whichever comparison survives *)

(** X11: A call of clear_updates that returns rewrites the table row by row,
    keeping keys and sizes.  The assignment of has_updates is written for
    the objects of the skip list that were loaded without has_updates or
    that a commit has expired since they were put on the list, and for no
    other: the rows of these end with has_updates set.  Of the other
    rows, those outside the selected volumes are left as they are, and
    those of the selected volumes whose size lies between window_end and
    window_start end with has_updates cleared, the rows of the other
    objects of the skip list among them: the faulty range predicate
    clears too much, never too little. *)
Theorem clear_updates_clears_at_least_the_range E q w we s s' :
  clear_updates E q (Some w) we s = (Ok tt, s') →
  (∀ i, i ∈ unsaved s ↔
        i ∈ skipped s
        ∧ (has_updates i = false ∨ expired (trace s) i = true))
  ∧ ∃ f, inodes s' = map f (inodes s)
       ∧ ∀ r,
           ikey (f r) = ikey r ∧ size (f r) = size r
           ∧ (ikey r ∈ ikey <$> unsaved s → has_updates (f r) = true)
           ∧ (ikey r ∉ ikey <$> unsaved s →
              (holds (filt_crit q) r = false → f r = r)
              ∧ (holds (filt_crit q) r = true → we ≤ size r ≤ w →
                 has_updates (f r) = false)).
Proof.
  rewrite clear_updates_run. cbn zeta.
  destruct (clause_bool E _) as [b|]; [|discriminate].
  intros H. injection H as <-. split.
  { intros i. unfold unsaved, assignment_writes.
    rewrite list_elem_of_filter, orb_true_iff, negb_true_iff. tauto. }
  set (c := and_ (filt_crit q) (if b then size_ge we else size_le (Some w))).
  exists (λ r, let r1 := if holds c r then clear_flag r else r in
               if bool_decide (ikey r1 ∈ ikey <$> unsaved s)
               then set_flag r1 else r1).
  split.
  - unfold checkpoint_requested. generalize (unsaved s). intros sk.
    destruct s as [tbl ev sy sk0 al dn so g1 g2 g3 tr].
    destruct al; cbn; unfold cleared_table; by rewrite map_map.
  - intros r. cbn zeta.
    assert (Hk : ikey (if holds c r then clear_flag r else r) = ikey r)
      by (by destruct (holds c r)).
    rewrite Hk. split; [|split; [|split]].
    + destruct (bool_decide _); by destruct (holds c r).
    + destruct (bool_decide _); by destruct (holds c r).
    + intros Hin. rewrite bool_decide_true by done. by destruct (holds c r).
    + intros Hnot. rewrite bool_decide_false by done. split.
      * intros Hf. unfold c. cbn [holds]. by rewrite Hf.
      * intros Hf Hrange. unfold c. cbn [holds]. rewrite Hf. cbn [andb].
        destruct b; cbn [holds]; rewrite bool_decide_true by lia; done.
Qed.

Lemma clear_updates_clears_at_least_the_range_witness :
  ∃ f, inodes (clear_updates (env0 (Some false)) query1 (Some 50) 40
                 (set_skipped (λ _, [mkInode 1 2 45 true])
                    (state0 sizes_30_45_60))).2
       = map f sizes_30_45_60
       ∧ has_updates (f (mkInode 1 2 45 true)) = false.
Proof.
  destruct (clear_updates_clears_at_least_the_range (env0 (Some false)) query1
              50 40
              (set_skipped (λ _, [mkInode 1 2 45 true])
                 (state0 sizes_30_45_60))
              (clear_updates (env0 (Some false)) query1 (Some 50) 40
                 (set_skipped (λ _, [mkInode 1 2 45 true])
                    (state0 sizes_30_45_60))).2
              ltac:(vm_compute; reflexivity))
    as (_ & f & Hf & Hr).
  exists f. split; [exact Hf|].
  destruct (Hr (mkInode 1 2 45 true)) as (_ & _ & _ & H).
  apply H.
  - vm_compute. apply not_elem_of_nil.
  - reflexivity.
  - cbn. lia.
Defined.

(** ** A pass with nothing to do *)

Lemma selectable_nothing q tbl :
  (∀ r, r ∈ tbl → holds (filt_crit q) r = true → has_updates r = true →
        (length (filter (λ i, size i = size r) (filtered_s q tbl)) < 2)%nat) →
  selectable q tbl = [].
Proof.
  intros Hno. unfold selectable, having. apply filter_none.
  intros r Hr [Hcount Hu]. unfold group_by_size in Hr.
  apply list_elem_of_fmap in Hr as (sz & -> & _).
  cbn [inode_count sr_has_updates] in Hcount, Hu.
  apply existsb_exists in Hu as (i & Hi & Hiu).
  apply list_elem_of_In, list_elem_of_filter in Hi as [Hsz Hi].
  unfold filtered_s in Hi. apply list_elem_of_filter in Hi as [Hc Hi].
  specialize (Hno i Hi Hc Hiu). rewrite Hsz in Hno. lia.
Qed.

(** X12: When no flagged row of the selected volumes shares its size with
    another row of these volumes (in particular when no row is flagged),
    dedup_tracked yields no group and does nothing but commit: no pragma
    is executed, no checkpointer is started, no file is looked up or
    opened, and the table and the events are left as they are. *)
Theorem dedup_tracked_nothing_to_do E fuel vol0 rest s :
  (∀ vol, vol ∈ rest → vol_fs vol = vol_fs vol0) →
  (∀ r, r ∈ inodes s → i_vol r ∈ vol_id <$> vol0 :: rest →
        has_updates r = true →
        (length (filter (λ i, size i = size r)
                   (filter (λ i, i_vol i ∈ vol_id <$> vol0 :: rest)
                      (inodes s))) < 2)%nat) →
  dedup_tracked E fuel (vol0 :: rest) s
  = ([], (Ok tt, emit (Commit (synchronous s)) (set_skipped (λ _, []) s))).
Proof.
  intros Hfs Hno. unfold dedup_tracked.
  assert (Hall : forallb (λ vol, bool_decide (vol_fs vol = vol_fs vol0))
                   (vol0 :: rest) = true).
  { apply forallb_forall. intros vol Hin. apply bool_decide_eq_true.
    apply list_elem_of_In, elem_of_cons in Hin as [->|Hin]; auto. }
  rewrite Hall. unfold dedup_tracked_checked. cbn zeta.
  unfold WindowedQuery_len, bind, get, ret.
  rewrite selectable_nothing; [reflexivity|].
  intros r Hr Hc Hu. cbn in Hc. apply bool_decide_eq_true in Hc.
  specialize (Hno r Hr Hc Hu).
  unfold filtered_s.
  change (length
            (filter (λ i, size i = size r)
               (filter (λ i, holds (vol_id_in (vol_id <$> vol0 :: rest)) i
                             = true) (inodes s))) < 2)%nat.
  assert (Heq : filter (λ i, holds (vol_id_in (vol_id <$> vol0 :: rest)) i = true)
                  (inodes s)
                = filter (λ i, i_vol i ∈ vol_id <$> vol0 :: rest) (inodes s)).
  { apply list_filter_iff. intros i. cbn [holds].
    by rewrite bool_decide_eq_true. }
  rewrite Heq. exact Hno.
Qed.

Lemma dedup_tracked_nothing_to_do_witness :
  dedup_tracked (env0 (Some true)) 3 [volA; volC] (state0 sizes_30_45_60)
  = ([], (Ok tt, emit (Commit (synchronous (state0 sizes_30_45_60)))
                   (set_skipped (λ _, []) (state0 sizes_30_45_60)))).
Proof.
  apply (dedup_tracked_nothing_to_do (env0 (Some true)) 3 volA [volC]
           (state0 sizes_30_45_60)).
  - intros vol Hin. apply list_elem_of_singleton in Hin as ->. reflexivity.
  - intros r Hr _ _. vm_compute in Hr.
    repeat (apply elem_of_cons in Hr as [->|Hr]; [vm_compute; lia|]).
    by apply not_elem_of_nil in Hr.
Defined.

(** ** Stage 3: files that already share their extents *)

Lemma stage3_fingerprints E x group :
  (∀ i, i ∈ group → fiemap_hash_from_file E i = x) →
  ∀ fies s fies' s',
    foldM (stage3_step E) fies group s = (Ok fies', s') →
    fies' ⊆ fies ∪ {[x]}.
Proof.
  induction group as [|i group IH]; intros Hx fies s fies' s'.
  - cbn. intros H. injection H as <- _. apply union_subseteq_l.
  - cbn [foldM]. unfold bind at 1.
    destruct (stage3_step E fies i s) as [[f1|e] s1] eqn:H1; [|discriminate].
    intros Hrest. apply IH in Hrest; [|intros j Hj; apply Hx; by right].
    assert (Hf1 : f1 ⊆ fies ∪ {[x]}).
    { unfold stage3_step in H1.
      destruct (lookup_ino_path_one E Stage3 i) as [p|errno].
      - destruct (fopenat E Stage3 i p); [discriminate|].
        injection H1 as <- _. rewrite (Hx i) by (by left).
        rewrite (comm_L (∪)). reflexivity.
      - case_bool_decide; [discriminate|].
        unfold bind, sess_delete, modify, ret in H1.
        injection H1 as <- _. apply union_subseteq_l. }
    etrans; [exact Hrest|]. apply union_least; [exact Hf1|].
    apply union_subseteq_r.
Qed.

(** X13: A partition of files whose extent maps all have the same fingerprint
    (they share their extents already) is dropped after stage 3, however
    the lookups went: nothing at all is traced (no file is opened for
    writing, no limit is raised, nothing is cloned, committed or
    notified), and the event log, the skip list, the soft limit and the
    third space gain are as before.  Only stale rows may have been
    deleted, and the second space gain counted. *)
Theorem shared_extents_partition_is_dropped
    E fs size ofile_reserved ofile_hard group x s :
  (∀ i, i ∈ group → fiemap_hash_from_file E i = x) →
  let s' := (dedup_partition E fs size ofile_reserved ofile_hard group s).2 in
  trace s' = trace s ∧ events s' = events s ∧ skipped s' = skipped s
  ∧ ofile_soft s' = ofile_soft s ∧ space_gain3 s' = space_gain3 s
  ∧ space_gain1 s' = space_gain1 s
  ∧ row_id <$> inodes s' `sublist_of` row_id <$> inodes s.
Proof.
  intros Hx. cbn zeta.
  set (s0 := gain2 (size * (Z.of_nat (length group) - 1)) s).
  set (s' := (dedup_partition E fs size ofile_reserved ofile_hard group s).2).
  assert (Hs' : ∃ t, s' = t ∧ (t = s ∨ (only_inodes s0 t ∧ table_shrinks s0 t))).
  { unfold s', dedup_partition.
    case_bool_decide as Hlen; [exists s; split; [done|by left]|].
    unfold bind at 1, add_gain2 at 1, modify at 1. fold s0. unfold bind at 1.
    pose proof (stage3_only_inodes E ∅ group s0) as Hfr.
    pose proof (stage3_fingerprints E x group Hx ∅ s0) as Hfp.
    assert (Hsh : table_shrinks s0 (foldM (stage3_step E) ∅ group s0).2).
    { assert (H : steps table_shrinks (foldM (stage3_step E) ∅ group)).
      { unfold stage3_step. steps_with idtac. all: shrinks_tac. }
      apply H. }
    destruct (foldM (stage3_step E) ∅ group s0) as [[fies|e] s1];
      cbn [snd] in Hfr, Hsh; [|exists s1; split; [done|by right]].
    specialize (Hfp fies s1 eq_refl).
    assert (Hsz : (base.size fies < 2)%nat).
    { apply subseteq_size in Hfp.
      rewrite (left_id_L ∅ (∪)), size_singleton in Hfp. lia. }
    rewrite bool_decide_true by done. exists s1. split; [done|by right]. }
  clearbody s'. destruct Hs' as (t & -> & [->|[Ho Ht]]); [by split_and!|].
  unfold only_inodes in Ho. unfold table_shrinks in Ht.
  rewrite Ho. cbn. split_and!; try reflexivity. exact Ht.
Qed.

Lemma shared_extents_partition_is_dropped_witness :
  trace (dedup_partition (env0 (Some true)) 1 50 9 4096
           [mkInode 1 7 50 true; mkInode 3 7 50 true]
           (state0 [mkInode 1 7 50 true; mkInode 3 7 50 true])).2 = [].
Proof.
  apply (shared_extents_partition_is_dropped (env0 (Some true)) 1 50 9 4096
           [mkInode 1 7 50 true; mkInode 3 7 50 true] 7
           (state0 [mkInode 1 7 50 true; mkInode 3 7 50 true])).
  intros i Hi.
  repeat (apply elem_of_cons in Hi as [->|Hi]; [reflexivity|]).
  by apply not_elem_of_nil in Hi.
Defined.

(** ** The limit on open files *)

#[global] Instance limit_raised_preorder hard : PreOrder (limit_raised hard).
Proof.
  split.
  - intros s. split; [lia|]. split; [done|]. exists [].
    by rewrite app_nil_r.
  - intros s1 s2 s3 (Ha & Hb & l1 & Ht1 & Hl1) (Hc & Hd & l2 & Ht2 & Hl2).
    split; [lia|]. split; [auto|]. exists (l1 ++ l2).
    rewrite Ht2, Ht1, app_assoc. split; [done|].
    apply Forall_app. split.
    + eapply Forall_impl; [exact Hl1|]. intros a Hq req h ->.
      destruct (Hq req h eq_refl) as (-> & ? & ?). split; [done|lia].
    + eapply Forall_impl; [exact Hl2|]. intros a Hq req h ->.
      destruct (Hq req h eq_refl) as (-> & ? & ?). split; [done|lia].
Qed.

Lemma limit_raised_same hard s s' :
  ofile_soft s' = ofile_soft s → trace s' = trace s → limit_raised hard s s'.
Proof.
  intros Ho Ht. split; [lia|]. split; [lia|]. exists [].
  by rewrite app_nil_r.
Qed.

Lemma limit_raised_emit hard a s :
  (∀ req h, a ≠ Setrlimit req h) → limit_raised hard s (emit a s).
Proof.
  intros Ha. split; [cbn; lia|]. split; [cbn; lia|]. exists [a].
  split; [done|]. constructor; [|constructor]. intros req h ->.
  by destruct (Ha req h).
Qed.

Ltac limit_tac :=
  first [ apply limit_raised_same; reflexivity
        | apply limit_raised_emit; intros ? ?; discriminate ].

Lemma ofile_budget_limit size n r hard inodes :
  steps (limit_raised hard) (ofile_budget size n r hard inodes).
Proof.
  intros s. unfold ofile_budget. cbn zeta. unfold bind at 1, get at 1.
  case_bool_decide as Hreq; [|reflexivity].
  case_bool_decide as Hhard.
  - cbn. unfold limit_raised. cbn [ofile_soft trace set_ofile_soft emit].
    split; [lia|]. split; [lia|]. eexists [_]. split; [reflexivity|].
    constructor; [|constructor]. intros req h Heq. injection Heq as <- <-.
    split; [done|]. lia.
  - revert s Hreq. 
    assert (H : ∀ m, steps (limit_raised hard)
                  (notify m >>
                   for_ inodes (λ inode, if has_updates inode
                                         then skip inode else ret tt) >>
                   ret false)).
    { intros m. steps_with idtac. all: limit_tac. }
    intros s _. apply H.
Qed.

Lemma dedup_group_limit E fs r hard g :
  steps (limit_raised hard) (dedup_group E fs r hard g).
Proof.
  unfold dedup_group, dedup_partition, open_and_share, hash_and_share,
    stage2_step, stage3_step, stage4_step, stage5_step,
    stage6_fileset, stage6_step, event_inode.
  repeat first
    [ apply ofile_budget_limit
    | steps_step
    | progress steps_prims
    | apply steps_commit; intros ?
    | apply steps_modify; intros ? ].
  all: limit_tac.
Qed.

Lemma clear_updates_limit hard E q ws we :
  steps (limit_raised hard) (clear_updates E q ws we).
Proof.
  unfold clear_updates, chained_comparison, py_and.
  steps_with idtac. all: limit_tac.
Qed.

(** X14: During a pass of dedup_tracked1 the soft limit on open files starts
    from the one getrlimit returned and is only ever raised; when it
    started at or below the hard limit it stays there.  Every call of
    setrlimit made during the pass passes the hard limit getrlimit
    returned, with a soft limit above the initial one and not above the
    hard one. *)
Theorem setrlimit_only_raises_the_soft_limit E fuel ofile_reserved q fs s :
  let soft := (getrlimit_OFILE E).1 in
  let hard := (getrlimit_OFILE E).2 in
  let s' := (dedup_tracked1 E fuel ofile_reserved q fs s).2.2 in
  soft ≤ ofile_soft s'
  ∧ (soft ≤ hard → ofile_soft s' ≤ hard)
  ∧ ∃ l, trace s' = trace s ++ l
         ∧ Forall (λ a, ∀ req h, a = Setrlimit req h →
                      h = hard ∧ soft < req ≤ ofile_soft s' ∧ req ≤ hard) l.
Proof.
  cbn zeta. unfold dedup_tracked1.
  destruct (getrlimit_OFILE E) as [soft hard]. cbn [fst snd].
  set (s0 := set_gains 0 0 0 (set_ofile_soft soft s)).
  rewrite WindowedQuery_iter_unfold. cbn zeta.
  assert (Hp : limit_raised hard s0 (iter_prologue s0)).
  { unfold iter_prologue.
    transitivity (set_synchronous NORMAL s0); [limit_tac|].
    transitivity (emit (Execute synchronous_NORMAL)
                    (set_synchronous NORMAL s0)); [limit_tac|].
    transitivity (emit (Execute wal_autocheckpoint_0)
                    (emit (Execute synchronous_NORMAL)
                       (set_synchronous NORMAL s0))); limit_tac. }
  match goal with
  | |- context [iter_windows E q fuel ?b ?w ?t] =>
      pose proof (iter_windows_steps (limit_raised hard) E q fuel b w t
                    (λ g, dedup_group_limit E fs _ hard g)
                    (clear_updates_limit hard E q)) as Hit;
      destruct (iter_windows E q fuel b w t) as [ys [[x|e] s1]]
  end; cbn [snd] in *.
  - assert (Hn : limit_raised hard s1
                   (emit (Notify (Potential_space_gain (space_gain1 s1)
                                    (space_gain2 s1) (space_gain3 s1))) s1))
      by limit_tac.
    pose proof (transitivity Hp (transitivity Hit Hn)) as H.
    exact H.
  - exact (transitivity Hp Hit).
Qed.

(** ** Stage 2: the partition by cheap fingerprint *)

Lemma dd_append_keys {V} k (v : V) d h :
  h ∈ (dd_append k v d).*1 ↔ h = k ∨ h ∈ d.*1.
Proof.
  induction d as [|[k' vs] d IH]; cbn [dd_append].
  - cbn. rewrite list_elem_of_singleton. split; [auto|].
    intros [H|H]; [done|]. by apply not_elem_of_nil in H.
  - case_bool_decide as Hk; cbn [fmap list_fmap fst].
    + rewrite !elem_of_cons. subst k'. tauto.
    + rewrite !elem_of_cons. fold (fmap (M:=list) (@fst Z (list V))).
      rewrite IH. tauto.
Qed.

Lemma dd_append_NoDup {V} k (v : V) d :
  NoDup d.*1 → NoDup (dd_append k v d).*1.
Proof.
  induction d as [|[k' vs] d IH]; cbn [dd_append].
  - intros _. cbn. apply NoDup_singleton.
  - cbn [fmap list_fmap fst]. fold (fmap (M:=list) (@fst Z (list V))).
    intros Hnd. apply NoDup_cons in Hnd as [Hk' Hnd].
    case_bool_decide as Hk; cbn [fmap list_fmap fst];
      fold (fmap (M:=list) (@fst Z (list V))).
    + apply NoDup_cons. by split.
    + apply NoDup_cons. split; [|by apply IH].
      rewrite dd_append_keys. intros [?|?]; [congruence|done].
Qed.

Lemma dd_append_elem {V} k (v : V) d h p :
  NoDup d.*1 → (h, p) ∈ dd_append k v d →
  (h = k ∧ ((∃ p0, (k, p0) ∈ d ∧ p = p0 ++ [v]) ∨ ((k ∉ d.*1) ∧ p = [v])))
  ∨ (h ≠ k ∧ (h, p) ∈ d).
Proof.
  induction d as [|[k' vs] d IH]; cbn [dd_append].
  - intros _ H. apply list_elem_of_singleton in H. injection H as -> ->.
    left. split; [done|]. right. split; [apply not_elem_of_nil|done].
  - cbn [fmap list_fmap fst]. fold (fmap (M:=list) (@fst Z (list V))).
    intros Hnd. apply NoDup_cons in Hnd as [Hk' Hnd].
    case_bool_decide as Hk.
    + subst k'. intros H. apply elem_of_cons in H as [H|H].
      * injection H as -> ->. left. split; [done|]. left.
        exists vs. split; [by left|done].
      * right. split; [|by right]. intros ->. apply Hk'.
        apply list_elem_of_fmap. by exists (k, p).
    + intros H. apply elem_of_cons in H as [H|H].
      * injection H as -> ->. right. split; [congruence|by left].
      * destruct (IH Hnd H) as [[-> [(p0 & Hp0 & ->)|[Hnot ->]]]|[Hne Hin]].
        -- left. split; [done|]. left. exists p0. split; [by right|done].
        -- left. split; [done|]. right. split; [|done].
           rewrite elem_of_cons. intros [?|?]; [congruence|done].
        -- right. split; [done|by right].
Qed.

Section Stage2.
Context (E : Env).

Lemma stage2_step_inv done by_mh x s by_mh' s' :
  stage2_step E by_mh x s = (Ok by_mh', s') →
  stage2_inv E done by_mh s → stage2_inv E (done ++ [x]) by_mh' s'.
Proof.
  unfold stage2_step, stage2_inv, found.
  intros Hrun (Hnd & Hkeys & Hparts & Hgone).
  destruct (lookup_ino_path_one E Stage2 x) as [p|errno] eqn:Hlook.
  - destruct (fopenat E Stage2 x p); [discriminate|].
    injection Hrun as <- <-.
    set (k := mini_hash_from_file E x).
    split; [by apply dd_append_NoDup|]. split; [|split].
    + intros i Hi Hf. rewrite dd_append_keys.
      apply elem_of_app in Hi as [Hi|Hi]; [right; by apply Hkeys|].
      apply list_elem_of_singleton in Hi as ->. by left.
    + intros h q Hq. rewrite filter_app.
      apply dd_append_elem in Hq; [|done].
      destruct Hq as [[-> [(p0 & Hp0 & ->)|[Hnot ->]]]|[Hne Hin]].
      * destruct (Hparts k p0 Hp0) as [_ Hp0eq]. split.
        { intros Hnil. by apply app_eq_nil in Hnil as [_ ?]. }
        rewrite filter_cons, decide_True by (by rewrite Hlook).
        by rewrite <- Hp0eq.
      * split; [done|].
        rewrite filter_cons, decide_True by (by rewrite Hlook).
        rewrite filter_none; [done|].
        intros i Hi [Hf Hh]. apply Hnot. rewrite <- Hh. by apply Hkeys.
      * destruct (Hparts h q Hin) as [Hne' Hqeq]. split; [done|].
        rewrite filter_cons, decide_False, filter_nil, app_nil_r
          by (intros [_ ?]; done).
        done.
    + intros i Hi Hf. apply elem_of_app in Hi as [Hi|Hi]; [by apply Hgone|].
      apply list_elem_of_singleton in Hi as ->. by rewrite Hlook in Hf.
  - case_bool_decide as Herr; [discriminate|].
    unfold bind, sess_delete, modify, ret in Hrun. injection Hrun as <- <-.
    split; [done|]. split; [|split].
    + intros i Hi Hf. apply elem_of_app in Hi as [Hi|Hi]; [by apply Hkeys|].
      apply list_elem_of_singleton in Hi as ->. by rewrite Hlook in Hf.
    + intros h q Hq. destruct (Hparts h q Hq) as [Hne Hqeq]. split; [done|].
      rewrite filter_app, filter_cons, decide_False, filter_nil, app_nil_r
        by (rewrite Hlook; intros [? _]; done).
      done.
    + intros i Hi Hf Hin. cbn [inodes set_inodes] in Hin.
      apply list_elem_of_fmap in Hin as (r & Hr & Hrin).
      apply list_elem_of_filter in Hrin as [Hrx Hrin].
      apply elem_of_app in Hi as [Hi|Hi].
      * apply (Hgone i Hi Hf). apply list_elem_of_fmap. by exists r.
      * apply list_elem_of_singleton in Hi as ->. by apply Hrx.
Qed.

Lemma stage2_fold_inv rest done by_mh s by_mh' s' :
  foldM (stage2_step E) by_mh rest s = (Ok by_mh', s') →
  stage2_inv E done by_mh s → stage2_inv E (done ++ rest) by_mh' s'.
Proof.
  revert done by_mh s. induction rest as [|x rest IH]; intros done by_mh s.
  - cbn. intros H. injection H as <- <-. by rewrite app_nil_r.
  - cbn [foldM]. unfold bind at 1.
    destruct (stage2_step E by_mh x s) as [[b1|e] s1] eqn:H1; [|discriminate].
    intros Hrest Hinv. rewrite cons_middle, app_assoc.
    eapply IH; [exact Hrest|]. by eapply stage2_step_inv.
Qed.
End Stage2.

(** X15: When stage 2 gets through a size group, by_mh partitions the inodes
    whose path was found by their cheap fingerprint: the fingerprints are
    distinct keys, every found inode has its fingerprint among the keys,
    each partition is non-empty and holds exactly the found inodes with
    its fingerprint, in the order of the group; and the inodes whose path
    was not found have no row left in the table. *)
Theorem stage2_partitions_by_fingerprint E group s by_mh s' :
  foldM (stage2_step E) [] group s = (Ok by_mh, s') →
  NoDup by_mh.*1
  ∧ (∀ i, i ∈ group → found E Stage2 i = true →
          mini_hash_from_file E i ∈ by_mh.*1)
  ∧ (∀ h p, (h, p) ∈ by_mh →
            p ≠ []
            ∧ p = filter (λ i, found E Stage2 i = true
                               ∧ mini_hash_from_file E i = h) group)
  ∧ (∀ i, i ∈ group → found E Stage2 i = false → ikey i ∉ ikey <$> inodes s').
Proof.
  intros Hrun.
  apply (stage2_fold_inv E group [] [] s by_mh s' Hrun).
  split; [constructor|]. split; [|split].
  - intros i Hi. by apply not_elem_of_nil in Hi.
  - intros h p Hp. by apply not_elem_of_nil in Hp.
  - intros i Hi. by apply not_elem_of_nil in Hi.
Qed.

Lemma stage2_partitions_by_fingerprint_witness :
  NoDup [(0, two_duplicates)].*1.
Proof.
  apply (stage2_partitions_by_fingerprint (env0 (Some true)) two_duplicates
           (state0 two_duplicates) [(0, two_duplicates)]
           (state0 two_duplicates) eq_refl).
Defined.

(** ** The three figures of potential space gain *)

#[global] Instance keeps_gains_preorder : PreOrder keeps_gains.
Proof.
  split.
  - intros s. by repeat split.
  - intros s1 s2 s3 (A1 & A2 & A3) (B1 & B2 & B3).
    unfold keeps_gains. rewrite B1, B2, B3. by repeat split.
Qed.

#[global] Instance gains_ordered_preorder : PreOrder gains_ordered.
Proof.
  split.
  - intros s. unfold gains_ordered. lia.
  - intros s1 s2 s3. unfold gains_ordered. lia.
Qed.

Lemma keeps_gains_ordered s s' : keeps_gains s s' → gains_ordered s s'.
Proof. intros (A1 & A2 & A3). unfold gains_ordered. lia. Qed.

Ltac gains_tac := by repeat split.

Lemma stage2_keeps_gains E by_mh inodes :
  steps keeps_gains (foldM (stage2_step E) by_mh inodes).
Proof. unfold stage2_step. steps_with idtac. all: gains_tac. Qed.

Lemma stage3_keeps_gains E fies inodes :
  steps keeps_gains (foldM (stage3_step E) fies inodes).
Proof. unfold stage3_step. steps_with idtac. all: gains_tac. Qed.

Lemma budget_and_share_keeps_gains E fs size n r h inodes :
  steps keeps_gains
    (let! go := ofile_budget size n r h inodes in
     if go then open_and_share E fs size inodes else ret tt).
Proof.
  unfold ofile_budget, open_and_share, hash_and_share, stage4_step,
    stage5_step, stage6_fileset, stage6_step, event_inode.
  steps_with idtac. all: gains_tac.
Qed.

Lemma clear_updates_keeps_gains E q ws we :
  steps keeps_gains (clear_updates E q ws we).
Proof.
  unfold clear_updates, chained_comparison, py_and.
  steps_with idtac. all: gains_tac.
Qed.

Lemma partition_gain_nonneg size p : 0 ≤ size → 0 ≤ partition_gain size p.
Proof. intros Hs. unfold partition_gain. case_bool_decide; nia. Qed.

(** One partition: space_gain2 grows by the partition's gain, space_gain3
    by that or by nothing. *)
Lemma dedup_partition_gains E fs size r h p s res s' :
  0 ≤ size →
  dedup_partition E fs size r h p s = (res, s') →
  space_gain1 s' = space_gain1 s
  ∧ space_gain2 s' = space_gain2 s + partition_gain size p
  ∧ 0 ≤ space_gain3 s' - space_gain3 s ≤ partition_gain size p.
Proof.
  intros Hsize. pose proof (partition_gain_nonneg size p Hsize) as Hnn.
  revert Hnn. unfold dedup_partition, partition_gain.
  case_bool_decide as Hlen.
  { intros _ H. injection H as _ <-. lia. }
  set (d := size * (Z.of_nat (length p) - 1)). intros Hd.
  unfold bind at 1, add_gain2 at 1, modify at 1. unfold bind at 1.
  pose proof (stage3_keeps_gains E ∅ p (gain2 d s)) as (A1 & A2 & A3).
  destruct (foldM (stage3_step E) ∅ p (gain2 d s)) as [[fies|e] s1];
    cbn [snd] in A1, A2, A3; cbn in A1, A2, A3.
  - case_bool_decide as Hf.
    { intros H. injection H as _ <-. lia. }
    unfold bind at 1, add_gain3 at 1, modify at 1.
    pose proof (budget_and_share_keeps_gains E fs size (length p) r h p
                  (gain3 d s1)) as (B1 & B2 & B3).
    cbn zeta in B1, B2, B3.
    intros H. rewrite H in B1, B2, B3. cbn in B1, B2, B3. lia.
  - intros H. injection H as _ <-. lia.
Qed.

Lemma for_partitions_gains E fs size r h ps :
  0 ≤ size →
  ∀ s res s',
    for_ ps (dedup_partition E fs size r h) s = (res, s') →
    space_gain1 s' = space_gain1 s
    ∧ 0 ≤ space_gain3 s' - space_gain3 s
    ∧ space_gain3 s' - space_gain3 s ≤ space_gain2 s' - space_gain2 s
    ∧ space_gain2 s' - space_gain2 s ≤ total_gain size ps.
Proof.
  intros Hsize. induction ps as [|p ps IH]; intros s res s'.
  - cbn. intros H. injection H as _ <-. lia.
  - cbn [for_ total_gain foldr]. fold (total_gain size ps). unfold bind at 1.
    assert (Htot : 0 ≤ total_gain size ps).
    { clear IH. induction ps as [|p' ps IH']; [done|]. cbn.
      pose proof (partition_gain_nonneg size p' Hsize). 
      fold (total_gain size ps). lia. }
    destruct (dedup_partition E fs size r h p s) as [[[]|e] s1] eqn:H1;
      apply (dedup_partition_gains E fs size r h p s _ s1 Hsize) in H1
        as (A1 & A2 & A3).
    + intros Hrest. apply IH in Hrest as (B1 & B2 & B3 & B4). lia.
    + intros H. injection H as _ <-. lia.
Qed.

Lemma length_members_dd_append {V} k (v : V) d :
  length (members (dd_append k v d)) = S (length (members d)).
Proof.
  unfold members. induction d as [|[k' vs] d IH]; cbn [dd_append]; [done|].
  case_bool_decide; cbn [fmap list_fmap concat snd].
  - rewrite !length_app. cbn. lia.
  - fold (fmap (M:=list) (@snd Z (list V))). rewrite !length_app, IH. lia.
Qed.

Lemma stage2_members_length E group :
  ∀ by_mh s by_mh' s',
    foldM (stage2_step E) by_mh group s = (Ok by_mh', s') →
    (length (members by_mh') ≤ length (members by_mh) + length group)%nat.
Proof.
  induction group as [|x group IH]; intros by_mh s by_mh' s'.
  - cbn. intros H. injection H as <- _. lia.
  - cbn [foldM]. unfold bind at 1.
    destruct (stage2_step E by_mh x s) as [[b1|e] s1] eqn:H1; [|discriminate].
    intros Hrest. apply IH in Hrest. cbn [length].
    assert ((length (members b1) ≤ S (length (members by_mh)))%nat);
      [|lia].
    unfold stage2_step in H1.
    destruct (lookup_ino_path_one E Stage2 x) as [p|errno].
    + destruct (fopenat E Stage2 x p); [discriminate|].
      injection H1 as <- _. by rewrite length_members_dd_append.
    + case_bool_decide; [discriminate|].
      unfold bind, sess_delete, modify, ret in H1. injection H1 as <- _. lia.
Qed.

(** The partitions of a group of [n] inodes can gain at most what the
    group can. *)
Lemma total_gain_bound size (ps : list (list Inode)) :
  0 ≤ size →
  total_gain size ps ≤ size * Z.of_nat (length (concat ps))
  ∧ (total_gain size ps = 0
     ∨ total_gain size ps ≤ size * (Z.of_nat (length (concat ps)) - 1)).
Proof.
  intros Hsize. induction ps as [|p ps [IH1 IH2]]; [cbn; lia|].
  cbn [total_gain foldr concat]. fold (total_gain size ps).
  rewrite length_app. unfold partition_gain.
  case_bool_decide as Hlen; nia.
Qed.

Lemma dedup_group_gains E fs r h g :
  0 ≤ comm_size g → comm_inode_count g = length (comm_inodes g) →
  (1 ≤ length (comm_inodes g))%nat →
  steps gains_ordered (dedup_group E fs r h g).
Proof.
  intros Hsize Hcount Hlen s. unfold dedup_group. cbn zeta.
  set (d := comm_size g * (Z.of_nat (comm_inode_count g) - 1)).
  assert (Hd : 0 ≤ d) by (unfold d; nia).
  unfold bind at 1, add_gain1 at 1, modify at 1. unfold bind at 1.
  pose proof (stage2_keeps_gains E [] (comm_inodes g) (gain1 d s))
    as (A1 & A2 & A3).
  pose proof (stage2_members_length E (comm_inodes g) [] (gain1 d s)) as Hm.
  destruct (foldM (stage2_step E) [] (comm_inodes g) (gain1 d s))
    as [[by_mh|e] s1]; cbn [snd] in A1, A2, A3; cbn in A1, A2, A3.
  - specialize (Hm by_mh s1 eq_refl). cbn in Hm.
    pose proof (total_gain_bound (comm_size g) (snd <$> by_mh) Hsize)
      as [T1 T2].
    fold (members by_mh) in T1, T2.
    pose proof (for_partitions_gains E fs (comm_size g) r h (snd <$> by_mh)
                  Hsize s1) as Hfor.
    destruct (for_ (snd <$> by_mh) _ s1) as [res s2].
    specialize (Hfor res s2 eq_refl) as (B1 & B2 & B3 & B4).
    cbn [snd]. unfold gains_ordered.
    assert (total_gain (comm_size g) (snd <$> by_mh) ≤ d).
    { destruct T2 as [->|T2]; [done|]. unfold d. rewrite Hcount. nia. }
    lia.
  - cbn [snd]. unfold gains_ordered. lia.
Qed.

Lemma sizes_nonneg_shrinks s s' :
  table_shrinks s s' → sizes_nonneg s → sizes_nonneg s'.
Proof.
  unfold table_shrinks, sizes_nonneg. intros Hsub Hs i Hi.
  assert (Hin : row_id i ∈ row_id <$> inodes s).
  { eapply elem_of_sublist; [|exact Hsub].
    apply list_elem_of_fmap. by exists i. }
  apply list_elem_of_fmap in Hin as (j & Hj & Hjin).
  specialize (Hs j Hjin). unfold row_id in Hj. injection Hj as _ _ ->.
  done.
Qed.

Lemma yield_each_steps_on R `{!PreOrder R} body groups s :
  (∀ g, g ∈ groups → steps R (body g)) → R s (yield_each body groups s).2.2.
Proof.
  revert s. induction groups as [|g groups IH]; intros s Hb;
    cbn [yield_each]; [reflexivity|].
  pose proof (Hb g ltac:(by left) s) as Hg.
  destruct (body g s) as [[[]|e] s1]; cbn [snd] in *; [|done].
  specialize (IH s1 (λ g' Hg', Hb g' ltac:(by right))).
  destruct (yield_each body groups s1) as [ys r].
  cbn [snd] in *. by etrans.
Qed.

Lemma window_groups_members q tbl li g i :
  g ∈ window_groups q tbl li → i ∈ comm_inodes g → i ∈ tbl.
Proof.
  unfold window_groups. intros Hg Hi.
  apply list_elem_of_fmap in Hg as ([k l] & -> & Hkl). cbn in Hi.
  pose proof (groupby_filter size _ k l (window_inodes_sorted q tbl li) Hkl)
    as ->.
  apply list_elem_of_filter in Hi as [_ Hi].
  unfold window_inodes in Hi. rewrite merge_sort_Permutation in Hi.
  by apply list_elem_of_filter in Hi as [_ Hi].
Qed.

Lemma iter_windows_gains E q fs r h fuel :
  ∀ ws s, sizes_nonneg s →
    gains_ordered s
      (iter_windows E q fuel (dedup_group E fs r h) ws s).2.2.
Proof.
  induction fuel as [|fuel IH]; intros ws s Hnn; cbn [iter_windows];
    [reflexivity|].
  destruct (window_select q (inodes s) ws) as [|li0 li] eqn:Hli.
  - pose proof (clear_updates_keeps_gains E q ws 0 s) as H0.
    apply keeps_gains_ordered in H0.
    by destruct (clear_updates E q ws 0 s) as [[[]|e] s1].
  - assert (Hgood : ∀ g, g ∈ window_groups q (inodes s) (li0 :: li) →
                         steps gains_ordered (dedup_group E fs r h g)).
    { intros g Hg. pose proof Hg as Hel. rewrite <- Hli in Hel.
      apply window_groups_eligible in Hel
        as (Hcount & Hlen & Hmem & _ & _).
      pose proof (length_filter (λ i, holds (filt_crit q) i = true)
                    (comm_inodes g)) as Hle.
      apply dedup_group_gains; [|done|lia].
      destruct (comm_inodes g) as [|i l] eqn:Hl; [cbn in Hlen; lia|].
      rewrite <- (Hmem i ltac:(by left)).
      apply Hnn. eapply window_groups_members; [exact Hg|].
      rewrite Hl. by left. }
    pose proof (yield_each_steps_on gains_ordered _ _ s Hgood) as Hy.
    pose proof (yield_each_steps table_shrinks
                  (dedup_group E fs r h)
                  (window_groups q (inodes s) (li0 :: li)) s
                  (dedup_group_shrinks E fs r h)) as Hsh.
    destruct (yield_each _ _ s) as [ys [[[]|e] s1]]; cbn [snd] in *; [|done].
    match goal with
    | |- context [clear_updates E q ?a ?b s1] =>
        pose proof (clear_updates_keeps_gains E q a b s1) as H1;
        pose proof (clear_updates_shrinks E q a b s1) as Hsh1;
        destruct (clear_updates E q a b s1) as [[[]|e] s2]; cbn [snd] in *
    end; apply keeps_gains_ordered in H1.
    + assert (Hnn2 : sizes_nonneg s2).
      { eapply sizes_nonneg_shrinks; [exact Hsh1|].
        eapply sizes_nonneg_shrinks; [exact Hsh|done]. }
      match goal with
      | |- context [iter_windows E q fuel ?b ?w s2] =>
          specialize (IH w s2 Hnn2);
          destruct (iter_windows E q fuel b w s2) as [ys' r']
      end.
      cbn [snd] in *. etrans; [exact Hy|]. by etrans.
    + by etrans.
Qed.

(** X16: When no file of the table has a negative size, the three figures of
    potential space gain that dedup_tracked1 reports when it is through
    are ordered: the gain counted after the extent-map stage is at most
    the gain counted after the fingerprint stage, which is at most the
    gain counted for whole size groups, and none is negative.  The report
    is the last thing the pass does. *)
Theorem potential_space_gains_are_ordered
    E fuel ofile_reserved q fs s ys s' :
  (∀ i, i ∈ inodes s → 0 ≤ size i) →
  dedup_tracked1 E fuel ofile_reserved q fs s = (ys, (Ok tt, s')) →
  ∃ g1 g2 g3,
    last (trace s') = Some (Notify (Potential_space_gain g1 g2 g3))
    ∧ 0 ≤ g3 ∧ g3 ≤ g2 ∧ g2 ≤ g1.
Proof.
  intros Hnn. unfold dedup_tracked1.
  destruct (getrlimit_OFILE E) as [soft hard].
  set (s0 := set_gains 0 0 0 (set_ofile_soft soft s)).
  rewrite WindowedQuery_iter_unfold. cbn zeta.
  pose proof (iter_windows_gains E q fs ofile_reserved hard fuel
                (max_size_scalar (inodes (iter_prologue s0)))
                (iter_prologue s0) Hnn) as Hg.
  destruct (iter_windows E q fuel _ _ (iter_prologue s0))
    as [ys0 [[x|e] s1]]; [|discriminate].
  cbn [snd] in Hg. unfold gains_ordered in Hg. cbn in Hg.
  unfold notify, tell_, modify. intros H. injection H as _ <-.
  exists (space_gain1 s1), (space_gain2 s1), (space_gain3 s1).
  split; [|lia]. cbn. apply last_snoc.
Qed.

Lemma potential_space_gains_are_ordered_witness :
  ∃ g1 g2 g3,
    last (trace (dedup_tracked1 (env0 (Some true)) 3 9 query1 1
                   (state0 two_duplicates)).2.2)
    = Some (Notify (Potential_space_gain g1 g2 g3))
    ∧ 0 ≤ g3 ∧ g3 ≤ g2 ∧ g2 ≤ g1.
Proof.
  apply (potential_space_gains_are_ordered (env0 (Some true)) 3 9 query1 1
           (state0 two_duplicates)
           (dedup_tracked1 (env0 (Some true)) 3 9 query1 1
              (state0 two_duplicates)).1).
  - intros i Hi. vm_compute in Hi.
    repeat (apply elem_of_cons in Hi as [->|Hi]; [vm_compute; discriminate|]).
    by apply not_elem_of_nil in Hi.
  - vm_compute. reflexivity.
Defined.

(** ** Clones are made of files that compared equal *)

Lemma steps_foldM_in {A B} R `{!PreOrder R} (f : B → A → M B) l acc :
  (∀ b x, x ∈ l → steps R (f b x)) → steps R (foldM f acc l).
Proof.
  revert acc. induction l as [|x l IH]; intros acc Hf; simpl.
  - apply steps_ret; apply _.
  - apply steps_bind; [apply _|apply Hf; by left|].
    intros b. apply IH. intros b' y Hy. apply Hf. by right.
Qed.

Lemma dd_append_inv {V} k (v : V) d h p x :
  (h, p) ∈ dd_append k v d → x ∈ p →
  (x = v ∧ h = k) ∨ ∃ p0, (h, p0) ∈ d ∧ x ∈ p0.
Proof.
  induction d as [|[k' vs] d IH]; cbn [dd_append].
  - intros H Hx. apply list_elem_of_singleton in H. injection H as -> ->.
    apply list_elem_of_singleton in Hx. by left.
  - case_bool_decide as Hk.
    + subst k'. intros H Hx. apply elem_of_cons in H as [H|H].
      * injection H as -> ->. apply elem_of_app in Hx as [Hx|Hx].
        -- right. exists vs. split; [by left|done].
        -- apply list_elem_of_singleton in Hx. by left.
      * right. exists p. split; [by right|done].
    + intros H Hx. apply elem_of_cons in H as [H|H].
      * injection H as -> ->. right. exists vs. split; [by left|done].
      * destruct (IH H Hx) as [?|(p0 & Hp0 & Hx0)]; [by left|].
        right. exists p0. split; [by right|done].
Qed.

Section Checked.
Context (E : Env).

Lemma stage6_step_checked o sfile acc dfile :
  sha1_digest E sfile = sha1_digest E dfile →
  tell E sfile = tell E dfile →
  steps (traces (clone_checked E)) (stage6_step E o sfile acc dfile).
Proof.
  intros Hd Ht. unfold stage6_step. cbn zeta.
  apply steps_bind; [apply _|apply steps_subscript; apply _|intros sname].
  apply steps_bind; [apply _|apply steps_subscript; apply _|intros dname].
  destruct (cmp_files E sfile dfile) eqn:Hcmp; cbn [negb].
  - destruct (clone_data E dfile sfile); steps_with idtac;
      try traces_tac; apply traces_emit; cbn; by exists sfile, dfile.
  - steps_with idtac; traces_tac.
Qed.

Lemma stage6_fileset_checked fs size o fileset :
  (∀ f g, f ∈ fileset → g ∈ fileset →
          sha1_digest E f = sha1_digest E g ∧ tell E f = tell E g) →
  steps (traces (clone_checked E)) (stage6_fileset E fs size o fileset).
Proof.
  intros Hsame. unfold stage6_fileset.
  destruct fileset as [|sfile [|d dfiles]];
    [apply steps_ret; apply _..|].
  apply steps_bind; [apply _| |intros ok].
  - apply steps_foldM_in; [apply _|]. intros b x Hx.
    destruct (Hsame sfile x) as [Hd Ht]; [by left|by right|].
    by apply stage6_step_checked.
  - destruct ok; [apply steps_ret; apply _|].
    unfold event_inode. steps_with idtac; traces_tac.
Qed.

Lemma stage5_step_by_hash size o wu acc f s acc' s' :
  stage5_step E size o wu acc f s = (Ok acc', s') →
  by_hash_inv E size acc → by_hash_inv E size acc'.
Proof.
  unfold stage5_step. cbn zeta. unfold bind at 1, subscript at 1.
  destruct (fd_inodes o !! fileno f) as [inode|]; [|discriminate].
  cbn [ret]. intros Hrun Hinv.
  assert (Hsame : ∀ m : M unit, ∀ t,
            (m >> ret acc) s = (Ok acc', t) → by_hash_inv E size acc').
  { intros m t. unfold bind, ret. destruct (m s) as [[[]|e] s1]; [|done].
    by intros H; injection H as <- _. }
  case_bool_decide as Hwu.
  { unfold bind at 1, subscript at 1 in Hrun.
    destruct (fd_names o !! fileno f) as [name|]; [|discriminate].
    cbn [ret] in Hrun.
    by apply (Hsame (notify (File_is_in_use name) >> skip inode) s'). }
  case_bool_decide as Hino; [by apply (Hsame (skip inode) s')|].
  case_bool_decide as Hdev; [by apply (Hsame (skip inode) s')|].
  case_bool_decide as Hsz.
  - case_bool_decide as Hcut;
      [by apply (Hsame (sess_delete inode) s')
      |by apply (Hsame (skip inode) s')].
  - injection Hrun as <- _. intros h fl g Hfl Hg.
    destruct (dd_append_inv _ _ _ _ _ _ Hfl Hg) as [[-> ->]|(p0 & Hp0 & Hg0)].
    + split; [done|]. by destruct (decide (tell E f = size)).
    + by eapply Hinv.
Qed.

Lemma stage5_fold_by_hash size o wu l :
  ∀ acc s acc' s',
    foldM (stage5_step E size o wu) acc l s = (Ok acc', s') →
    by_hash_inv E size acc → by_hash_inv E size acc'.
Proof.
  induction l as [|f l IH]; intros acc s acc' s'.
  - cbn. by intros H; injection H as <- _.
  - cbn [foldM]. unfold bind at 1.
    destruct (stage5_step E size o wu acc f s) as [[a1|e] s1] eqn:H1;
      [|discriminate].
    intros Hrest Hinv. eapply IH; [exact Hrest|].
    by eapply stage5_step_by_hash.
Qed.

Lemma hash_and_share_checked fs size o :
  steps (traces (clone_checked E)) (hash_and_share E fs size o).
Proof.
  intros s. unfold hash_and_share. cbn zeta. unfold bind.
  set (wu := fds_in_write_use E (files o)).
  assert (H5 : steps (traces (clone_checked E))
                 (foldM (stage5_step E size o wu) [] (files o))).
  { unfold stage5_step. steps_with idtac; traces_tac. }
  specialize (H5 s).
  pose proof (stage5_fold_by_hash size o wu (files o) [] s) as Hinv.
  destruct (foldM (stage5_step E size o wu) [] (files o) s)
    as [[by_hash|e] s1]; cbn [snd] in H5; [|done].
  specialize (Hinv by_hash s1 eq_refl).
  assert (Hbh : by_hash_inv E size by_hash).
  { apply Hinv. intros h fl f Hfl. by apply not_elem_of_nil in Hfl. }
  etrans; [exact H5|].
  apply (steps_for_in (traces (clone_checked E))).
  intros fileset Hfs. apply list_elem_of_fmap in Hfs as ([h fl] & -> & Hfl).
  apply stage6_fileset_checked. intros f g Hf Hg. cbn [snd] in Hf, Hg.
  destruct (Hbh h fl f Hfl Hf) as [-> ->].
  destruct (Hbh h fl g Hfl Hg) as [<- <-]. done.
Qed.

Lemma dedup_group_checked fs r h g :
  steps (traces (clone_checked E)) (dedup_group E fs r h g).
Proof.
  unfold dedup_group, dedup_partition, open_and_share, ofile_budget,
    stage2_step, stage3_step, stage4_step.
  repeat first
    [ apply hash_and_share_checked
    | steps_step
    | progress steps_prims
    | apply steps_commit; intros ?
    | apply steps_modify; intros ? ].
  all: traces_tac.
Qed.

Lemma clear_updates_checked q ws we :
  steps (traces (clone_checked E)) (clear_updates E q ws we).
Proof.
  unfold clear_updates, chained_comparison, py_and.
  steps_with idtac; traces_tac.
Qed.
End Checked.

(** X17: In a pass of dedup_tracked, however it ends, every call of clone_data
    is made on a destination and a source that the byte-by-byte
    comparison just found equal, that were put in the same partition for
    having the same digest, and from which the same number of bytes was
    read when they were hashed. *)
Theorem clones_only_after_equal_comparison E fuel volset s :
  ∃ l, trace (dedup_tracked E fuel volset s).2.2 = trace s ++ l
       ∧ Forall (clone_checked E) l.
Proof.
  change (traces (clone_checked E) s (dedup_tracked E fuel volset s).2.2).
  unfold dedup_tracked.
  destruct volset as [|vol0 rest]; [reflexivity|].
  destruct (forallb _ _); [|reflexivity].
  unfold dedup_tracked_checked, WindowedQuery_len.
  cbn -[selectable WindowedQuery_iter].
  destruct (length _).
  { cbn. transitivity (set_skipped (λ _, []) s);
      [by apply traces_same|by apply traces_emit]. }
  unfold dedup_tracked1. destruct (getrlimit_OFILE E) as [soft hard].
  rewrite WindowedQuery_iter_unfold. cbn zeta.
  match goal with
  | |- context [iter_windows E ?q fuel ?b ?w ?t] =>
      pose proof (iter_windows_steps (traces (clone_checked E)) E q fuel b w t
                    (λ g, dedup_group_checked E _ _ _ g)
                    (clear_updates_checked E q)) as Hit;
      assert (Hpre : traces (clone_checked E) s t);
      [|destruct (iter_windows E q fuel b w t) as [ys [[x|e] s1]]]
  end; cbn [snd] in *.
  - unfold iter_prologue.
    match goal with
    | |- traces _ _ (set_cp _ _ (emit ?b (emit ?a ?t))) =>
        transitivity t; [by apply traces_same|];
        transitivity (emit a t); [by apply traces_emit|];
        transitivity (emit b (emit a t)); [by apply traces_emit|];
        by apply traces_same
    end.
  - etrans; [exact Hpre|]. etrans; [exact Hit|].
    set (m := Potential_space_gain _ _ _).
    transitivity (emit (Notify m) s1); [by apply traces_emit|].
    change (traces (clone_checked E) (emit (Notify m) s1)
              (emit (Commit (synchronous (emit (Notify m) s1)))
                 (emit (Notify m) s1))).
    by apply traces_emit.
  - etrans; [exact Hpre|]. exact Hit.
Qed.
